(** * AWS data backup pipeline: backup and restore orchestration

    A shallow embedding of [src/backup_manager.py] (class [BackupManager]) and
    [src/restore_manager.py] (class [RestoreManager]).

    The two classes are thin layers over the cloud provider's client: every
    method issues provider calls, mutates a local [results] dictionary and
    catches exceptions.  The embedding therefore has three layers:

    - the Python values the code handles ([datetime], strings, dictionaries);
    - a reference model of the provider: a state ([World]), a log of the
      calls that were issued and an oracle deciding which calls raise;
    - the methods themselves, written in a state-and-exception monad whose
      state is the provider state together with the method's local variables.
*)

From Stdlib Require Import ZArith Ascii String List Lia Bool.
From stdpp Require Import gmap strings list fin_maps sorting pretty.

Local Open Scope string_scope.
Local Open Scope list_scope.
Local Open Scope Z_scope.

(* ===================================================================== *)
(** * Python's [datetime]                                                *)
(* ===================================================================== *)

Module Datetime.

(** The only time zone the provider's client attaches to a timestamp. *)
Inductive tz := UTC.

(** A [datetime] object stores its calendar fields; [tzinfo = None] is a
    naive datetime (what [datetime.now()] returns), [Some UTC] an aware one
    (what the provider's client returns for creation times). *)
Record datetime := mkDT {
  year : Z; month : Z; day : Z;
  hour : Z; minute : Z; second : Z; microsecond : Z;
  tzinfo : option tz
}.

(** [d.replace(tzinfo=None)] *)
Definition replace_tzinfo_None (d : datetime) : datetime :=
  mkDT (year d) (month d) (day d) (hour d) (minute d) (second d)
       (microsecond d) None.

Definition _is_leap (y : Z) : bool :=
  (y mod 4 =? 0) && (negb (y mod 100 =? 0) || (y mod 400 =? 0)).

Definition _days_in_month (y m : Z) : Z :=
  if m =? 2 then (if _is_leap y then 29 else 28)
  else if (m =? 4) || (m =? 6) || (m =? 9) || (m =? 11) then 30
  else 31.

(** Number of days in the year preceding the first day of month [m]
    (the table [_DAYS_BEFORE_MONTH] of a non-leap year). *)
Definition _DAYS_BEFORE_MONTH (m : Z) : Z :=
  match m with
  | 1 => 0 | 2 => 31 | 3 => 59 | 4 => 90 | 5 => 120 | 6 => 151
  | 7 => 181 | 8 => 212 | 9 => 243 | 10 => 273 | 11 => 304 | 12 => 334
  | _ => 365
  end.

Definition _days_before_year (y : Z) : Z :=
  let y' := y - 1 in y' * 365 + y' / 4 - y' / 100 + y' / 400.

Definition _days_before_month (y m : Z) : Z :=
  _DAYS_BEFORE_MONTH m + (if (2 <? m) && _is_leap y then 1 else 0).

Definition _ymd2ord (y m d : Z) : Z :=
  _days_before_year y + _days_before_month y m + d.

Definition _DI400Y : Z := 146097.
Definition _DI100Y : Z := 36524.
Definition _DI4Y : Z := 1461.
Definition _MAXORDINAL : Z := 3652059.

(** [_ord2ymd]: ordinal (1 = 0001-01-01) to year, month, day. *)
Definition _ord2ymd (n0 : Z) : Z * Z * Z :=
  let n := n0 - 1 in
  let n400 := n / _DI400Y in let n := n mod _DI400Y in
  let y := n400 * 400 + 1 in
  let n100 := n / _DI100Y in let n := n mod _DI100Y in
  let n4 := n / _DI4Y in let n := n mod _DI4Y in
  let n1 := n / 365 in let n := n mod 365 in
  let y := y + n100 * 100 + n4 * 4 + n1 in
  if (n1 =? 4) || (n100 =? 4) then (y - 1, 12, 31)
  else
    let leapyear := (n1 =? 3) && (negb (n4 =? 24) || (n100 =? 3)) in
    let m := Z.shiftr (n + 50) 5 in
    let preceding :=
      _DAYS_BEFORE_MONTH m + (if (2 <? m) && leapyear then 1 else 0) in
    if n <? preceding then
      let m' := m - 1 in
      let dim := if (m' =? 2) && leapyear then 29
                 else _days_in_month 1 m' in
      (y, m', n - (preceding - dim) + 1)
    else (y, m, n - preceding + 1).

(** The range of values a [datetime] object can hold. *)
Definition valid (d : datetime) : Prop :=
  1 <= year d <= 9999 /\ 1 <= month d <= 12 /\
  1 <= day d <= _days_in_month (year d) (month d) /\
  0 <= hour d < 24 /\ 0 <= minute d < 60 /\ 0 <= second d < 60 /\
  0 <= microsecond d < 1000000.

Definition validb (d : datetime) : bool :=
  (1 <=? year d) && (year d <=? 9999) && (1 <=? month d) && (month d <=? 12)
  && (1 <=? day d) && (day d <=? _days_in_month (year d) (month d))
  && (0 <=? hour d) && (hour d <? 24) && (0 <=? minute d) && (minute d <? 60)
  && (0 <=? second d) && (second d <? 60)
  && (0 <=? microsecond d) && (microsecond d <? 1000000).

(** Comparison of two datetimes of the same awareness: the field tuples
    [(year, month, day, hour, minute, second, microsecond)] are compared
    lexicographically. *)
Fixpoint lex_compare (a b : list Z) : comparison :=
  match a, b with
  | [], [] => Eq
  | [], _ :: _ => Lt
  | _ :: _, [] => Gt
  | x :: a', y :: b' =>
      match x ?= y with Eq => lex_compare a' b' | c => c end
  end.

Definition fields (d : datetime) : list Z :=
  [year d; month d; day d; hour d; minute d; second d; microsecond d].

Definition dt_compare (a b : datetime) : comparison :=
  lex_compare (fields a) (fields b).

(** [a < b] *)
Definition dt_ltb (a b : datetime) : bool :=
  match dt_compare a b with Lt => true | _ => false end.

(** [d - timedelta(days=n)].  [timedelta] refuses more than 999999999 days
    and the subtraction raises [OverflowError] when the result leaves the
    years 1..9999; [None] stands for both. *)
Definition sub_days (d : datetime) (n : Z) : option datetime :=
  if (999999999 <? Z.abs n) then None
  else
    let o := _ymd2ord (year d) (month d) (day d) - n in
    if (0 <? o) && (o <=? _MAXORDINAL) then
      let '(y, m, dd) := _ord2ymd o in
      Some (mkDT y m dd (hour d) (minute d) (second d) (microsecond d)
                 (tzinfo d))
    else None.

(** Decimal digits, most significant first, zero-padded to width [w]:
    what [%0wd] prints for [0 <= n < 10^w]. *)
Definition digit (n : Z) : ascii := ascii_of_nat (48 + Z.to_nat n).

Fixpoint zfill (w : nat) (n : Z) : string :=
  match w with
  | O => EmptyString
  | S w' => zfill w' (n / 10) +:+ String (digit (n mod 10)) EmptyString
  end.

(** [d.isoformat()]: [YYYY-MM-DDTHH:MM:SS], then [.ffffff] when the
    microsecond is not zero, then the UTC offset of an aware datetime. *)
Definition isoformat (d : datetime) : string :=
  zfill 4 (year d) +:+ "-" +:+ zfill 2 (month d) +:+ "-" +:+ zfill 2 (day d)
  +:+ "T" +:+ zfill 2 (hour d) +:+ ":" +:+ zfill 2 (minute d) +:+ ":"
  +:+ zfill 2 (second d)
  +:+ (if microsecond d =? 0 then "" else "." +:+ zfill 6 (microsecond d))
  +:+ (match tzinfo d with Some UTC => "+00:00" | None => "" end).

(** [d.strftime('%Y%m%d%H%M%S')] and [d.strftime('%Y/%m/%d')] *)
Definition strftime_compact (d : datetime) : string :=
  zfill 4 (year d) +:+ zfill 2 (month d) +:+ zfill 2 (day d)
  +:+ zfill 2 (hour d) +:+ zfill 2 (minute d) +:+ zfill 2 (second d).

Definition strftime_path (d : datetime) : string :=
  zfill 4 (year d) +:+ "/" +:+ zfill 2 (month d) +:+ "/" +:+ zfill 2 (day d).

End Datetime.

Import Datetime.

(* ===================================================================== *)
(** * Python values and dictionaries                                     *)
(* ===================================================================== *)

(** The scalar values stored in the result dictionaries. *)
Inductive pyval :=
| VBool (b : bool)
| VInt (n : Z)
| VStr (s : string).

(** A flat dictionary with string keys, such as [{'valid': False,
    'error': str(e)}]. *)
Abbreviation pydict := (gmap string pyval).

(** [x[k]] for a string-valued entry. *)
Definition str_field (k : string) (x : pydict) : string :=
  match x !! k with
  | Some (VStr v) => v
  | _ => ""
  end.

(** [str(e)] is all the code ever reads from an exception. *)
Definition exn := string.

(** [{'Key': k, 'Value': v}] *)
Record Tag := mkTag { Key : string; Value : string }.

(** [any(tag.get('Key') == 'AutomatedBackup' and tag.get('Value') == 'true'
         for tag in tags)] *)
Definition is_automated_backup (tags : list Tag) : bool :=
  existsb (fun tag => String.eqb (Key tag) "AutomatedBackup"
                      && String.eqb (Value tag) "true") tags.

(** [s[n:]] *)
Fixpoint str_drop (n : nat) (s : string) : string :=
  match n, s with
  | O, _ => s
  | S n', String _ s' => str_drop n' s'
  | S _, EmptyString => EmptyString
  end.

(** [s.split(c)] *)
Fixpoint str_split (c : ascii) (s : string) : list string :=
  match s with
  | EmptyString => [EmptyString]
  | String a s' =>
      if Ascii.eqb a c then EmptyString :: str_split c s'
      else match str_split c s' with
           | [] => [String a EmptyString]
           | h :: t => String a h :: t
           end
  end.

(** The part of [s] up to and including the first [c], if [c] occurs. *)
Fixpoint str_upto (c : ascii) (s : string) : option string :=
  match s with
  | EmptyString => None
  | String a s' =>
      if Ascii.eqb a c then Some (String a EmptyString)
      else option_map (String a) (str_upto c s')
  end.

(* ===================================================================== *)
(** * The provider: resources, calls and state                           *)
(* ===================================================================== *)

Record BlockDevice := mkBlockDevice {
  DeviceName : string;
  VolumeId : string                       (* block_device['Ebs']['VolumeId'] *)
}.

Record Instance := mkInstance {
  InstanceId : string;
  InstanceState : string;                 (* instance['State']['Name'] *)
  BlockDeviceMappings : list BlockDevice
}.

(** [reservation['Instances']] *)
Abbreviation Reservation := (list Instance).

Record Snapshot := mkSnapshot {
  SnapshotId : string;
  Description : string;
  StartTime : datetime;
  VolumeSize : Z;
  State : string;
  Progress : string;
  Encrypted : bool;
  Tags : list Tag                         (* absent key = empty list *)
}.

Record DBInstance := mkDBInstance {
  DBInstanceIdentifier : string;
  DBEngine : string
}.

Record DBSnapshot := mkDBSnapshot {
  DBSnapshotIdentifier : string;
  SourceDBInstanceIdentifier : string;    (* snapshot['DBInstanceIdentifier'] *)
  SnapshotCreateTime : datetime;
  Engine : string;
  Status : string;
  PercentProgress : Z;
  DBEncrypted : bool;
  SnapshotType : string;
  TagList : list Tag
}.

Record S3Object := mkS3Object {
  ObjKey : string;
  ObjTags : list Tag
}.

Record Bucket := mkBucket {
  BucketName : string;
  Objects : list S3Object
}.

(** The provider calls the two managers issue, with the arguments that
    matter to the provider. *)
Inductive Call :=
| DescribeInstances (InstanceIds : list string)   (* [] : running instances *)
| CreateSnapshot (volume_id description : string) (tags : list Tag)
| DescribeDBInstances (id : option string)
| CreateDBSnapshot (snapshot_id db_id : string) (tags : list Tag)
| DescribeSnapshots (SnapshotIds : list string)    (* [] : OwnerIds=['self'] *)
| DeleteSnapshot (snapshot_id : string)
| DescribeDBSnapshots (id : option string)         (* None : SnapshotType='manual' *)
| DeleteDBSnapshot (snapshot_id : string)
| HeadBucket (bucket : string)
| CreateBucket (bucket : string) (location : option string)
| PutBucketVersioning (bucket : string)
| PutBucketLifecycleConfiguration (bucket : string)
    (glacier_days deep_archive_days expiration_days : Z)
| ListBuckets
| ListObjectsV2 (bucket prefix : string) (delimiter : option string)
    (page : nat)
| CopyObject (src_bucket src_key dst_bucket dst_key tagging : string)
| Publish (topic message subject : string).

(** What a statement produces: a value, or a raised exception. *)
Inductive outcome (A : Type) :=
| Ret (a : A)
| Raise (e : exn).
Arguments Ret {A} a.
Arguments Raise {A} e.

(** The provider's state as far as the managers can observe it.
    [fault] is an oracle: given the calls issued so far and the call about
    to be issued, it says whether the provider refuses it (throttling,
    permissions, a snapshot in use, ...) and with which message.  [calls]
    logs every call, most recent first.  The clocks do not advance during
    a method. *)
Record World := mkWorld {
  now : datetime;                         (* datetime.now(), naive *)
  provider_now : datetime;                (* creation stamp, aware *)
  environ_BACKUP_BUCKET : option string;  (* os.getenv('BACKUP_BUCKET') *)
  reservations : list Reservation;
  snapshots : list Snapshot;
  db_instances : list DBInstance;
  db_snapshots : list DBSnapshot;
  buckets : list Bucket;
  page_size : nat;                        (* keys per listing page, minus 1 *)
  volume_size : string -> Z;              (* size of a volume, by id *)
  fresh : nat;                            (* next snapshot number *)
  fault : list Call -> Call -> option exn;
  calls : list Call
}.

Definition set_calls (f : list Call -> list Call) (w : World) : World :=
  mkWorld (now w) (provider_now w) (environ_BACKUP_BUCKET w) (reservations w)
    (snapshots w) (db_instances w) (db_snapshots w) (buckets w)
    (page_size w) (volume_size w) (fresh w) (fault w) (f (calls w)).

Definition set_snapshots (f : list Snapshot -> list Snapshot) (w : World)
  : World :=
  mkWorld (now w) (provider_now w) (environ_BACKUP_BUCKET w) (reservations w)
    (f (snapshots w)) (db_instances w) (db_snapshots w) (buckets w)
    (page_size w) (volume_size w) (fresh w) (fault w) (calls w).

Definition set_db_snapshots (f : list DBSnapshot -> list DBSnapshot)
  (w : World) : World :=
  mkWorld (now w) (provider_now w) (environ_BACKUP_BUCKET w) (reservations w)
    (snapshots w) (db_instances w) (f (db_snapshots w)) (buckets w)
    (page_size w) (volume_size w) (fresh w) (fault w) (calls w).

Definition set_buckets (f : list Bucket -> list Bucket) (w : World) : World :=
  mkWorld (now w) (provider_now w) (environ_BACKUP_BUCKET w) (reservations w)
    (snapshots w) (db_instances w) (db_snapshots w) (f (buckets w))
    (page_size w) (volume_size w) (fresh w) (fault w) (calls w).

Definition bump_fresh (w : World) : World :=
  mkWorld (now w) (provider_now w) (environ_BACKUP_BUCKET w) (reservations w)
    (snapshots w) (db_instances w) (db_snapshots w) (buckets w)
    (page_size w) (volume_size w) (S (fresh w)) (fault w) (calls w).

(** Issue call [c]: log it, ask the oracle, and otherwise let the provider
    answer with [sem]. *)
Definition provider {A : Type} (c : Call)
  (sem : World -> World * outcome A) (w : World) : World * outcome A :=
  let w1 := set_calls (cons c) w in
  match fault w (calls w) c with
  | Some e => (w1, Raise e)
  | None => sem w1
  end.

(** ** Compute service *)

Definition has_id (i : string) (inst : Instance) : bool :=
  String.eqb (InstanceId inst) i.

Definition nonempty {A : Type} (l : list A) : bool :=
  match l with [] => false | _ => true end.

(** [describe_instances(InstanceIds=ids)] refuses the whole request when one
    id is unknown; [describe_instances(Filters=[running])] never does. *)
Definition ec2_describe_instances (ids : list string)
  : World -> World * outcome (list Reservation) :=
  provider (DescribeInstances ids) (fun w =>
    match ids with
    | [] =>
        (w, Ret (List.filter nonempty
                   (map (List.filter
                           (fun inst => String.eqb (InstanceState inst) "running"))
                        (reservations w))))
    | _ =>
        if forallb (fun i => existsb (has_id i) (concat (reservations w))) ids
        then (w, Ret (List.filter nonempty
                        (map (List.filter
                                (fun inst => existsb (String.eqb (InstanceId inst)) ids))
                             (reservations w))))
        else (w, Raise "InvalidInstanceID.NotFound")
    end).

Definition ec2_create_snapshot (volume_id description : string)
  (tags : list Tag) : World -> World * outcome string :=
  provider (CreateSnapshot volume_id description tags) (fun w =>
    let sid := "snap-" +:+ pretty (fresh w) in
    let snap := mkSnapshot sid description (provider_now w)
                  (volume_size w volume_id) "pending" "" false tags in
    (bump_fresh (set_snapshots (fun l => l ++ [snap]) w), Ret sid)).

Definition snapshot_has_id (i : string) (snap : Snapshot) : bool :=
  String.eqb (SnapshotId snap) i.

Definition ec2_describe_snapshots (ids : list string)
  : World -> World * outcome (list Snapshot) :=
  provider (DescribeSnapshots ids) (fun w =>
    match ids with
    | [] => (w, Ret (snapshots w))
    | _ =>
        if forallb (fun i => existsb (snapshot_has_id i) (snapshots w)) ids
        then (w, Ret (List.filter
                        (fun snap => existsb (String.eqb (SnapshotId snap)) ids)
                        (snapshots w)))
        else (w, Raise "InvalidSnapshot.NotFound")
    end).

Definition ec2_delete_snapshot (sid : string)
  : World -> World * outcome unit :=
  provider (DeleteSnapshot sid) (fun w =>
    if existsb (snapshot_has_id sid) (snapshots w)
    then (set_snapshots
            (List.filter (fun snap => negb (snapshot_has_id sid snap))) w,
          Ret tt)
    else (w, Raise "InvalidSnapshot.NotFound")).

(** ** Database service *)

Definition db_has_id (i : string) (db : DBInstance) : bool :=
  String.eqb (DBInstanceIdentifier db) i.

Definition db_snapshot_has_id (i : string) (snap : DBSnapshot) : bool :=
  String.eqb (DBSnapshotIdentifier snap) i.

Definition rds_describe_db_instances (id : option string)
  : World -> World * outcome (list DBInstance) :=
  provider (DescribeDBInstances id) (fun w =>
    match id with
    | None => (w, Ret (db_instances w))
    | Some i =>
        match List.filter (db_has_id i) (db_instances w) with
        | [] => (w, Raise "DBInstanceNotFound")
        | l => (w, Ret l)
        end
    end).

Definition rds_create_db_snapshot (sid db_id : string) (tags : list Tag)
  : World -> World * outcome unit :=
  provider (CreateDBSnapshot sid db_id tags) (fun w =>
    if existsb (db_snapshot_has_id sid) (db_snapshots w)
    then (w, Raise "DBSnapshotAlreadyExists")
    else match List.find (db_has_id db_id) (db_instances w) with
         | None => (w, Raise "DBInstanceNotFound")
         | Some db =>
             let snap := mkDBSnapshot sid db_id (provider_now w) (DBEngine db)
                           "creating" 0 false "manual" tags in
             (set_db_snapshots (fun l => l ++ [snap]) w, Ret tt)
         end).

Definition rds_describe_db_snapshots (id : option string)
  : World -> World * outcome (list DBSnapshot) :=
  provider (DescribeDBSnapshots id) (fun w =>
    match id with
    | None =>
        (w, Ret (List.filter
                   (fun snap => String.eqb (SnapshotType snap) "manual")
                   (db_snapshots w)))
    | Some i =>
        match List.filter (db_snapshot_has_id i) (db_snapshots w) with
        | [] => (w, Raise "DBSnapshotNotFound")
        | l => (w, Ret l)
        end
    end).

Definition rds_delete_db_snapshot (sid : string)
  : World -> World * outcome unit :=
  provider (DeleteDBSnapshot sid) (fun w =>
    if existsb (db_snapshot_has_id sid) (db_snapshots w)
    then (set_db_snapshots
            (List.filter (fun snap => negb (db_snapshot_has_id sid snap))) w,
          Ret tt)
    else (w, Raise "DBSnapshotNotFound")).

(** ** Object storage and notifications *)

Definition bucket_has_name (b : string) (bk : Bucket) : bool :=
  String.eqb (BucketName bk) b.

Definition bucket_exists (b : string) (w : World) : bool :=
  existsb (bucket_has_name b) (buckets w).

Definition bucket_objects (b : string) (w : World) : list S3Object :=
  match List.find (bucket_has_name b) (buckets w) with
  | Some bk => Objects bk
  | None => []
  end.

(** The [Tagging] argument of [copy_object] is a query string
    [k1=v1&k2=v2]; the provider stores it as a tag set. *)
Definition parse_tagging (tagging : string) : list Tag :=
  map (fun kv =>
         match str_split "="%char kv with
         | k :: v :: _ => mkTag k v
         | k :: [] => mkTag k ""
         | [] => mkTag "" ""
         end)
      (str_split "&"%char tagging).

Definition s3_head_bucket (b : string) : World -> World * outcome unit :=
  provider (HeadBucket b) (fun w =>
    if bucket_exists b w then (w, Ret tt) else (w, Raise "404")).

Definition s3_create_bucket (b : string) (location : option string)
  : World -> World * outcome unit :=
  provider (CreateBucket b location) (fun w =>
    if bucket_exists b w then (w, Ret tt)
    else (set_buckets (fun l => l ++ [mkBucket b []]) w, Ret tt)).

Definition s3_put_bucket_versioning (b : string)
  : World -> World * outcome unit :=
  provider (PutBucketVersioning b) (fun w =>
    if bucket_exists b w then (w, Ret tt) else (w, Raise "NoSuchBucket")).

Definition s3_put_bucket_lifecycle_configuration (b : string)
  (glacier_days deep_archive_days expiration_days : Z)
  : World -> World * outcome unit :=
  provider (PutBucketLifecycleConfiguration b glacier_days deep_archive_days
              expiration_days) (fun w =>
    if bucket_exists b w then (w, Ret tt) else (w, Raise "NoSuchBucket")).

Definition s3_list_buckets : World -> World * outcome (list string) :=
  provider ListBuckets (fun w => (w, Ret (map BucketName (buckets w)))).

(** Cut a listing into pages of [S k] keys; an empty listing is one page
    without contents. *)
Fixpoint chunk {A : Type} (k : nat) (l : list A) (acc : list A) (room : nat)
  : list (list A) :=
  match l with
  | [] => [rev acc]
  | x :: l' =>
      match room with
      | O => rev acc :: chunk k l' [x] k
      | S r => chunk k l' (x :: acc) r
      end
  end.

(** [paginator.paginate(Bucket=b, Prefix=p)]: the pages the iteration will
    go through, fixed when the iteration starts.  Nothing is requested
    yet. *)
Definition paginate (b p : string) (w : World) : list (list string) :=
  chunk (page_size w)
    (List.filter (String.prefix p) (map ObjKey (bucket_objects b w)))
    [] (S (page_size w)).

(** The request behind page number [i] of the iteration; [page] is what it
    answers when the provider accepts it. *)
Definition s3_fetch_page (b p : string) (i : nat) (page : list string)
  : World -> World * outcome (list string) :=
  provider (ListObjectsV2 b p None i) (fun w =>
    if bucket_exists b w then (w, Ret page) else (w, Raise "NoSuchBucket")).

Definition put_object (o : S3Object) (l : list S3Object) : list S3Object :=
  if existsb (fun o' => String.eqb (ObjKey o') (ObjKey o)) l
  then map (fun o' => if String.eqb (ObjKey o') (ObjKey o) then o else o') l
  else l ++ [o].

Definition s3_copy_object (src_b src_k dst_b dst_k tagging : string)
  : World -> World * outcome unit :=
  provider (CopyObject src_b src_k dst_b dst_k tagging) (fun w =>
    if negb (bucket_exists src_b w && bucket_exists dst_b w)
    then (w, Raise "NoSuchBucket")
    else if negb (existsb (fun o => String.eqb (ObjKey o) src_k)
                    (bucket_objects src_b w))
    then (w, Raise "NoSuchKey")
    else
      let o := mkS3Object dst_k (parse_tagging tagging) in
      (set_buckets
         (map (fun bk => if bucket_has_name dst_b bk
                         then mkBucket dst_b (put_object o (Objects bk))
                         else bk)) w,
       Ret tt)).

Fixpoint dedup_strings (l : list string) (seen : list string) : list string :=
  match l with
  | [] => []
  | x :: l' =>
      if existsb (String.eqb x) seen then dedup_strings l' seen
      else x :: dedup_strings l' (x :: seen)
  end.

(** [list_objects_v2(Bucket=b, Prefix=p, Delimiter='/')['CommonPrefixes']] *)
Definition s3_list_common_prefixes (b p : string)
  : World -> World * outcome (list string) :=
  provider (ListObjectsV2 b p (Some "/") 0) (fun w =>
    if bucket_exists b w
    then (w, Ret (dedup_strings
                    (omap (fun k =>
                             if String.prefix p k
                             then option_map (String.append p)
                                    (str_upto "/"%char
                                       (str_drop (String.length p) k))
                             else None)
                          (map ObjKey (bucket_objects b w)))
                    []))
    else (w, Raise "NoSuchBucket")).

Definition sns_publish (topic message subject : string)
  : World -> World * outcome unit :=
  provider (Publish topic message subject) (fun w => (w, Ret tt)).

(* ===================================================================== *)
(** * Statements: state, local variables and exceptions                  *)
(* ===================================================================== *)

(** A statement of a method whose local variables have type [L]: it runs
    on the provider state and the locals, changes both, and either
    produces a value or raises.  A raised exception keeps the changes made
    so far: nothing is rolled back. *)
Definition M (L A : Type) : Type := World -> L -> World * L * outcome A.

Definition ret {L A : Type} (a : A) : M L A := fun w l => (w, l, Ret a).

Definition bind {L A B : Type} (m : M L A) (k : A -> M L B) : M L B :=
  fun w l =>
    match m w l with
    | (w', l', Ret a) => k a w' l'
    | (w', l', Raise e) => (w', l', Raise e)
    end.

#[global] Instance M_ret (L : Type) : MRet (M L) := @ret L.
#[global] Instance M_bind (L : Type) : MBind (M L) :=
  fun A B k m => bind m k.

(** [raise e] *)
Definition raise {L A : Type} (e : exn) : M L A := fun w l => (w, l, Raise e).

(** [try: m  except Exception as e: h e] *)
Definition try_except {L A : Type} (m : M L A) (h : exn -> M L A) : M L A :=
  fun w l =>
    match m w l with
    | (w', l', Raise e) => h e w' l'
    | r => r
    end.

(** A provider call. *)
Definition call {L A : Type} (op : World -> World * outcome A) : M L A :=
  fun w l => let '(w', r) := op w in (w', l, r).

(** Reading the clock or the environment. *)
Definition ask {L A : Type} (f : World -> A) : M L A :=
  fun w l => (w, l, Ret (f w)).

(** Reading and updating the local variables. *)
Definition locals {L : Type} : M L L := fun w l => (w, l, Ret l).
Definition update {L : Type} (f : L -> L) : M L unit :=
  fun w l => (w, f l, Ret tt).

(** [for x in xs: body x] *)
Fixpoint for_each {L X : Type} (xs : list X) (body : X -> M L unit)
  : M L unit :=
  match xs with
  | [] => ret tt
  | x :: xs' => bind (body x) (fun _ => for_each xs' body)
  end.

(** Calling a method: it runs with its own locals, initialised to [init];
    the caller's locals are untouched. *)
Definition method {L L' A : Type} (init : L') (body : M L' A) : M L A :=
  fun w l =>
    let '(w', _, r) := body w init in (w', l, r).

(** A method called from outside: no caller locals. *)
Definition run {L A : Type} (init : L) (body : M L A) (w : World)
  : World * outcome A :=
  let '(w', _, r) := body w init in (w', r).

(** [enumerate(xs)] *)
Definition enumerate {A : Type} (xs : list A) : list (nat * A) :=
  combine (seq 0 (length xs)) xs.

(* ===================================================================== *)
(** * [backup_manager.py]: class [BackupManager]                         *)
(* ===================================================================== *)

(** The configuration fixed by [__init__]. *)
Record BackupManager := mkBackupManager {
  region : string;
  backup_bucket : string;
  sns_topic_arn : option string;
  retention_days : Z
}.

(** [results = {'success': [], 'failed': []}] *)
Record BackupResults := mkResults {
  success : list pydict;
  failed : list pydict
}.

Definition empty_results : BackupResults := mkResults [] [].

(** [results['success'].append(d)] and [results['failed'].append(d)] *)
Definition append_success (d : pydict) (r : BackupResults) : BackupResults :=
  mkResults (success r ++ [d]) (failed r).
Definition append_failed (d : pydict) (r : BackupResults) : BackupResults :=
  mkResults (success r) (failed r ++ [d]).

(** [_send_notification]: skipped without a topic; a failed publish is
    logged and swallowed. *)
Definition _send_notification {L : Type} (self : BackupManager)
  (message : string) : M L unit :=
  match sns_topic_arn self with
  | Some topic =>
      if String.eqb topic "" then ret tt
      else try_except
             (call (sns_publish topic message
                      "AWS Backup Pipeline Notification"))
             (fun _ => ret tt)
  | None => ret tt
  end.

Definition ec2_backup_tags (instance_id volume_id : string) (t : datetime)
  : list Tag :=
  [ mkTag "Name" ("backup-" +:+ instance_id +:+ "-" +:+ volume_id);
    mkTag "InstanceId" instance_id;
    mkTag "BackupDate" (isoformat t);
    mkTag "AutomatedBackup" "true" ].

(** [{'instance_id': ..., 'volume_id': ..., 'snapshot_id': ...}] *)
Definition ec2_success_entry (instance_id volume_id snapshot_id : string)
  : pydict :=
  <["instance_id" := VStr instance_id]>
    (<["volume_id" := VStr volume_id]> {["snapshot_id" := VStr snapshot_id]}).

(** [{'instance_id': ..., 'error': str(e)}] *)
Definition ec2_failure_entry (instance_id : string) (e : exn) : pydict :=
  <["instance_id" := VStr instance_id]> {["error" := VStr e]}.

(** [{'error': str(e)}]: the failure of a whole batch. *)
Definition batch_failure (e : exn) : pydict := {["error" := VStr e]}.

(** The body of the [for block_device in ...] loop. *)
Definition backup_ec2_volume (instance_id : string) (block_device : BlockDevice)
  : M BackupResults unit :=
  let volume_id := VolumeId block_device in
  t ← ask now;
  snapshot_id ← call (ec2_create_snapshot volume_id
                        ("Automated backup of " +:+ instance_id +:+ " - "
                         +:+ isoformat t)
                        (ec2_backup_tags instance_id volume_id t));
  update (append_success (ec2_success_entry instance_id volume_id snapshot_id)).

(** The body of the [for instance in reservation['Instances']] loop. *)
Definition backup_ec2_instance (instance : Instance) : M BackupResults unit :=
  let instance_id := InstanceId instance in
  try_except
    (for_each (BlockDeviceMappings instance) (backup_ec2_volume instance_id))
    (fun e => update (append_failed (ec2_failure_entry instance_id e))).

Definition backup_ec2_instances (self : BackupManager)
  (instance_ids : list string) : World -> World * outcome BackupResults :=
  run empty_results
    (try_except
       (instances ← call (ec2_describe_instances instance_ids);
        for_each instances (fun reservation =>
          for_each reservation backup_ec2_instance);;
        results ← locals;
        _send_notification self
          ("EC2 Backup Complete: " +:+ pretty (length (success results))
           +:+ " successful, " +:+ pretty (length (failed results))
           +:+ " failed"))
       (fun e => update (append_failed (batch_failure e)));;
     locals).

(** Local variables of [backup_rds_databases]. *)
Record RdsLocals := mkRdsLocals {
  rds_results : BackupResults;
  databases : list DBInstance
}.

Definition on_rds_results (f : BackupResults -> BackupResults)
  (l : RdsLocals) : RdsLocals :=
  mkRdsLocals (f (rds_results l)) (databases l).

Definition rds_backup_tags (db_identifier : string) (t : datetime)
  : list Tag :=
  [ mkTag "BackupDate" (isoformat t);
    mkTag "AutomatedBackup" "true";
    mkTag "SourceDB" db_identifier ].

(** [{'db_identifier': ..., 'snapshot_id': ...}] *)
Definition rds_success_entry (db_identifier snapshot_id : string) : pydict :=
  <["db_identifier" := VStr db_identifier]>
    {["snapshot_id" := VStr snapshot_id]}.

(** [{'db_identifier': ..., 'error': str(e)}] *)
Definition rds_failure_entry (db_identifier : string) (e : exn) : pydict :=
  <["db_identifier" := VStr db_identifier]> {["error" := VStr e]}.

(** The body of the [for db_id in db_identifiers] loop. *)
Definition resolve_db (db_id : string) : M RdsLocals unit :=
  try_except
    (db ← call (rds_describe_db_instances (Some db_id));
     update (fun l => mkRdsLocals (rds_results l) (databases l ++ db)))
    (fun e =>
       update (on_rds_results (append_failed (rds_failure_entry db_id e)))).

(** The body of the [for db in databases] loop. *)
Definition backup_rds_database (db : DBInstance) : M RdsLocals unit :=
  let db_identifier := DBInstanceIdentifier db in
  try_except
    (t ← ask now;
     let snapshot_id := db_identifier +:+ "-backup-" +:+ strftime_compact t in
     call (rds_create_db_snapshot snapshot_id db_identifier
             (rds_backup_tags db_identifier t));;
     update (on_rds_results
               (append_success (rds_success_entry db_identifier snapshot_id))))
    (fun e =>
       update (on_rds_results
                 (append_failed (rds_failure_entry db_identifier e)))).

Definition backup_rds_databases (self : BackupManager)
  (db_identifiers : list string) : World -> World * outcome BackupResults :=
  run (mkRdsLocals empty_results [])
    (try_except
       ((if nonempty db_identifiers
         then for_each db_identifiers resolve_db
         else response ← call (rds_describe_db_instances None);
              update (fun l => mkRdsLocals (rds_results l) response));;
        l ← locals;
        for_each (databases l) backup_rds_database;;
        l ← locals;
        _send_notification self
          ("RDS Backup Complete: "
           +:+ pretty (length (success (rds_results l)))
           +:+ " successful, "
           +:+ pretty (length (failed (rds_results l))) +:+ " failed"))
       (fun e => update (on_rds_results (append_failed (batch_failure e))));;
     l ← locals;
     ret (rds_results l)).

(** [_ensure_backup_bucket]: the bare [except:] runs the creation steps
    whenever [head_bucket] raises; what they raise is not caught here. *)
Definition _ensure_backup_bucket {L : Type} (self : BackupManager)
  : M L unit :=
  try_except
    (call (s3_head_bucket (backup_bucket self)))
    (fun _ =>
       (if String.eqb (region self) "us-east-1"
        then call (s3_create_bucket (backup_bucket self) None)
        else call (s3_create_bucket (backup_bucket self)
                     (Some (region self))));;
       call (s3_put_bucket_versioning (backup_bucket self));;
       call (s3_put_bucket_lifecycle_configuration (backup_bucket self)
               7 30 (retention_days self))).

(** Local variables of [backup_s3_buckets]. *)
Record S3Locals := mkS3Locals {
  s3_results : BackupResults;
  object_count : Z
}.

Definition on_s3_results (f : BackupResults -> BackupResults)
  (l : S3Locals) : S3Locals :=
  mkS3Locals (f (s3_results l)) (object_count l).

(** The body of the [for obj in page.get('Contents', [])] loop. *)
Definition backup_s3_object (self : BackupManager)
  (bucket_name backup_prefix key : string) : M S3Locals unit :=
  let copy_key := backup_prefix +:+ key in
  t ← ask now;
  call (s3_copy_object bucket_name key (backup_bucket self) copy_key
          ("BackupDate=" +:+ isoformat t +:+ "&SourceBucket="
           +:+ bucket_name));;
  update (fun l => mkS3Locals (s3_results l) (object_count l + 1)).

(** The body of the [for page in pages] loop: the page is requested, then
    its objects are copied. *)
Definition backup_s3_page (self : BackupManager)
  (bucket_name backup_prefix : string) (numbered : nat * list string)
  : M S3Locals unit :=
  contents ← call (s3_fetch_page bucket_name "" (fst numbered) (snd numbered));
  for_each contents (backup_s3_object self bucket_name backup_prefix).

(** [{'bucket_name': ..., 'objects_backed_up': ..., 'backup_location': ...}] *)
Definition s3_success_entry (bucket_name : string) (object_count : Z)
  (backup_location : string) : pydict :=
  <["bucket_name" := VStr bucket_name]>
    (<["objects_backed_up" := VInt object_count]>
       {["backup_location" := VStr backup_location]}).

(** [{'bucket_name': ..., 'error': str(e)}] *)
Definition s3_failure_entry (bucket_name : string) (e : exn) : pydict :=
  <["bucket_name" := VStr bucket_name]> {["error" := VStr e]}.

(** The body of the [for bucket in buckets] loop. *)
Definition backup_s3_bucket (self : BackupManager) (bucket_name : string)
  : M S3Locals unit :=
  try_except
    (t ← ask now;
     let backup_prefix :=
       "s3-backups/" +:+ bucket_name +:+ "/" +:+ strftime_path t +:+ "/" in
     pages ← ask (paginate bucket_name "");
     update (fun l => mkS3Locals (s3_results l) 0);;
     for_each (enumerate pages)
       (backup_s3_page self bucket_name backup_prefix);;
     l ← locals;
     update (on_s3_results
               (append_success
                  (s3_success_entry bucket_name (object_count l)
                     ("s3://" +:+ backup_bucket self +:+ "/"
                      +:+ backup_prefix)))))
    (fun e =>
       update (on_s3_results (append_failed (s3_failure_entry bucket_name e)))).

(** The statements before the loop: make sure the backup bucket exists,
    then settle which buckets to back up. *)
Definition s3_targets (self : BackupManager) (bucket_names : list string)
  : M S3Locals (list string) :=
  _ensure_backup_bucket self;;
  if nonempty bucket_names
  then ret bucket_names
  else response ← call s3_list_buckets;
       ret (List.filter (fun b => negb (String.eqb b (backup_bucket self)))
              response).

Definition backup_s3_buckets (self : BackupManager)
  (bucket_names : list string) : World -> World * outcome BackupResults :=
  run (mkS3Locals empty_results 0)
    (try_except
       (buckets ← s3_targets self bucket_names;
        for_each buckets (backup_s3_bucket self);;
        l ← locals;
        _send_notification self
          ("S3 Backup Complete: "
           +:+ pretty (length (success (s3_results l)))
           +:+ " buckets successful, "
           +:+ pretty (length (failed (s3_results l))) +:+ " failed"))
       (fun e => update (on_s3_results (append_failed (batch_failure e))));;
     l ← locals;
     ret (s3_results l)).

(** [results = {'ec2_snapshots_deleted': 0, 'rds_snapshots_deleted': 0,
                's3_objects_deleted': 0}] *)
Definition cleanup_initial : gmap string Z :=
  <["ec2_snapshots_deleted" := 0]>
    (<["rds_snapshots_deleted" := 0]> {["s3_objects_deleted" := 0]}).

(** [results[k] += 1] *)
Definition increment (k : string) (results : gmap string Z) : gmap string Z :=
  alter (fun n => n + 1) k results.

(** The condition guarding the deletion of a snapshot. *)
Definition ec2_expired (cutoff_date : datetime) (snapshot : Snapshot) : bool :=
  dt_ltb (replace_tzinfo_None (StartTime snapshot)) cutoff_date
  && is_automated_backup (Tags snapshot).

Definition rds_expired (cutoff_date : datetime) (snapshot : DBSnapshot)
  : bool :=
  dt_ltb (replace_tzinfo_None (SnapshotCreateTime snapshot)) cutoff_date
  && is_automated_backup (TagList snapshot).

(** The bodies of the two loops of [cleanup_old_backups]. *)
Definition cleanup_ec2_snapshot (cutoff_date : datetime) (snapshot : Snapshot)
  : M (gmap string Z) unit :=
  if ec2_expired cutoff_date snapshot
  then call (ec2_delete_snapshot (SnapshotId snapshot));;
       update (increment "ec2_snapshots_deleted")
  else ret tt.

Definition cleanup_rds_snapshot (cutoff_date : datetime)
  (snapshot : DBSnapshot) : M (gmap string Z) unit :=
  if rds_expired cutoff_date snapshot
  then call (rds_delete_db_snapshot (DBSnapshotIdentifier snapshot));;
       update (increment "rds_snapshots_deleted")
  else ret tt.

(** The two loops, one per snapshot category. *)
Definition cleanup_ec2_snapshots (cutoff_date : datetime)
  : M (gmap string Z) unit :=
  snapshots ← call (ec2_describe_snapshots []);
  for_each snapshots (cleanup_ec2_snapshot cutoff_date).

Definition cleanup_rds_snapshots (cutoff_date : datetime)
  : M (gmap string Z) unit :=
  rds_snapshots ← call (rds_describe_db_snapshots None);
  for_each rds_snapshots (cleanup_rds_snapshot cutoff_date).

(** [datetime.now() - timedelta(days=self.retention_days)] *)
Definition cutoff (self : BackupManager) (w : World) : option datetime :=
  sub_days (now w) (retention_days self).

(** [cleanup_old_backups].  The cutoff is computed before the [try]: an
    overflow of the date arithmetic is the one exception that leaves the
    method. *)
Definition cleanup_old_backups (self : BackupManager)
  : World -> World * outcome (gmap string Z) :=
  run cleanup_initial
    (c ← ask (cutoff self);
     cutoff_date ← match c with
                   | Some d => ret d
                   | None => raise "OverflowError"
                   end;
     try_except
       (cleanup_ec2_snapshots cutoff_date;;
        cleanup_rds_snapshots cutoff_date)
       (fun _ => ret tt);;
     locals).

(** The dictionary [run_full_backup] returns. *)
Record FullBackupResults := mkFullBackupResults {
  timestamp : string;
  ec2_results : BackupResults;
  rds_results_ : BackupResults;
  s3_results_ : BackupResults;
  cleanup_results : gmap string Z;
  summary : pydict
}.

(** [results['summary']], from the three category outcomes. *)
Definition total_success (ec2 rds s3 : BackupResults) : nat :=
  (length (success ec2) + length (success rds) + length (success s3))%nat.

Definition total_failed (ec2 rds s3 : BackupResults) : nat :=
  (length (failed ec2) + length (failed rds) + length (failed s3))%nat.

Definition backup_status (total_failed : nat) : string :=
  if Nat.eqb total_failed 0 then "SUCCESS" else "PARTIAL_FAILURE".

Definition summary_of (ec2 rds s3 : BackupResults) : pydict :=
  <["total_successful_backups" := VInt (Z.of_nat (total_success ec2 rds s3))]>
    (<["total_failed_backups" := VInt (Z.of_nat (total_failed ec2 rds s3))]>
       {["backup_status" := VStr (backup_status (total_failed ec2 rds s3))]}).

Definition run_full_backup (self : BackupManager)
  : World -> World * outcome FullBackupResults :=
  run tt
    (t ← ask now;
     ec2 ← call (backup_ec2_instances self []);
     rds ← call (backup_rds_databases self []);
     s3 ← call (backup_s3_buckets self []);
     cleanup ← call (cleanup_old_backups self);
     let summary := summary_of ec2 rds s3 in
     _send_notification self
       ("Full Backup Pipeline Complete" +:+ String "010" "Successful: "
        +:+ pretty (total_success ec2 rds s3) +:+ String "010" "Failed: "
        +:+ pretty (total_failed ec2 rds s3) +:+ String "010" "Status: "
        +:+ str_field "backup_status" summary);;
     ret (mkFullBackupResults (isoformat t) ec2 rds s3 cleanup summary)).

(* ===================================================================== *)
(** * [restore_manager.py]: class [RestoreManager]                       *)
(* ===================================================================== *)

(** Local variables of [restore_s3_objects]. *)
Record RestoreLocals := mkRestoreLocals {
  restored_objects : Z;
  failed_objects : Z
}.

(** The body of the [for obj in page.get('Contents', [])] loop: a failed
    copy is counted, never propagated. *)
Definition restore_s3_object (backup_bucket backup_prefix target_bucket
  target_prefix key : string) : M RestoreLocals unit :=
  try_except
    (let relative_key := str_drop (String.length backup_prefix) key in
     let target_key :=
       if String.eqb target_prefix "" then relative_key
       else target_prefix +:+ relative_key in
     t ← ask now;
     call (s3_copy_object backup_bucket key target_bucket target_key
             ("RestoredFrom=" +:+ backup_bucket +:+ "&RestoreDate="
              +:+ isoformat t));;
     update (fun l => mkRestoreLocals (restored_objects l + 1)
                        (failed_objects l)))
    (fun _ =>
       update (fun l => mkRestoreLocals (restored_objects l)
                          (failed_objects l + 1))).

(** The body of the [for page in pages] loop. *)
Definition restore_s3_page (backup_bucket backup_prefix target_bucket
  target_prefix : string) (numbered : nat * list string)
  : M RestoreLocals unit :=
  contents ← call (s3_fetch_page backup_bucket backup_prefix (fst numbered)
                     (snd numbered));
  for_each contents
    (restore_s3_object backup_bucket backup_prefix target_bucket
       target_prefix).

(** [{'success': True, 'restored_objects': ..., ...}] *)
Definition restore_report (l : RestoreLocals) (target_bucket : string)
  (t : datetime) : pydict :=
  <["success" := VBool true]>
    (<["restored_objects" := VInt (restored_objects l)]>
       (<["failed_objects" := VInt (failed_objects l)]>
          (<["target_bucket" := VStr target_bucket]>
             {["restore_timestamp" := VStr (isoformat t)]}))).

(** [{'success': False, 'error': str(e)}] *)
Definition restore_failure (e : exn) : pydict :=
  <["success" := VBool false]> {["error" := VStr e]}.

Definition restore_s3_objects (backup_bucket backup_prefix target_bucket
  target_prefix : string) : World -> World * outcome pydict :=
  run (mkRestoreLocals 0 0)
    (try_except
       (pages ← ask (paginate backup_bucket backup_prefix);
        for_each (enumerate pages)
          (restore_s3_page backup_bucket backup_prefix target_bucket
             target_prefix);;
        l ← locals;
        t ← ask now;
        ret (restore_report l target_bucket t))
       (fun e => ret (restore_failure e))).

(** [sorted(xs, key=key, reverse=True)] for string keys.  Python's sort is
    stable, also when reversed: elements with equal keys keep their order.
    That fixes the result, computed here by insertion. *)
Fixpoint insert_desc {A : Type} (key : A -> string) (x : A) (l : list A)
  : list A :=
  match l with
  | [] => [x]
  | y :: l' =>
      if String.ltb (key x) (key y) then y :: insert_desc key x l'
      else x :: y :: l'
  end.

Definition sorted_reverse {A : Type} (key : A -> string) (xs : list A)
  : list A :=
  foldr (insert_desc key) [] xs.

Definition ec2_backup_entry (snapshot : Snapshot) : pydict :=
  <["snapshot_id" := VStr (SnapshotId snapshot)]>
    (<["description" := VStr (Description snapshot)]>
       (<["start_time" := VStr (isoformat (StartTime snapshot))]>
          (<["volume_size" := VInt (VolumeSize snapshot)]>
             {["state" := VStr (State snapshot)]}))).

Definition rds_backup_entry (snapshot : DBSnapshot) : pydict :=
  <["snapshot_id" := VStr (DBSnapshotIdentifier snapshot)]>
    (<["db_instance_id" := VStr (SourceDBInstanceIdentifier snapshot)]>
       (<["snapshot_create_time" :=
            VStr (isoformat (SnapshotCreateTime snapshot))]>
          (<["engine" := VStr (Engine snapshot)]>
             {["status" := VStr (Status snapshot)]}))).

Definition s3_backup_entry (backup_bucket prefix : string) : pydict :=
  <["backup_prefix" := VStr prefix]> {["bucket" := VStr backup_bucket]}.

(** [resource_type in [t, 'all']] *)
Definition wants (resource_type t : string) : bool :=
  String.eqb resource_type t || String.eqb resource_type "all".

(** What [list_available_backups] returns: [{'success': True, 'backups':
    ..., 'timestamp': ...}] or [{'success': False, 'error': ...}]. *)
Inductive ListResult :=
| ListSuccess (backups : gmap string (list pydict)) (timestamp : string)
| ListFailure (error : string).

Definition list_available_backups (resource_type : string)
  : World -> World * outcome ListResult :=
  run (∅ : gmap string (list pydict))
    (try_except
       ((if wants resource_type "ec2"
         then snapshots ← call (ec2_describe_snapshots []);
              let ec2_backups :=
                map ec2_backup_entry
                  (List.filter (fun snapshot =>
                                  is_automated_backup (Tags snapshot))
                     snapshots) in
              update (<["ec2" :=
                         sorted_reverse (str_field "start_time") ec2_backups]>)
         else ret tt);;
        (if wants resource_type "rds"
         then rds_snapshots ← call (rds_describe_db_snapshots None);
              let rds_backups :=
                map rds_backup_entry
                  (List.filter (fun snapshot =>
                                  is_automated_backup (TagList snapshot))
                     rds_snapshots) in
              update (<["rds" :=
                         sorted_reverse (str_field "snapshot_create_time")
                           rds_backups]>)
         else ret tt);;
        (if wants resource_type "s3"
         then backup_bucket ← ask environ_BACKUP_BUCKET;
              match backup_bucket with
              | Some b =>
                  if String.eqb b "" then ret tt
                  else try_except
                         (prefixes ← call (s3_list_common_prefixes b
                                             "s3-backups/");
                          update (<["s3" := map (s3_backup_entry b) prefixes]>))
                         (fun _ => update (<["s3" := []]>))
              | None => ret tt
              end
         else ret tt);;
        backups ← locals;
        t ← ask now;
        ret (ListSuccess backups (isoformat t)))
       (fun e => ret (ListFailure e))).

(** [validate_backup_integrity].  [snapshots[0]] raises [IndexError] on an
    empty answer. *)
Definition validate_backup_integrity (backup_type backup_id : string)
  : World -> World * outcome pydict :=
  run tt
    (try_except
       (if String.eqb backup_type "ec2" then
          snapshots ← call (ec2_describe_snapshots [backup_id]);
          match snapshots with
          | [] => raise "list index out of range"
          | snapshot :: _ =>
              ret (<["valid" := VBool (String.eqb (State snapshot) "completed")]>
                     (<["state" := VStr (State snapshot)]>
                        (<["progress" := VStr (Progress snapshot)]>
                           ({["encrypted" := VBool (Encrypted snapshot)]}
                              : pydict))))
          end
        else if String.eqb backup_type "rds" then
          snapshots ← call (rds_describe_db_snapshots (Some backup_id));
          match snapshots with
          | [] => raise "list index out of range"
          | snapshot :: _ =>
              ret (<["valid" := VBool (String.eqb (Status snapshot) "available")]>
                     (<["status" := VStr (Status snapshot)]>
                        (<["percent_progress" :=
                             VInt (PercentProgress snapshot)]>
                           ({["encrypted" := VBool (DBEncrypted snapshot)]}
                              : pydict))))
          end
        else
          ret (<["valid" := VBool false]>
                 ({["error" := VStr "Unsupported backup type"]} : pydict)))
       (fun e =>
          ret (<["valid" := VBool false]> ({["error" := VStr e]} : pydict)))).

(* ===================================================================== *)
(** * Vocabulary of the statements                                       *)
(* ===================================================================== *)

(** ** Orders *)

(** [a] may stand before [b] in a list sorted by [key] in descending
    order. *)
Definition desc {A : Type} (key : A -> string) (a b : A) : Prop :=
  String.ltb (key a) (key b) = false.

(** Dates [(year, month, day)] in chronological order. *)
Definition ymd_ltb (a b : Z * Z * Z) : bool :=
  let '(y1, m1, d1) := a in
  let '(y2, m2, d2) := b in
  match lex_compare [y1; m1; d1] [y2; m2; d2] with Lt => true | _ => false end.

(** [p] holds on [lo, lo + 2^bits). *)
Fixpoint holds_on (p : Z -> bool) (lo : Z) (bits : nat) : bool :=
  match bits with
  | O => p lo
  | S k => holds_on p lo k && holds_on p (lo + 2 ^ Z.of_nat k) k
  end.

(** Within the 400-year cycle, the day after day [r] is a later date. *)
Definition day_step (r : Z) : bool :=
  (146096 <=? r) || ymd_ltb (_ord2ymd (r + 1)) (_ord2ymd (r + 2)).

(** The same day [k] years later. *)
Definition shift_year (k : Z) (a : Z * Z * Z) : Z * Z * Z :=
  let '(y, m, d) := a in (y + k, m, d).

(** A list of strings without repetition, decided. *)
Fixpoint distinct (l : list string) : bool :=
  match l with
  | [] => true
  | x :: l' => negb (existsb (String.eqb x) l') && distinct l'
  end.

(** ** The provider *)

(** The provider refuses no call. *)
Definition reliable (w : World) : Prop := forall h c, fault w h c = None.

(** The same provider at a later time of the manager's clock. *)
Definition set_now (t : datetime) (w : World) : World :=
  mkWorld t (provider_now w) (environ_BACKUP_BUCKET w) (reservations w)
    (snapshots w) (db_instances w) (db_snapshots w) (buckets w)
    (page_size w) (volume_size w) (fresh w) (fault w) (calls w).

(** What no provider call changes. *)
Definition frame (w w' : World) : Prop :=
  now w' = now w /\ provider_now w' = provider_now w /\
  environ_BACKUP_BUCKET w' = environ_BACKUP_BUCKET w /\
  reservations w' = reservations w /\ db_instances w' = db_instances w /\
  page_size w' = page_size w /\ volume_size w' = volume_size w /\
  fault w' = fault w.

(** The calls issued between [w] and [w'] all satisfy [P]. *)
Definition issued (P : Call -> Prop) (w w' : World) : Prop :=
  exists new, calls w' = new ++ calls w /\ Forall P new.

(** Between [w] and [w'] no bucket appeared or disappeared, and nothing of
    the frame changed. *)
Definition same_buckets (w w' : World) : Prop :=
  frame w w' /\ forall b, bucket_exists b w' = bucket_exists b w.

(** The provider knows a database, an instance, of that id. *)
Definition known_db (id : string) (w : World) : bool :=
  existsb (db_has_id id) (db_instances w).

Definition known_instance (id : string) (w : World) : bool :=
  existsb (has_id id) (concat (reservations w)).

(** [copy_object] requests. *)
Definition is_copy_call (c : Call) : bool :=
  match c with
  | CopyObject _ _ _ _ _ => true
  | _ => false
  end.

(** ** Statements *)

(** Statement [m] keeps [R]: [R] relates the provider state before and
    after it, whatever it returns or raises. *)
Definition keeps (R : World -> World -> Prop) {L A : Type} (m : M L A)
  : Prop :=
  forall w l, R w (fst (fst (m w l))).

Definition op_keeps (R : World -> World -> Prop) {A : Type}
  (op : World -> World * outcome A) : Prop :=
  forall w, R w (fst (op w)).

(** Statement [m] keeps [R] on the locals. *)
Definition locals_keep {L : Type} (R : L -> L -> Prop) {A : Type}
  (m : M L A) : Prop :=
  forall w l, R l (snd (fst (m w l))).

(** The statement leaves the [results] dictionary alone. *)
Definition same_results (l l' : S3Locals) : Prop :=
  s3_results l' = s3_results l.

(** ** Tagged snapshots *)

(** The snapshot carries [AutomatedBackup=true]. *)
Definition tagged (s : Snapshot) : bool := is_automated_backup (Tags s).
Definition db_tagged (s : DBSnapshot) : bool :=
  is_automated_backup (TagList s).

(** What [describe_db_snapshots(SnapshotType='manual')] lists. *)
Definition manual_snapshots (w : World) : list DBSnapshot :=
  List.filter (fun s => String.eqb (SnapshotType s) "manual") (db_snapshots w).

(** Between [w] and [w'] snapshots were only added, and every added one
    carries [AutomatedBackup=true]. *)
Definition created_tagged (w w' : World) : Prop :=
  (exists new, snapshots w' = snapshots w ++ new
               /\ Forall (fun s => tagged s = true) new) /\
  (exists new, db_snapshots w' = db_snapshots w ++ new
               /\ Forall (fun s => db_tagged s = true) new).

(** The copies [backup_s3_buckets] asks for: into the backup bucket, with
    the tags [BackupDate] and [SourceBucket]. *)
Definition backup_copy (self : BackupManager) (c : Call) : Prop :=
  match c with
  | CopyObject src_bucket _ dst_bucket _ tagging =>
      dst_bucket = backup_bucket self /\
      exists t, tagging = "BackupDate=" +:+ isoformat t +:+ "&SourceBucket="
                          +:+ src_bucket
  | _ => True
  end.

(** ** Cleanup *)

(** The snapshots left when those named by [ids] are deleted. *)
Definition delete_ids (ids : list string) (l : list Snapshot) : list Snapshot :=
  List.filter (fun s => negb (existsb (String.eqb (SnapshotId s)) ids)) l.

Definition delete_db_ids (ids : list string) (l : list DBSnapshot)
  : list DBSnapshot :=
  List.filter (fun s => negb (existsb (String.eqb (DBSnapshotIdentifier s)) ids)) l.

(** The provider state after a loop of deletions: only the snapshot list
    and the call log have changed. *)
Definition after_deletions (w : World) (snaps : list Snapshot)
  (log : list Call) : World :=
  set_snapshots (fun _ => snaps) (set_calls (fun _ => log) w).

Definition after_db_deletions (w : World) (snaps : list DBSnapshot)
  (log : list Call) : World :=
  set_db_snapshots (fun _ => snaps) (set_calls (fun _ => log) w).

(** The ids of the snapshots of [l] that the loops select, in order. *)
Definition expired_ids (c : datetime) (l : list Snapshot) : list string :=
  map SnapshotId (List.filter (ec2_expired c) l).

Definition expired_db_ids (c : datetime) (l : list DBSnapshot) : list string :=
  map DBSnapshotIdentifier (List.filter (rds_expired c) l).

(** [{'ec2_snapshots_deleted': e, 'rds_snapshots_deleted': r,
      's3_objects_deleted': 0}] *)
Definition cleanup_counts (e r : nat) : gmap string Z :=
  <["ec2_snapshots_deleted" := Z.of_nat e]>
    (<["rds_snapshots_deleted" := Z.of_nat r]> {["s3_objects_deleted" := 0]}).

(** The tally of [cleanup_old_backups]: all deletions, whatever the
    category. *)
Definition cleanup_tally (r : gmap string Z) : Z :=
  default 0 (r !! "ec2_snapshots_deleted")
  + default 0 (r !! "rds_snapshots_deleted")
  + default 0 (r !! "s3_objects_deleted").

(** ** Validation and restore *)

(** [{'valid': False, 'error': msg}] *)
Definition invalid (msg : string) : pydict :=
  <["valid" := VBool false]> {["error" := VStr msg]}.

(** The number of objects the listing of the backup prefix holds. *)
Definition listed (backup_bucket backup_prefix : string) (w : World) : Z :=
  Z.of_nat (length (concat (paginate backup_bucket backup_prefix w))).

(** ** Records of a batch *)

(** The record [d] is about resource [id]: [d[key] == id]. *)
Definition about (key id : string) (d : pydict) : bool :=
  match d !! key with
  | Some (VStr s) => String.eqb s id
  | _ => false
  end.

(** How many records of [l] are about resource [id]. *)
Definition count_about (key id : string) (l : list pydict) : nat :=
  length (List.filter (about key id) l).

(** Every record of [l] names a resource of [ids] under [key]. *)
Definition all_about (key : string) (ids : list string) (l : list pydict)
  : Prop :=
  Forall (fun d : pydict => exists id, In id ids /\ d !! key = Some (VStr id)) l.

(** The attached volumes of an instance, of a list of instances. *)
Definition volumes (inst : Instance) : nat :=
  length (BlockDeviceMappings inst).

Definition total_volumes (insts : list Instance) : nat :=
  list_sum (map volumes insts).

(** What backing up one instance adds to the two lists: a success record
    per volume when all snapshots were created; otherwise the records of
    the volumes before the failing one, and one failure record. *)
Definition instance_outcome (inst : Instance) (ss fs : list pydict) : Prop :=
  Forall (fun d => d !! "instance_id" = Some (VStr (InstanceId inst))) ss /\
  ((fs = [] /\ length ss = volumes inst)
   \/ (exists e, fs = [ec2_failure_entry (InstanceId inst) e]
                 /\ (length ss < volumes inst)%nat)).

Inductive ec2_outcomes : list Instance -> list pydict -> list pydict -> Prop :=
| ec2_outcomes_nil : ec2_outcomes [] [] []
| ec2_outcomes_cons inst insts ss fs ss' fs' :
    instance_outcome inst ss fs -> ec2_outcomes insts ss' fs' ->
    ec2_outcomes (inst :: insts) (ss ++ ss') (fs ++ fs').

(** Every resource of [ids], in order, has exactly one record, in [ss] or
    in [fs]. *)
Inductive one_each (key : string)
  : list string -> list pydict -> list pydict -> Prop :=
| one_each_nil : one_each key [] [] []
| one_each_success id ids d ss fs :
    d !! key = Some (VStr id) -> one_each key ids ss fs ->
    one_each key (id :: ids) (d :: ss) fs
| one_each_failure id ids d ss fs :
    d !! key = Some (VStr id) -> one_each key ids ss fs ->
    one_each key (id :: ids) ss (d :: fs).

(** The lookups of [backup_rds_databases], id by id, in a provider that
    knows the databases [D]: a lookup that raises leaves a failure record
    for that id, a lookup that answers adds the databases it found. *)
Inductive resolved (D : list DBInstance)
  : list string -> list pydict -> list DBInstance -> Prop :=
| resolved_nil : resolved D [] [] []
| resolved_failed id e ids fs ds :
    resolved D ids fs ds ->
    resolved D (id :: ids) (rds_failure_entry id e :: fs) ds
| resolved_found id ids fs ds :
    List.filter (db_has_id id) D <> [] ->
    resolved D ids fs ds ->
    resolved D (id :: ids) fs (List.filter (db_has_id id) D ++ ds).

(** ** Footprints *)

(** Nothing of the provider changed but the call log. *)
Definition untouched (w w' : World) : Prop :=
  frame w w' /\ snapshots w' = snapshots w /\
  db_snapshots w' = db_snapshots w /\ buckets w' = buckets w /\
  fresh w' = fresh w.

(** Requests that only read. *)
Definition is_read_call (c : Call) : bool :=
  match c with
  | DescribeInstances _ | DescribeDBInstances _ | DescribeSnapshots _
  | DescribeDBSnapshots _ | HeadBucket _ | ListBuckets
  | ListObjectsV2 _ _ _ _ => true
  | _ => false
  end.

(** Requests to the object store. *)
Definition is_s3_call (c : Call) : bool :=
  match c with
  | HeadBucket _ | CreateBucket _ _ | PutBucketVersioning _
  | PutBucketLifecycleConfiguration _ _ _ _ | ListBuckets
  | ListObjectsV2 _ _ _ _ | CopyObject _ _ _ _ _ => true
  | _ => false
  end.

(** Requests that delete. *)
Definition is_delete_call (c : Call) : bool :=
  match c with
  | DeleteSnapshot _ | DeleteDBSnapshot _ => true
  | _ => false
  end.

(** The requests [cleanup_old_backups] is made of. *)
Definition is_cleanup_call (c : Call) : bool :=
  match c with
  | DescribeSnapshots [] | DescribeDBSnapshots None | DeleteSnapshot _
  | DeleteDBSnapshot _ => true
  | _ => false
  end.

(** Between [w] and [w'] snapshots only disappeared; the object store and
    the rest are as they were. *)
Definition only_removed (w w' : World) : Prop :=
  frame w w' /\ buckets w' = buckets w /\ fresh w' = fresh w /\
  (forall s, In s (snapshots w') -> In s (snapshots w)) /\
  (forall s, In s (db_snapshots w') -> In s (db_snapshots w)).

(** The locals of [cleanup_old_backups] still say that no object was
    deleted. *)
Definition no_object_deleted (l l' : gmap string Z) : Prop :=
  l !! "s3_objects_deleted" = Some 0 -> l' !! "s3_objects_deleted" = Some 0.

(** The keys of the objects of bucket [b]. *)
Definition object_keys (b : string) (w : World) : list string :=
  map ObjKey (bucket_objects b w).

(** Between [w] and [w'] only bucket [dst] was written to: no snapshot
    changed, no bucket disappeared, the objects of the other buckets are
    as they were, and [dst] lost no key. *)
Definition writes_only_into (dst : string) (w w' : World) : Prop :=
  frame w w' /\ snapshots w' = snapshots w /\
  db_snapshots w' = db_snapshots w /\ fresh w' = fresh w /\
  (forall b, bucket_exists b w = true -> bucket_exists b w' = true) /\
  (forall b, b <> dst -> bucket_objects b w' = bucket_objects b w) /\
  (forall k, In k (object_keys dst w) -> In k (object_keys dst w')).

(** The requests [backup_s3_buckets] and [restore_s3_objects] are made
    of. *)
Definition is_s3_backup_call (c : Call) : bool :=
  is_s3_call c || match c with Publish _ _ _ => true | _ => false end.

Definition is_s3_restore_call (c : Call) : bool :=
  match c with
  | ListObjectsV2 _ _ None _ | CopyObject _ _ _ _ _ => true
  | _ => false
  end.

(** A copy out of bucket [b]. *)
Definition copies_from (b : string) (c : Call) : bool :=
  match c with
  | CopyObject src _ _ _ _ => String.eqb src b
  | _ => false
  end.

(** The manager [self] without a notification topic. *)
Definition without_topic (self : BackupManager) : BackupManager :=
  mkBackupManager (region self) (backup_bucket self) None
    (retention_days self).

(** [LocationConstraint] of the bucket [_ensure_backup_bucket] creates. *)
Definition location_constraint (self : BackupManager) : option string :=
  if String.eqb (region self) "us-east-1" then None else Some (region self).

(** The identifier [backup_rds_databases] asks for:
    [f"{db_identifier}-backup-{datetime.now().strftime('%Y%m%d%H%M%S')}"]. *)
Definition rds_snapshot_id (db_identifier : string) (t : datetime) : string :=
  db_identifier +:+ "-backup-" +:+ strftime_compact t.

(** The provider holds a database snapshot of that identifier. *)
Definition has_db_snapshot (sid : string) (w : World) : bool :=
  existsb (db_snapshot_has_id sid) (db_snapshots w).

(** Where [backup_s3_buckets] puts the copies of a bucket:
    [f"s3-backups/{bucket_name}/{datetime.now().strftime('%Y/%m/%d')}/"]. *)
Definition s3_backup_prefix (bucket_name : string) (t : datetime) : string :=
  "s3-backups/" +:+ bucket_name +:+ "/" +:+ strftime_path t +:+ "/".

(** The buckets [backup_s3_buckets] backs up when it is given no name:
    [[b for b in response['Buckets'] if b['Name'] != self.backup_bucket]]. *)
Definition s3_default_targets (self : BackupManager) (w : World)
  : list string :=
  List.filter (fun b => negb (String.eqb b (backup_bucket self)))
    (map BucketName (buckets w)).

(** The success record of a bucket whose objects were all copied. *)
Definition s3_complete_entry (self : BackupManager) (w : World) (b : string)
  : pydict :=
  s3_success_entry b (Z.of_nat (length (object_keys b w)))
    ("s3://" +:+ backup_bucket self +:+ "/" +:+ s3_backup_prefix b (now w)).

(* ===================================================================== *)
(** * [backup_manager.py]: [__init__] and [lambda_handler]               *)
(* ===================================================================== *)

(** What the constructor reads besides [BACKUP_BUCKET]: the other
    environment variables, whether the clients can be made for a region,
    and the account the security token service reports. *)
Record Process := mkProcess {
  environ_AWS_REGION : option string;
  environ_SNS_TOPIC_ARN : option string;
  environ_BACKUP_RETENTION_DAYS : option string;
  boto3_client : string -> option exn;     (* what boto3.client(..., region_name=r)
                                              raises, for the four services *)
  get_caller_identity : outcome string     (* ['Account'] of the answer *)
}.

(** [os.getenv(name, default)] *)
Definition getenv (value : option string) (default : string) : string :=
  match value with
  | Some s => s
  | None => default
  end.

(** [_get_account_id] *)
Definition _get_account_id (p : Process) : outcome string :=
  get_caller_identity p.

Section Constructor.

(** Python's [int] on a string: the integer, or the [ValueError]. *)
Variable int : string -> outcome Z.

(** [BackupManager.__init__].  The default of [os.getenv('BACKUP_BUCKET',
    ...)] is an argument: it is evaluated, and the account looked up,
    whether or not the variable is set. *)
Definition __init__ (region : option string) (p : Process) (w : World)
  : outcome BackupManager :=
  let region :=
    match region with
    | Some r => if String.eqb r "" then getenv (environ_AWS_REGION p) "us-east-1"
                else r
    | None => getenv (environ_AWS_REGION p) "us-east-1"
    end in
  match boto3_client p region with
  | Some e => Raise e
  | None =>
      match _get_account_id p with
      | Raise e => Raise e
      | Ret account =>
          let backup_bucket :=
            getenv (environ_BACKUP_BUCKET w)
              ("aws-backup-pipeline-" +:+ account) in
          match int (getenv (environ_BACKUP_RETENTION_DAYS p) "30") with
          | Raise e => Raise e
          | Ret retention_days =>
              Ret (mkBackupManager region backup_bucket
                     (environ_SNS_TOPIC_ARN p) retention_days)
          end
      end
  end.

(** What [lambda_handler] serialises into the body of its answer:
    [json.dumps(results, default=str)] or [json.dumps({'error': str(e)})].
    The body is kept as the value it is made from. *)
Inductive Payload :=
| BatchPayload (results : BackupResults)
| CleanupPayload (results : gmap string Z)
| FullPayload (results : FullBackupResults)
| ErrorPayload (error : exn).

(** [{'statusCode': ..., 'body': ...}] *)
Record LambdaResponse := mkLambdaResponse {
  statusCode : Z;
  body : Payload
}.

(** [v == s] for a string [s]. *)
Definition is_str (v : pyval) (s : string) : bool :=
  match v with
  | VStr x => String.eqb x s
  | _ => false
  end.

(** [lambda_handler(event, context)] for an event that is a dictionary. *)
Definition lambda_handler (event : pydict) (p : Process)
  : World -> World * outcome LambdaResponse :=
  run tt
    (try_except
       (backup_manager ← (fun w l => (w, l, __init__ None p w));
        let backup_type := default (VStr "full") (event !! "backup_type") in
        results ←
          (if is_str backup_type "ec2" then
             r ← call (backup_ec2_instances backup_manager []);
             ret (BatchPayload r)
           else if is_str backup_type "rds" then
             r ← call (backup_rds_databases backup_manager []);
             ret (BatchPayload r)
           else if is_str backup_type "s3" then
             r ← call (backup_s3_buckets backup_manager []);
             ret (BatchPayload r)
           else if is_str backup_type "cleanup" then
             r ← call (cleanup_old_backups backup_manager);
             ret (CleanupPayload r)
           else
             r ← call (run_full_backup backup_manager);
             ret (FullPayload r));
        ret (mkLambdaResponse 200 results))
       (fun e => ret (mkLambdaResponse 500 (ErrorPayload e)))).

End Constructor.

(* ===================================================================== *)
(** * [restore_manager.py]: restoring instances and databases            *)
(* ===================================================================== *)

(** The requests of [restore_ec2_from_snapshot] and
    [restore_rds_from_snapshot] that the backup side never issues, with
    the arguments that vary. *)
Inductive LaunchCall :=
| RegisterImage (name description snapshot_id : string)
| WaitImageAvailable (image_id : string)
| RunInstances (image_id instance_type : string) (subnet_id : option string)
    (security_group_ids : option (list string)) (tags : list Tag)
| RestoreDBInstanceFromDBSnapshot (db_id snapshot_id db_class : string)
    (tags : list Tag).

Record Image := mkImage {
  ImageId : string;
  ImageName : string;
  ImageSnapshotId : string                (* BlockDeviceMappings[0].Ebs *)
}.

Record Launched := mkLaunched {
  LaunchedInstanceId : string;
  LaunchedImageId : string;
  LaunchedInstanceType : string;
  LaunchedTags : list Tag
}.

Record RestoredDB := mkRestoredDB {
  RestoredDBInstanceIdentifier : string;
  RestoredFromSnapshot : string;
  RestoredDBInstanceClass : string;
  RestoredTags : list Tag
}.

(** The part of the provider only the two restore methods touch, with its
    own oracle and log. *)
Record Launches := mkLaunches {
  images : list Image;
  launched : list Launched;
  restored : list RestoredDB;
  launch_fresh : nat;
  launch_fault : list LaunchCall -> LaunchCall -> option exn;
  launch_calls : list LaunchCall
}.

Definition log_launch (c : LaunchCall) (s : Launches) : Launches :=
  mkLaunches (images s) (launched s) (restored s) (launch_fresh s)
    (launch_fault s) (c :: launch_calls s).

(** Issue [c] on that part of the provider, which a statement of the two
    methods carries where the others carry their local variables. *)
Definition launch {A : Type} (c : LaunchCall)
  (sem : Launches -> Launches * outcome A) : M Launches A :=
  fun w s =>
    match launch_fault s (launch_calls s) c with
    | Some e => (w, log_launch c s, Raise e)
    | None => let '(s', r) := sem (log_launch c s) in (w, s', r)
    end.

Definition ec2_register_image (name description snapshot_id : string)
  : M Launches string :=
  launch (RegisterImage name description snapshot_id) (fun s =>
    let image_id := "ami-" +:+ pretty (launch_fresh s) in
    (mkLaunches (images s ++ [mkImage image_id name snapshot_id])
       (launched s) (restored s) (S (launch_fresh s)) (launch_fault s)
       (launch_calls s),
     Ret image_id)).

(** [waiter.wait(ImageIds=[ami_id])] *)
Definition ec2_wait_image_available (image_id : string) : M Launches unit :=
  launch (WaitImageAvailable image_id) (fun s => (s, Ret tt)).

Definition ec2_run_instances (image_id instance_type : string)
  (subnet_id : option string) (security_group_ids : option (list string))
  (tags : list Tag) : M Launches string :=
  launch (RunInstances image_id instance_type subnet_id security_group_ids
            tags) (fun s =>
    let instance_id := "i-" +:+ pretty (launch_fresh s) in
    (mkLaunches (images s)
       (launched s ++ [mkLaunched instance_id image_id instance_type tags])
       (restored s) (S (launch_fresh s)) (launch_fault s) (launch_calls s),
     Ret instance_id)).

Definition rds_restore_db_instance_from_db_snapshot
  (db_id snapshot_id db_class : string) (tags : list Tag)
  : M Launches unit :=
  launch (RestoreDBInstanceFromDBSnapshot db_id snapshot_id db_class tags)
    (fun s =>
       (mkLaunches (images s) (launched s)
          (restored s ++ [mkRestoredDB db_id snapshot_id db_class tags])
          (launch_fresh s) (launch_fault s) (launch_calls s),
        Ret tt)).

(** [{'success': False, 'error': str(e), 'snapshot_id': snapshot_id}] *)
Definition restore_snapshot_failure (e : exn) (snapshot_id : string)
  : pydict :=
  <["success" := VBool false]>
    (<["error" := VStr e]> {["snapshot_id" := VStr snapshot_id]}).

(** [run_params['SubnetId']] is set [if subnet_id:], and
    [run_params['SecurityGroupIds']] [if security_group_ids:]. *)
Definition given_string (s : option string) : option string :=
  match s with
  | Some x => if String.eqb x "" then None else Some x
  | None => None
  end.

Definition given_list {A : Type} (l : option (list A)) : option (list A) :=
  match l with
  | Some [] | None => None
  | Some x => Some x
  end.

Definition restore_ec2_from_snapshot (snapshot_id instance_type : string)
  (subnet_id : option string) (security_group_ids : option (list string))
  : M Launches pydict :=
  try_except
    (snapshots ← call (ec2_describe_snapshots [snapshot_id]);
     match snapshots with
     | [] => raise "list index out of range"
     | snapshot :: _ =>
         t ← ask now;
         let ami_name :=
           "restore-ami-" +:+ snapshot_id +:+ "-" +:+ strftime_compact t in
         ami_id ← ec2_register_image ami_name
                    ("AMI created from snapshot " +:+ snapshot_id
                     +:+ " for restore") snapshot_id;
         ec2_wait_image_available ami_id;;
         t ← ask now;
         instance_id ← ec2_run_instances ami_id instance_type
                         (given_string subnet_id)
                         (given_list security_group_ids)
                         [ mkTag "Name" ("restored-from-" +:+ snapshot_id);
                           mkTag "RestoredFrom" snapshot_id;
                           mkTag "RestoreDate" (isoformat t) ];
         t ← ask now;
         ret (<["success" := VBool true]>
                (<["instance_id" := VStr instance_id]>
                   (<["ami_id" := VStr ami_id]>
                      (<["snapshot_id" := VStr snapshot_id]>
                         ({["restore_timestamp" := VStr (isoformat t)]}
                            : pydict)))))
     end)
    (fun e => ret (restore_snapshot_failure e snapshot_id)).

(** The provider's answers carry ['DBInstanceIdentifier'], so the default
    of [snapshot.get('DBInstanceIdentifier', 'unknown')] is not taken. *)
Definition restore_rds_from_snapshot (snapshot_id new_db_identifier
  db_instance_class : string) : M Launches pydict :=
  try_except
    (snapshots ← call (rds_describe_db_snapshots (Some snapshot_id));
     match snapshots with
     | [] => raise "list index out of range"
     | snapshot :: _ =>
         t ← ask now;
         rds_restore_db_instance_from_db_snapshot new_db_identifier
           snapshot_id db_instance_class
           [ mkTag "RestoredFrom" snapshot_id;
             mkTag "RestoreDate" (isoformat t);
             mkTag "OriginalDB" (SourceDBInstanceIdentifier snapshot) ];;
         t ← ask now;
         ret (<["success" := VBool true]>
                (<["db_identifier" := VStr new_db_identifier]>
                   (<["snapshot_id" := VStr snapshot_id]>
                      (<["status" := VStr "restoring"]>
                         ({["restore_timestamp" := VStr (isoformat t)]}
                            : pydict)))))
     end)
    (fun e => ret (restore_snapshot_failure e snapshot_id)).

(** ** Vocabulary of the restore of instances and databases *)

(** The launch side refuses nothing. *)
Definition launch_reliable (s : Launches) : Prop :=
  forall h c, launch_fault s h c = None.

(** The image [restore_ec2_from_snapshot] registers in state [s] at time
    [t]: its id, and the image. *)
Definition restore_image_id (s : Launches) : string :=
  "ami-" +:+ pretty (launch_fresh s).

Definition restore_image (snapshot_id : string) (t : datetime) (s : Launches)
  : Image :=
  mkImage (restore_image_id s)
    ("restore-ami-" +:+ snapshot_id +:+ "-" +:+ strftime_compact t)
    snapshot_id.

(** A call to launch an instance. *)
Definition is_run_instances (c : LaunchCall) : bool :=
  match c with
  | RunInstances _ _ _ _ _ => true
  | _ => false
  end.

(** The tags of the instance [restore_ec2_from_snapshot] launches and of
    the database [restore_rds_from_snapshot] restores. *)
Definition restored_instance_tags (snapshot_id : string) (t : datetime)
  : list Tag :=
  [ mkTag "Name" ("restored-from-" +:+ snapshot_id);
    mkTag "RestoredFrom" snapshot_id;
    mkTag "RestoreDate" (isoformat t) ].

Definition restored_db_tags (snapshot_id : string) (t : datetime)
  (original_db : string) : list Tag :=
  [ mkTag "RestoredFrom" snapshot_id;
    mkTag "RestoreDate" (isoformat t);
    mkTag "OriginalDB" original_db ].

(** The lookup found a snapshot. *)
Definition found {A : Type} (r : outcome (list A)) : bool :=
  match r with
  | Ret (_ :: _) => true
  | _ => false
  end.

(* ===================================================================== *)
(** * Provider states used in the examples                               *)
(* ===================================================================== *)

Module Samples.

(** An oracle under which the provider refuses nothing. *)
Definition no_fault : list Call -> Call -> option exn := fun _ _ => None.

(** The provider refuses exactly the calls selected by [p]. *)
Definition refuse (p : Call -> bool) (msg : exn)
  : list Call -> Call -> option exn :=
  fun _ c => if p c then Some msg else None.

Definition noon : datetime := mkDT 2024 3 31 12 0 0 0 None.
Definition noon_utc : datetime := mkDT 2024 3 31 12 0 0 0 (Some UTC).

Definition manager : BackupManager :=
  mkBackupManager "us-east-1" "backup-bucket" None 30.

Definition backup_tag : Tag := mkTag "AutomatedBackup" "true".

Definition empty_world : World :=
  mkWorld noon noon_utc None [] [] [] [] [] 999 (fun _ => 8) 0 no_fault [].

(** One running instance with two attached volumes. *)
Definition two_volumes : World :=
  mkWorld noon noon_utc None
    [[mkInstance "i-1" "running"
        [mkBlockDevice "/dev/sda1" "vol-1"; mkBlockDevice "/dev/sdb" "vol-2"]]]
    [] [] [] [] 999 (fun _ => 8) 0 no_fault [].

(** Two running instances, one volume each. *)
Definition two_instances : World :=
  mkWorld noon noon_utc None
    [[mkInstance "i-1" "running" [mkBlockDevice "/dev/sda1" "vol-1"]];
     [mkInstance "i-2" "running" [mkBlockDevice "/dev/sda1" "vol-2"]]]
    [] [] [] [] 999 (fun _ => 8) 0 no_fault [].

(** Two databases. *)
Definition two_databases : World :=
  mkWorld noon noon_utc None [] []
    [mkDBInstance "db-1" "mysql"; mkDBInstance "db-2" "postgres"]
    [] [] 999 (fun _ => 8) 0 no_fault [].

(** A source bucket with one object, next to the backup bucket. *)
Definition one_bucket : World :=
  mkWorld noon noon_utc None [] [] [] []
    [mkBucket "backup-bucket" [];
     mkBucket "data" [mkS3Object "report.txt" []]]
    999 (fun _ => 8) 0 no_fault [].

Definition snap (sid : string) (t : datetime) (state : string)
  (tags : list Tag) : Snapshot :=
  mkSnapshot sid "" t 8 state "100%" false tags.

Definition db_snap (sid : string) (t : datetime) (status : string)
  (tags : list Tag) : DBSnapshot :=
  mkDBSnapshot sid "db-1" t "mysql" status 100 false "manual" tags.

(** 2024-03-01 12:00 is exactly 30 days before [noon]. *)
Definition at_cutoff : datetime := mkDT 2024 3 1 12 0 0 0 (Some UTC).
Definition day_before_cutoff : datetime := mkDT 2024 2 29 12 0 0 0 (Some UTC).
Definition jan1 : datetime := mkDT 2024 1 1 0 0 0 0 (Some UTC).
Definition jan2 : datetime := mkDT 2024 1 2 0 0 0 0 (Some UTC).
Definition jan3 : datetime := mkDT 2024 1 3 0 0 0 500000 (Some UTC).

(** Tagged and untagged snapshots of several ages, in both services. *)
Definition with_snapshots : World :=
  mkWorld noon noon_utc None [] 
    [snap "snap-a" jan2 "completed" [backup_tag];
     snap "snap-b" jan1 "pending" [backup_tag];
     snap "snap-c" jan3 "completed" [backup_tag];
     snap "snap-d" jan1 "completed" [];
     snap "snap-e" at_cutoff "completed" [backup_tag];
     snap "snap-f" day_before_cutoff "completed" [backup_tag]]
    [mkDBInstance "db-1" "mysql"]
    [db_snap "rds-a" jan1 "available" [backup_tag];
     db_snap "rds-b" at_cutoff "creating" [backup_tag];
     db_snap "rds-c" jan1 "available" [mkTag "Owner" "ops"]]
    [] 999 (fun _ => 8) 0 no_fault [].

Definition with_fault (f : list Call -> Call -> option exn) (w : World)
  : World :=
  mkWorld (now w) (provider_now w) (environ_BACKUP_BUCKET w) (reservations w)
    (snapshots w) (db_instances w) (db_snapshots w) (buckets w)
    (page_size w) (volume_size w) (fresh w) f (calls w).

Definition is_delete_of (sid : string) (c : Call) : bool :=
  match c with
  | DeleteSnapshot s => String.eqb s sid
  | _ => false
  end.

End Samples.

Import Samples.

Module RestoreSamples.

(** A manager whose retention reaches back before 0001-01-01. *)
Definition keeps_for_ever : BackupManager :=
  mkBackupManager "us-east-1" "backup-bucket" None 1000000.

(** Half a second after [noon]. *)
Definition noon_and_a_half : datetime := mkDT 2024 3 31 12 0 0 500000 None.

(** [one_bucket] after its backup of 2024-03-31. *)
Definition backed_up : World :=
  mkWorld noon noon_utc None [] [] [] []
    [mkBucket "backup-bucket"
       [mkS3Object "s3-backups/data/2024/03/31/report.txt" []];
     mkBucket "data" [mkS3Object "report.txt" []]]
    999 (fun _ => 8) 0 no_fault [].

(** A launch side that registers images and has no capacity for
    instances. *)
Definition no_capacity : Launches :=
  mkLaunches [] [] [] 0
    (fun _ c => if is_run_instances c
                then Some "InsufficientInstanceCapacity" else None)
    [].

End RestoreSamples.

Import RestoreSamples.

(* ===================================================================== *)
(** * The calendar on known dates                                        *)
(* ===================================================================== *)

Example isoformat_aware :
  isoformat (mkDT 2024 1 15 10 30 0 0 (Some UTC)) = "2024-01-15T10:30:00+00:00".
Proof. reflexivity. Qed.

Example isoformat_microseconds :
  isoformat (mkDT 24 1 15 10 30 0 1500 None) = "0024-01-15T10:30:00.001500".
Proof. reflexivity. Qed.

Example sub_days_leap_year :
  sub_days (mkDT 2024 3 1 10 30 0 0 None) 30
  = Some (mkDT 2024 1 31 10 30 0 0 None).
Proof. reflexivity. Qed.

Example sub_days_common_year :
  sub_days (mkDT 2023 3 1 10 30 0 0 None) 1
  = Some (mkDT 2023 2 28 10 30 0 0 None).
Proof. reflexivity. Qed.

Example sub_days_century :
  sub_days (mkDT 2001 1 1 10 30 0 0 None) 1
  = Some (mkDT 2000 12 31 10 30 0 0 None).
Proof. reflexivity. Qed.

Example sub_days_overflow : sub_days (mkDT 1 1 1 10 30 0 0 None) 1 = None.
Proof. reflexivity. Qed.

(* ===================================================================== *)
(** * Strings in code-point order                                        *)
(* ===================================================================== *)

Section StringOrder.

Lemma string_compare_refl (s : string) : String.compare s s = Eq.
Proof.
  induction s as [|a s IH]; simpl; [reflexivity|].
  unfold Ascii.compare. rewrite N.compare_refl. exact IH.
Qed.

Lemma string_app_assoc (a b c : string) : (a +:+ b) +:+ c = a +:+ (b +:+ c).
Proof.
  induction a as [|x a IH]; [reflexivity|].
  change (String x ((a +:+ b) +:+ c) = String x (a +:+ (b +:+ c))).
  now rewrite IH.
Qed.

Lemma append_single (c : ascii) (s : string) :
  String c EmptyString +:+ s = String c s.
Proof. reflexivity. Qed.

(** Comparing two strings that start with equally long blocks: the blocks
    decide, unless they are equal. *)
Lemma compare_cons_same (c : ascii) (s1 s2 : string) :
  String.compare (String c s1) (String c s2) = String.compare s1 s2.
Proof. simpl. unfold Ascii.compare. now rewrite N.compare_refl. Qed.

Lemma digit_compare (x y : Z) :
  0 <= x < 10 -> 0 <= y < 10 ->
  Ascii.compare (digit x) (digit y) = (x ?= y).
Proof.
  intros Hx Hy.
  assert (Ex : x = 0 \/ x = 1 \/ x = 2 \/ x = 3 \/ x = 4 \/ x = 5 \/ x = 6
               \/ x = 7 \/ x = 8 \/ x = 9) by lia.
  assert (Ey : y = 0 \/ y = 1 \/ y = 2 \/ y = 3 \/ y = 4 \/ y = 5 \/ y = 6
               \/ y = 7 \/ y = 8 \/ y = 9) by lia.
  repeat (destruct Ex as [-> | Ex]); try subst x;
    repeat (destruct Ey as [-> | Ey]); try subst y; reflexivity.
Qed.

Lemma compare_step (a b : Z) :
  0 <= a -> 0 <= b ->
  match a / 10 ?= b / 10 with
  | Eq => a mod 10 ?= b mod 10
  | r => r
  end = (a ?= b).
Proof.
  intros Ha Hb.
  pose proof (Z.div_mod a 10 ltac:(lia)) as Da.
  pose proof (Z.div_mod b 10 ltac:(lia)) as Db.
  pose proof (Z.mod_pos_bound a 10 ltac:(lia)) as Ma.
  pose proof (Z.mod_pos_bound b 10 ltac:(lia)) as Mb.
  destruct (Z.compare_spec (a / 10) (b / 10)) as [E | L | G].
  - destruct (Z.compare_spec (a mod 10) (b mod 10));
      symmetry; [apply Z.compare_eq_iff | apply Z.compare_lt_iff
                | apply Z.compare_gt_iff]; lia.
  - symmetry. apply Z.compare_lt_iff. lia.
  - symmetry. apply Z.compare_gt_iff. lia.
Qed.

(** Zero-padded numbers of the same width compare like the numbers. *)
Lemma zfill_compare (w : nat) : forall (a b : Z) (s1 s2 : string),
  0 <= a < 10 ^ Z.of_nat w -> 0 <= b < 10 ^ Z.of_nat w ->
  String.compare (zfill w a +:+ s1) (zfill w b +:+ s2)
  = match a ?= b with Eq => String.compare s1 s2 | r => r end.
Proof.
  induction w as [|w IH]; intros a b s1 s2 Ha Hb.
  - simpl in *. assert (a = 0) by lia. assert (b = 0) by lia. subst.
    reflexivity.
  - cbn [zfill]. rewrite !string_app_assoc. 
    rewrite Nat2Z.inj_succ, Z.pow_succ_r in Ha, Hb by lia.
    rewrite IH.
    2,3: split; [apply Z.div_pos; lia | apply Z.div_lt_upper_bound; lia].
    rewrite <- (compare_step a b) by lia.
    destruct (a / 10 ?= b / 10); try reflexivity.
    rewrite !append_single. cbn [String.compare].
    rewrite digit_compare by (apply Z.mod_pos_bound; lia).
    reflexivity.
Qed.

End StringOrder.

Section IsoformatOrder.

Lemma valid_bounds (d : datetime) :
  valid d ->
  0 <= year d < 10 ^ Z.of_nat 4 /\ 0 <= month d < 10 ^ Z.of_nat 2 /\
  0 <= day d < 10 ^ Z.of_nat 2 /\ 0 <= hour d < 10 ^ Z.of_nat 2 /\
  0 <= minute d < 10 ^ Z.of_nat 2 /\ 0 <= second d < 10 ^ Z.of_nat 2 /\
  0 <= microsecond d < 10 ^ Z.of_nat 6.
Proof.
  unfold valid. intros (Hy & Hm & Hd & Hh & Hmi & Hs & Hu).
  assert (_days_in_month (year d) (month d) <= 31).
  { unfold _days_in_month.
    repeat match goal with |- context [if ?c then _ else _] => destruct c end;
      lia. }
  change (10 ^ Z.of_nat 4) with 10000. change (10 ^ Z.of_nat 2) with 100.
  change (10 ^ Z.of_nat 6) with 1000000. lia.
Qed.

(** The optional fraction and the offset: a datetime without fraction sorts
    before one with a fraction, whatever the offset. *)
Lemma fraction_compare (a b : Z) (t : option tz) :
  0 <= a < 10 ^ Z.of_nat 6 -> 0 <= b < 10 ^ Z.of_nat 6 ->
  String.compare
    ((if a =? 0 then "" else "." +:+ zfill 6 a)
     +:+ match t with Some UTC => "+00:00" | None => "" end)
    ((if b =? 0 then "" else "." +:+ zfill 6 b)
     +:+ match t with Some UTC => "+00:00" | None => "" end)
  = (a ?= b).
Proof.
  intros Ha Hb.
  destruct (Z.eqb_spec a 0) as [-> | Na], (Z.eqb_spec b 0) as [-> | Nb].
  - simpl. apply string_compare_refl.
  - assert ((0 ?= b) = Lt) as -> by (apply Z.compare_lt_iff; lia).
    destruct t as [[]|]; reflexivity.
  - assert ((a ?= 0) = Gt) as -> by (apply Z.compare_gt_iff; lia).
    destruct t as [[]|]; reflexivity.
  - rewrite !append_single.
    change (String ?c ?s +:+ ?t) with (String c (s +:+ t)).
    rewrite compare_cons_same.
    rewrite zfill_compare by assumption.
    rewrite string_compare_refl. now destruct (a ?= b).
Qed.

(** [isoformat] is monotone: on datetimes of the same awareness, the order
    of the strings is the order of the datetimes. *)
Lemma isoformat_compare (a b : datetime) :
  valid a -> valid b -> tzinfo a = tzinfo b ->
  String.compare (isoformat a) (isoformat b) = dt_compare a b.
Proof.
  intros Va Vb Htz.
  apply valid_bounds in Va as (Ay & Am & Ad & Ah & Ami & As & Au).
  apply valid_bounds in Vb as (By & Bm & Bd & Bh & Bmi & Bs & Bu).
  unfold isoformat, dt_compare, fields. rewrite Htz.
  cbn [lex_compare].
  repeat (rewrite zfill_compare by assumption;
          match goal with
          | |- match ?c with _ => _ end = match ?c with _ => _ end =>
              destruct c; try reflexivity
          end;
          rewrite ?append_single, ?compare_cons_same).
  rewrite fraction_compare by assumption.
  now destruct (microsecond a ?= microsecond b).
Qed.

End IsoformatOrder.

(* ===================================================================== *)
(** * The order of datetimes                                             *)
(* ===================================================================== *)

Section DatetimeOrder.

Lemma lex_compare_antisym (a : list Z) : forall b,
  lex_compare a b = CompOpp (lex_compare b a).
Proof.
  induction a as [|x a IH]; intros [|y b]; simpl; try reflexivity.
  rewrite (Z.compare_antisym y x). destruct (y ?= x); simpl; auto.
Qed.

Lemma lex_compare_lt_trans (a : list Z) : forall b c,
  lex_compare a b = Lt -> lex_compare b c = Lt -> lex_compare a c = Lt.
Proof.
  induction a as [|x a IH]; intros [|y b] [|z c]; simpl; try congruence.
  destruct (Z.compare_spec x y), (Z.compare_spec y z); try congruence;
    intros H1 H2; subst.
  - rewrite Z.compare_refl. eauto.
  - apply Z.compare_lt_iff in H0. now rewrite H0.
  - apply Z.compare_lt_iff in H. now rewrite H.
  - assert (x < z) as Hxz by lia. apply Z.compare_lt_iff in Hxz.
    now rewrite Hxz.
Qed.

Lemma dt_ltb_irrefl (a b : datetime) :
  fields a = fields b -> dt_ltb a b = false.
Proof.
  unfold dt_ltb, dt_compare. intros ->.
  assert (forall l, lex_compare l l = Eq) as ->; [|reflexivity].
  induction l as [|x l IH]; simpl; [reflexivity|].
  now rewrite Z.compare_refl.
Qed.

Lemma dt_ltb_trans (a b c : datetime) :
  dt_ltb a b = true -> dt_ltb b c = true -> dt_ltb a c = true.
Proof.
  unfold dt_ltb, dt_compare.
  destruct (lex_compare (fields a) (fields b)) eqn:E1; try discriminate.
  destruct (lex_compare (fields b) (fields c)) eqn:E2; try discriminate.
  now rewrite (lex_compare_lt_trans _ _ _ E1 E2).
Qed.

Lemma dt_ltb_asym (a b : datetime) :
  dt_ltb a b = true -> dt_ltb b a = false.
Proof.
  unfold dt_ltb, dt_compare. rewrite (lex_compare_antisym (fields b)).
  now destruct (lex_compare (fields a) (fields b)).
Qed.

(** On valid datetimes of one awareness, [<] on the [isoformat] strings is
    [<] on the datetimes. *)
Lemma isoformat_ltb (a b : datetime) :
  valid a -> valid b -> tzinfo a = tzinfo b ->
  String.ltb (isoformat a) (isoformat b) = dt_ltb a b.
Proof.
  intros. unfold String.ltb, dt_ltb. now rewrite isoformat_compare.
Qed.

End DatetimeOrder.

(* ===================================================================== *)
(** * [sorted(..., reverse=True)]                                        *)
(* ===================================================================== *)

Section Sorting.

Context {A : Type} (key : A -> string).

Lemma insert_desc_perm (x : A) (l : list A) :
  insert_desc key x l ≡ₚ x :: l.
Proof.
  induction l as [|y l IH]; simpl; [reflexivity|].
  destruct (String.ltb (key x) (key y)); [|reflexivity].
  rewrite IH. apply Permutation_swap.
Qed.

Lemma sorted_reverse_perm (l : list A) : sorted_reverse key l ≡ₚ l.
Proof.
  induction l as [|x l IH]; simpl; [reflexivity|].
  rewrite insert_desc_perm. now rewrite IH.
Qed.

Lemma string_ltb_trans (a b c : string) :
  String.ltb a b = false -> String.ltb b c = false -> String.ltb a c = false.
Proof.
  intros H1 H2.
  destruct (String.ltb a c) eqn:Hac; [|reflexivity].
  exfalso.
  assert (Hle : forall s t, String.ltb s t = false -> String.leb t s = true).
  { intros s t. unfold String.ltb, String.leb.
    rewrite (String.compare_antisym t s).
    destruct (String.compare s t); simpl; congruence. }
  assert (Hlt : forall s t, String.ltb s t = true -> String.leb s t = true
                            /\ s <> t).
  { intros s t. unfold String.ltb, String.leb.
    destruct (String.compare s t) eqn:E; try discriminate.
    split; [reflexivity|]. intros ->. 
    rewrite string_compare_refl in E. discriminate. }
  apply Hle in H1, H2. apply Hlt in Hac as [Hac Hne].
  apply Hne. apply String.leb_antisym; [assumption|].
  apply Is_true_true. change (String.le c a).
  transitivity b; apply Is_true_true; assumption.
Qed.

Lemma insert_desc_sorted (x : A) (l : list A) :
  StronglySorted (desc key) l -> StronglySorted (desc key) (insert_desc key x l).
Proof.
  induction 1 as [|y l Hs IH Hall]; simpl.
  - repeat constructor.
  - destruct (String.ltb (key x) (key y)) eqn:Hxy.
    + constructor; [assumption|].
      rewrite insert_desc_perm. constructor; [|assumption].
      unfold desc. 
      unfold String.ltb in *.
      rewrite (String.compare_antisym (key y) (key x)).
      destruct (String.compare (key x) (key y)); simpl; congruence.
    + constructor; [now constructor|].
      constructor; [exact Hxy|].
      eapply Forall_impl; [exact Hall|].
      intros z Hz. unfold desc in *. eapply string_ltb_trans; eassumption.
Qed.

Lemma sorted_reverse_sorted (l : list A) :
  StronglySorted (desc key) (sorted_reverse key l).
Proof.
  induction l as [|x l IH]; simpl; [constructor|].
  now apply insert_desc_sorted.
Qed.

End Sorting.

Lemma sorted_reverse_map {A B : Type} (f : A -> B) (key : B -> string)
  (l : list A) :
  sorted_reverse key (map f l) = map f (sorted_reverse (fun a => key (f a)) l).
Proof.
  induction l as [|x l IH]; simpl; [reflexivity|].
  rewrite IH. generalize (sorted_reverse (fun a => key (f a)) l) as m.
  induction m as [|y m IHm]; simpl; [reflexivity|].
  destruct (String.ltb (key (f x)) (key (f y))); simpl; [|reflexivity].
  now rewrite IHm.
Qed.

(* ===================================================================== *)
(** * Three sorted elements, and [list_available_backups]                *)
(* ===================================================================== *)

Ltac unfold_monad :=
  unfold run, method, try_except, mbind, M_bind, mret, M_ret, bind, ret,
    raise, call, ask, locals, update in *.

Section ThreeSorted.

Context {A : Type} (R : A -> A -> Prop).

Lemma perm3_cases (a b c : A) (l : list A) :
  l ≡ₚ [a; b; c] ->
  l = [a; b; c] \/ l = [a; c; b] \/ l = [b; a; c] \/ l = [b; c; a]
  \/ l = [c; a; b] \/ l = [c; b; a].
Proof.
  intros Hp.
  assert (Hin : In a l) by (eapply Permutation_in; [symmetry; exact Hp | now left]).
  apply in_split in Hin as (l1 & l2 & ->).
  symmetry in Hp. apply Permutation_cons_app_inv in Hp.
  apply Permutation_length_2_inv in Hp.
  destruct Hp as [Hp | Hp];
    destruct l1 as [|x [|y [|z l1]]]; simpl in Hp; simplify_eq; auto 10.
Qed.

(** A descending arrangement of three strictly increasing elements is the
    reversed one. *)
Lemma sorted3_unique (a b c : A) (l : list A) :
  l ≡ₚ [a; b; c] -> StronglySorted R l ->
  ~ R a b -> ~ R b c -> ~ R a c ->
  l = [c; b; a].
Proof.
  intros Hp Hs Hab Hbc Hac.
  destruct (perm3_cases _ _ _ _ Hp) as [-> | [-> | [-> | [-> | [-> | ->]]]]];
    try reflexivity; exfalso;
    repeat match goal with
           | H : StronglySorted _ (_ :: _) |- _ =>
               apply StronglySorted_inv in H as [? ?]
           | H : Forall _ (_ :: _) |- _ =>
               apply Forall_cons in H as [? ?]
           end; tauto.
Qed.

End ThreeSorted.

Section Listing.

Lemma list_ec2 rt w w' backups ts :
  list_available_backups rt w = (w', Ret (ListSuccess backups ts)) ->
  wants rt "ec2" = true ->
  backups !! "ec2" =
    Some (sorted_reverse (str_field "start_time")
            (map ec2_backup_entry (List.filter tagged (snapshots w)))).
Proof.
  intros H Hw. unfold list_available_backups in H. rewrite Hw in H.
  unfold ec2_describe_snapshots, rds_describe_db_snapshots,
    s3_list_common_prefixes, provider in H.
  unfold_monad.
  repeat (case_match; simplify_eq/=); try reflexivity.
  all: rewrite ?lookup_insert_ne by done; rewrite lookup_insert_eq; reflexivity.
Qed.

Lemma list_rds rt w w' backups ts :
  list_available_backups rt w = (w', Ret (ListSuccess backups ts)) ->
  wants rt "rds" = true ->
  backups !! "rds" =
    Some (sorted_reverse (str_field "snapshot_create_time")
            (map rds_backup_entry
               (List.filter db_tagged (manual_snapshots w)))).
Proof.
  intros H Hw. unfold list_available_backups in H. rewrite Hw in H.
  unfold ec2_describe_snapshots, rds_describe_db_snapshots,
    s3_list_common_prefixes, provider in H.
  unfold_monad.
  repeat (case_match; simplify_eq/=); try reflexivity.
  all: rewrite ?lookup_insert_ne by done; rewrite lookup_insert_eq; reflexivity.
Qed.

Lemma list_reliable rt w :
  (forall h c, fault w h c = None) ->
  exists w' backups ts,
    list_available_backups rt w = (w', Ret (ListSuccess backups ts)).
Proof.
  intros Hrel. unfold list_available_backups.
  unfold ec2_describe_snapshots, rds_describe_db_snapshots,
    s3_list_common_prefixes, provider.
  unfold_monad.
  repeat (case_match; simplify_eq/=); eauto.
  all: try (rewrite Hrel in *; discriminate).
  all: cbn in *; try (rewrite Hrel in *; discriminate).
Qed.

Lemma start_time_key (s : Snapshot) :
  str_field "start_time" (ec2_backup_entry s) = isoformat (StartTime s).
Proof. reflexivity. Qed.

Lemma create_time_key (s : DBSnapshot) :
  str_field "snapshot_create_time" (rds_backup_entry s)
  = isoformat (SnapshotCreateTime s).
Proof. reflexivity. Qed.

(** Sorting records by the [isoformat] of a time stamp sorts them by the
    time stamp. *)
Lemma sorted_by_isoformat {A : Type} (time : A -> datetime) (l : list A) :
  Forall (fun s => valid (time s) /\ tzinfo (time s) = Some UTC) l ->
  StronglySorted (fun a b => dt_ltb (time a) (time b) = false)
    (sorted_reverse (fun s => isoformat (time s)) l).
Proof.
  intros Hall.
  assert (Hall' : Forall (fun s => valid (time s) /\ tzinfo (time s) = Some UTC)
                    (sorted_reverse (fun s => isoformat (time s)) l)).
  { now rewrite sorted_reverse_perm. }
  pose proof (sorted_reverse_sorted (fun s => isoformat (time s)) l) as Hs.
  induction Hs as [|x m Hs IH Hx]; [constructor|].
  apply Forall_cons in Hall' as [[Vx Tx] Hm].
  constructor; [now apply IH|].
  rewrite Forall_forall in Hx, Hm |- *. intros y Hy.
  destruct (Hm y Hy) as [Vy Ty].
  rewrite <- isoformat_ltb by congruence. now apply Hx.
Qed.

End Listing.

(* ===================================================================== *)
(** * Running statements                                                 *)
(* ===================================================================== *)

Section Statements.

Context {L : Type}.

Lemma bind_run {A B : Type} (m : M L A) (k : A -> M L B) w l :
  (m ≫= k) w l
  = match m w l with
    | (w', l', Ret a) => k a w' l'
    | (w', l', Raise e) => (w', l', Raise e)
    end.
Proof. reflexivity. Qed.

Lemma call_run {A : Type} (op : World -> World * outcome A) w (l : L) :
  call op w l = (fst (op w), l, snd (op w)).
Proof. unfold call. now destruct (op w). Qed.

Lemma for_each_cons {X : Type} (x : X) (xs : list X) (body : X -> M L unit)
  w l :
  for_each (x :: xs) body w l
  = match body x w l with
    | (w', l', Ret _) => for_each xs body w' l'
    | (w', l', Raise e) => (w', l', Raise e)
    end.
Proof. reflexivity. Qed.

Lemma for_each_app {X : Type} (xs ys : list X) (body : X -> M L unit) w l :
  for_each (xs ++ ys) body w l
  = match for_each xs body w l with
    | (w', l', Ret _) => for_each ys body w' l'
    | (w', l', Raise e) => (w', l', Raise e)
    end.
Proof.
  revert w l. induction xs as [|x xs IH]; intros w l; [reflexivity|].
  simpl app. rewrite !for_each_cons.
  destruct (body x w l) as [[w1 l1] [[]|e]]; [apply IH | reflexivity].
Qed.

End Statements.

(* ===================================================================== *)
(** * The two loops of [cleanup_old_backups]                             *)
(* ===================================================================== *)

Section CleanupLoops.

Lemma filter_filter {A} (p q : A -> bool) (l : list A) :
  List.filter p (List.filter q l) = List.filter (fun x => q x && p x) l.
Proof.
  induction l as [|x l IH]; simpl; [reflexivity|].
  destruct (q x); simpl; [destruct (p x)|]; now rewrite IH.
Qed.

Lemma delete_ids_snoc ids i l :
  List.filter (fun s => negb (snapshot_has_id i s)) (delete_ids ids l)
  = delete_ids (ids ++ [i]) l.
Proof.
  unfold delete_ids. rewrite filter_filter. apply filter_ext. intros s.
  rewrite existsb_app. simpl. unfold snapshot_has_id.
  rewrite orb_false_r, negb_orb. reflexivity.
Qed.

Lemma delete_ids_nil l : delete_ids [] l = l.
Proof.
  unfold delete_ids. simpl. induction l; simpl; congruence.
Qed.

Lemma delete_db_ids_snoc ids i l :
  List.filter (fun s => negb (db_snapshot_has_id i s)) (delete_db_ids ids l)
  = delete_db_ids (ids ++ [i]) l.
Proof.
  unfold delete_db_ids. rewrite filter_filter. apply filter_ext. intros s.
  rewrite existsb_app. simpl. unfold db_snapshot_has_id.
  rewrite orb_false_r, negb_orb. reflexivity.
Qed.

Lemma delete_db_ids_nil l : delete_db_ids [] l = l.
Proof.
  unfold delete_db_ids. simpl. induction l; simpl; congruence.
Qed.

Lemma after_deletions_id w : after_deletions w (snapshots w) (calls w) = w.
Proof. now destruct w. Qed.

Lemma after_db_deletions_id w :
  after_db_deletions w (db_snapshots w) (calls w) = w.
Proof. now destruct w. Qed.

Lemma ec2_delete_snapshot_run sid w :
  ec2_delete_snapshot sid w
  = match fault w (calls w) (DeleteSnapshot sid) with
    | Some e => (after_deletions w (snapshots w) (DeleteSnapshot sid :: calls w),
                 Raise e)
    | None =>
        if existsb (snapshot_has_id sid) (snapshots w)
        then (after_deletions w
                (List.filter (fun s => negb (snapshot_has_id sid s)) (snapshots w))
                (DeleteSnapshot sid :: calls w), Ret tt)
        else (after_deletions w (snapshots w) (DeleteSnapshot sid :: calls w),
              Raise "InvalidSnapshot.NotFound")
    end.
Proof.
  unfold ec2_delete_snapshot, provider.
  destruct (fault w (calls w) (DeleteSnapshot sid)); [reflexivity|].
  cbn [snapshots set_calls].
  destruct (existsb (snapshot_has_id sid) (snapshots w)); reflexivity.
Qed.

Lemma rds_delete_db_snapshot_run sid w :
  rds_delete_db_snapshot sid w
  = match fault w (calls w) (DeleteDBSnapshot sid) with
    | Some e =>
        (after_db_deletions w (db_snapshots w) (DeleteDBSnapshot sid :: calls w),
         Raise e)
    | None =>
        if existsb (db_snapshot_has_id sid) (db_snapshots w)
        then (after_db_deletions w
                (List.filter (fun s => negb (db_snapshot_has_id sid s))
                   (db_snapshots w))
                (DeleteDBSnapshot sid :: calls w), Ret tt)
        else (after_db_deletions w (db_snapshots w)
                (DeleteDBSnapshot sid :: calls w),
              Raise "DBSnapshotNotFound")
    end.
Proof.
  unfold rds_delete_db_snapshot, provider.
  destruct (fault w (calls w) (DeleteDBSnapshot sid)); [reflexivity|].
  cbn [db_snapshots set_calls].
  destruct (existsb (db_snapshot_has_id sid) (db_snapshots w)); reflexivity.
Qed.

Variable c : datetime.

(** What one round of the loop does. *)
Lemma cleanup_ec2_snapshot_run (s : Snapshot) w l :
  cleanup_ec2_snapshot c s w l
  = if ec2_expired c s
    then match ec2_delete_snapshot (SnapshotId s) w with
         | (w', Ret _) => (w', increment "ec2_snapshots_deleted" l, Ret tt)
         | (w', Raise e) => (w', l, Raise e)
         end
    else (w, l, Ret tt).
Proof.
  unfold cleanup_ec2_snapshot. destruct (ec2_expired c s); [|reflexivity].
  rewrite bind_run, call_run.
  now destruct (ec2_delete_snapshot (SnapshotId s) w) as [w' [[]|e]].
Qed.

Lemma cleanup_rds_snapshot_run (s : DBSnapshot) w l :
  cleanup_rds_snapshot c s w l
  = if rds_expired c s
    then match rds_delete_db_snapshot (DBSnapshotIdentifier s) w with
         | (w', Ret _) => (w', increment "rds_snapshots_deleted" l, Ret tt)
         | (w', Raise e) => (w', l, Raise e)
         end
    else (w, l, Ret tt).
Proof.
  unfold cleanup_rds_snapshot. destruct (rds_expired c s); [|reflexivity].
  rewrite bind_run, call_run.
  now destruct (rds_delete_db_snapshot (DBSnapshotIdentifier s) w)
    as [w' [[]|e]].
Qed.

(** The loop over the listed snapshots deletes the expired ones in order,
    until the provider refuses a deletion: [deleted] were deleted,
    [refused] holds the refused one, [more] were not reached. *)
Lemma ec2_loop_run (snaps : list Snapshot) : forall (done : list string) w0 w l,
  snapshots w = delete_ids done (snapshots w0) ->
  exists deleted refused more o,
    map SnapshotId (List.filter (ec2_expired c) snaps)
      = deleted ++ refused ++ more /\
    for_each snaps (cleanup_ec2_snapshot c) w l
    = (after_deletions w (delete_ids (done ++ deleted) (snapshots w0))
         (map DeleteSnapshot (refused ++ rev deleted) ++ calls w),
       Nat.iter (length deleted) (increment "ec2_snapshots_deleted") l, o) /\
    match o with
    | Ret _ => refused = [] /\ more = []
    | Raise _ => length refused = 1%nat
    end.
Proof.
  induction snaps as [|s snaps IH]; intros done w0 w l Hw.
  - exists [], [], [], (Ret tt). simpl. rewrite app_nil_r, <- Hw.
    now rewrite after_deletions_id.
  - rewrite for_each_cons, cleanup_ec2_snapshot_run. cbn [List.filter].
    destruct (ec2_expired c s) eqn:He; [|now apply IH].
    rewrite ec2_delete_snapshot_run.
    destruct (fault w (calls w) (DeleteSnapshot (SnapshotId s))) as [e|] eqn:Hf;
      [|destruct (existsb (snapshot_has_id (SnapshotId s)) (snapshots w)) eqn:Hex].
    + exists [], [SnapshotId s],
        (map SnapshotId (List.filter (ec2_expired c) snaps)), (Raise e).
      simpl. now rewrite app_nil_r, <- Hw.
    + match goal with
      | |- context [for_each snaps _ ?w1 ?l1] =>
          destruct (IH (done ++ [SnapshotId s]) w0 w1 l1)
            as (deleted & refused & more & o & Hids & Hrun & Ho)
      end.
      { cbn. rewrite Hw. apply delete_ids_snoc. }
      exists (SnapshotId s :: deleted), refused, more, o.
      split; [simpl; now rewrite Hids|]. split; [|exact Ho].
      rewrite Hrun. f_equal. f_equal.
      * unfold after_deletions. cbn.
        rewrite <- !app_assoc. cbn.
        rewrite !map_app, <- !app_assoc. reflexivity.
      * cbn [length]. now rewrite Nat.iter_succ_r.
    + exists [], [SnapshotId s],
        (map SnapshotId (List.filter (ec2_expired c) snaps)),
        (Raise "InvalidSnapshot.NotFound").
      simpl. now rewrite app_nil_r, <- Hw.
Qed.

Lemma rds_loop_run (snaps : list DBSnapshot) : forall (done : list string) w0 w l,
  db_snapshots w = delete_db_ids done (db_snapshots w0) ->
  exists deleted refused more o,
    map DBSnapshotIdentifier (List.filter (rds_expired c) snaps)
      = deleted ++ refused ++ more /\
    for_each snaps (cleanup_rds_snapshot c) w l
    = (after_db_deletions w (delete_db_ids (done ++ deleted) (db_snapshots w0))
         (map DeleteDBSnapshot (refused ++ rev deleted) ++ calls w),
       Nat.iter (length deleted) (increment "rds_snapshots_deleted") l, o) /\
    match o with
    | Ret _ => refused = [] /\ more = []
    | Raise _ => length refused = 1%nat
    end.
Proof.
  induction snaps as [|s snaps IH]; intros done w0 w l Hw.
  - exists [], [], [], (Ret tt). simpl. rewrite app_nil_r, <- Hw.
    now rewrite after_db_deletions_id.
  - rewrite for_each_cons, cleanup_rds_snapshot_run. cbn [List.filter].
    destruct (rds_expired c s) eqn:He; [|now apply IH].
    rewrite rds_delete_db_snapshot_run.
    destruct (fault w (calls w) (DeleteDBSnapshot (DBSnapshotIdentifier s)))
      as [e|] eqn:Hf;
      [|destruct (existsb (db_snapshot_has_id (DBSnapshotIdentifier s))
                    (db_snapshots w)) eqn:Hex].
    + exists [], [DBSnapshotIdentifier s],
        (map DBSnapshotIdentifier (List.filter (rds_expired c) snaps)), (Raise e).
      simpl. now rewrite app_nil_r, <- Hw.
    + match goal with
      | |- context [for_each snaps _ ?w1 ?l1] =>
          destruct (IH (done ++ [DBSnapshotIdentifier s]) w0 w1 l1)
            as (deleted & refused & more & o & Hids & Hrun & Ho)
      end.
      { cbn. rewrite Hw. apply delete_db_ids_snoc. }
      exists (DBSnapshotIdentifier s :: deleted), refused, more, o.
      split; [simpl; now rewrite Hids|]. split; [|exact Ho].
      rewrite Hrun. f_equal. f_equal.
      * unfold after_db_deletions. cbn.
        rewrite <- !app_assoc. cbn.
        rewrite !map_app, <- !app_assoc. reflexivity.
      * cbn [length]. now rewrite Nat.iter_succ_r.
    + exists [], [DBSnapshotIdentifier s],
        (map DBSnapshotIdentifier (List.filter (rds_expired c) snaps)),
        (Raise "DBSnapshotNotFound").
      simpl. now rewrite app_nil_r, <- Hw.
Qed.

End CleanupLoops.

(* ===================================================================== *)
(** * The calendar: the day before is an earlier date                    *)
(* ===================================================================== *)

Section Calendar.

Lemma holds_on_spec p bits : forall lo x,
  holds_on p lo bits = true -> lo <= x < lo + 2 ^ Z.of_nat bits -> p x = true.
Proof.
  induction bits as [|k IH]; intros lo x H Hx.
  - simpl in *. assert (x = lo) by lia. now subst.
  - cbn [holds_on] in H. apply andb_prop in H as [H1 H2].
    rewrite Nat2Z.inj_succ, Z.pow_succ_r in Hx by lia.
    destruct (Z_lt_ge_dec x (lo + 2 ^ Z.of_nat k)).
    + apply (IH lo); [assumption | lia].
    + apply (IH (lo + 2 ^ Z.of_nat k)); [assumption | lia].
Qed.

(** Checked by evaluation on the 146097 days of one cycle. *)
Lemma day_step_cycle : holds_on day_step 0 18 = true.
Proof. vm_cast_no_check (eq_refl true). Qed.

Lemma day_step_in_cycle (r : Z) :
  0 <= r < 146096 -> ymd_ltb (_ord2ymd (r + 1)) (_ord2ymd (r + 2)) = true.
Proof.
  intros Hr.
  pose proof (holds_on_spec day_step 18 0 r day_step_cycle) as H.
  unfold day_step in H. 
  assert ((146096 <=? r) = false) as E by (apply Z.leb_gt; lia).
  rewrite E in H. apply H. change (2 ^ Z.of_nat 18) with 262144. lia.
Qed.

(** The calendar repeats every 146097 days, 400 years later. *)
Lemma ord2ymd_cycle (n : Z) :
  0 <= n ->
  _ord2ymd (n + 1)
  = shift_year (400 * (n / _DI400Y)) (_ord2ymd (n mod _DI400Y + 1)).
Proof.
  intros Hn. unfold _ord2ymd.
  replace (n + 1 - 1) with n by lia.
  replace (n mod _DI400Y + 1 - 1) with (n mod _DI400Y) by lia.
  rewrite Z.mod_mod by (unfold _DI400Y; lia).
  rewrite (Z.div_small (n mod _DI400Y) _DI400Y)
    by (apply Z.mod_pos_bound; unfold _DI400Y; lia).
  set (r := n mod _DI400Y).
  set (n100 := r / _DI100Y). set (r1 := r mod _DI100Y).
  set (n4 := r1 / _DI4Y). set (r2 := r1 mod _DI4Y).
  set (n1 := r2 / 365). set (r3 := r2 mod 365).
  cbv zeta.
  repeat match goal with
         | |- context [if ?b then _ else _] => destruct b
         end; unfold shift_year; f_equal; f_equal; lia.
Qed.

Lemma ymd_ltb_shift (k : Z) (a b : Z * Z * Z) :
  ymd_ltb (shift_year k a) (shift_year k b) = ymd_ltb a b.
Proof.
  destruct a as [[y1 m1] d1], b as [[y2 m2] d2]. unfold shift_year, ymd_ltb.
  cbn [lex_compare].
  now rewrite !(Z.add_comm _ k), Z.add_compare_mono_l.
Qed.

(** The next day is a later date. *)
Lemma ord2ymd_step (o : Z) :
  1 <= o -> ymd_ltb (_ord2ymd o) (_ord2ymd (o + 1)) = true.
Proof.
  intros Ho.
  replace o with ((o - 1) + 1) at 1 by lia.
  set (n := o - 1). assert (Hn : 0 <= n) by lia.
  replace (o + 1) with ((n + 1) + 1) by lia.
  rewrite (ord2ymd_cycle n), (ord2ymd_cycle (n + 1)) by lia.
  pose proof (Z.div_mod n _DI400Y ltac:(unfold _DI400Y; lia)) as Hdm.
  pose proof (Z.mod_pos_bound n _DI400Y ltac:(unfold _DI400Y; lia)) as Hb.
  unfold _DI400Y in *.
  destruct (Z_lt_ge_dec (n mod 146097) 146096) as [Hlt | Hge].
  - assert ((n + 1) / 146097 = n / 146097) as ->.
    { symmetry. apply (Z.div_unique (n + 1) 146097 (n / 146097) (n mod 146097 + 1)); lia. }
    assert ((n + 1) mod 146097 = n mod 146097 + 1) as ->.
    { symmetry. apply (Z.mod_unique (n + 1) 146097 (n / 146097) (n mod 146097 + 1)); lia. }
    rewrite ymd_ltb_shift.
    replace (n mod 146097 + 1 + 1) with (n mod 146097 + 2) by lia.
    apply day_step_in_cycle. lia.
  - assert (n mod 146097 = 146096) as E by lia.
    assert ((n + 1) / 146097 = n / 146097 + 1) as ->.
    { symmetry. apply (Z.div_unique (n + 1) 146097 (n / 146097 + 1) 0); lia. }
    assert ((n + 1) mod 146097 = 0) as ->.
    { symmetry. apply (Z.mod_unique (n + 1) 146097 (n / 146097 + 1) 0); lia. }
    rewrite E.
    change (_ord2ymd (146096 + 1)) with (400, 12, 31).
    change (_ord2ymd (0 + 1)) with (1, 1, 1).
    unfold shift_year, ymd_ltb. cbn [lex_compare].
    assert (400 + 400 * (n / 146097) < 1 + 400 * (n / 146097 + 1)) as Hlt by lia.
    apply Z.compare_lt_iff in Hlt. now rewrite Hlt.
Qed.

(** Going back one more day gives an earlier datetime. *)
Lemma sub_days_succ (t : datetime) (n : Z) (c older : datetime) :
  sub_days t n = Some c -> sub_days t (n + 1) = Some older ->
  dt_ltb older c = true.
Proof.
  unfold sub_days.
  destruct (999999999 <? Z.abs n); [discriminate|].
  destruct (999999999 <? Z.abs (n + 1)); [discriminate|].
  set (o := _ymd2ord (year t) (month t) (day t) - n).
  replace (_ymd2ord (year t) (month t) (day t) - (n + 1)) with (o - 1) by lia.
  destruct ((0 <? o) && (o <=? _MAXORDINAL)) eqn:H1; [|discriminate].
  destruct ((0 <? o - 1) && (o - 1 <=? _MAXORDINAL)) eqn:H2; [|discriminate].
  apply andb_prop in H2 as [H2 _]. apply Z.ltb_lt in H2.
  pose proof (ord2ymd_step (o - 1) ltac:(lia)) as Hstep.
  replace (o - 1 + 1) with o in Hstep by lia.
  destruct (_ord2ymd o) as [[y m] d], (_ord2ymd (o - 1)) as [[y' m'] d'].
  intros [= <-] [= <-].
  unfold ymd_ltb in Hstep. unfold dt_ltb, dt_compare, fields. cbn [year month day hour minute second microsecond].
  cbn [lex_compare] in *.
  destruct (y' ?= y); try discriminate; try reflexivity.
  destruct (m' ?= m); try discriminate; try reflexivity.
  destruct (d' ?= d); try discriminate; try reflexivity.
Qed.

End Calendar.

(* ===================================================================== *)
(** * [cleanup_old_backups] against a provider that refuses nothing      *)
(* ===================================================================== *)

Section Cleanup.

Lemma delete_ids_cons i ids l :
  delete_ids ids (List.filter (fun s => negb (snapshot_has_id i s)) l)
  = delete_ids (i :: ids) l.
Proof.
  unfold delete_ids. rewrite filter_filter. apply filter_ext. intros s.
  simpl. unfold snapshot_has_id. now rewrite negb_orb.
Qed.

Lemma delete_db_ids_cons i ids l :
  delete_db_ids ids (List.filter (fun s => negb (db_snapshot_has_id i s)) l)
  = delete_db_ids (i :: ids) l.
Proof.
  unfold delete_db_ids. rewrite filter_filter. apply filter_ext. intros s.
  simpl. unfold db_snapshot_has_id. now rewrite negb_orb.
Qed.

Lemma existsb_has_id (s : Snapshot) (l : list Snapshot) :
  In s l -> existsb (snapshot_has_id (SnapshotId s)) l = true.
Proof.
  intros H. apply existsb_exists. exists s. split; [assumption|].
  apply String.eqb_refl.
Qed.

Lemma existsb_db_has_id (s : DBSnapshot) (l : list DBSnapshot) :
  In s l -> existsb (db_snapshot_has_id (DBSnapshotIdentifier s)) l = true.
Proof.
  intros H. apply existsb_exists. exists s. split; [assumption|].
  apply String.eqb_refl.
Qed.

Variable c : datetime.

(** With a provider that refuses nothing and distinct snapshot ids, the
    loop deletes every expired snapshot. *)
Lemma ec2_loop_reliable (snaps : list Snapshot) : forall w l,
  reliable w -> List.NoDup (map SnapshotId snaps) ->
  (forall s, In s snaps -> In s (snapshots w)) ->
  for_each snaps (cleanup_ec2_snapshot c) w l
  = (after_deletions w (delete_ids (expired_ids c snaps) (snapshots w))
       (rev (map DeleteSnapshot (expired_ids c snaps)) ++ calls w),
     Nat.iter (length (expired_ids c snaps))
       (increment "ec2_snapshots_deleted") l,
     Ret tt).
Proof.
  unfold expired_ids.
  induction snaps as [|s snaps IH]; intros w l Hrel Hnd Hin.
  - simpl. now rewrite delete_ids_nil, after_deletions_id.
  - rewrite for_each_cons, cleanup_ec2_snapshot_run. cbn [List.filter].
    cbn [map] in Hnd. apply List.NoDup_cons_iff in Hnd as [Hs Hnd].
    destruct (ec2_expired c s) eqn:He.
    + rewrite ec2_delete_snapshot_run, Hrel.
      rewrite existsb_has_id by (apply Hin; now left).
      rewrite IH; [| exact Hrel | exact Hnd |].
      * cbn [map length]. rewrite Nat.iter_succ_r. f_equal. f_equal.
        unfold after_deletions. cbn -[delete_ids].
        rewrite delete_ids_cons, <- app_assoc. reflexivity.
      * intros s' Hs'. cbn. apply filter_In. split; [apply Hin; now right|].
        apply negb_true_iff. unfold snapshot_has_id.
        apply String.eqb_neq. intros E. apply Hs. rewrite <- E.
        now apply in_map.
    + apply IH; [exact Hrel | exact Hnd |].
      intros s' Hs'. apply Hin. now right.
Qed.

Lemma rds_loop_reliable (snaps : list DBSnapshot) : forall w l,
  reliable w -> List.NoDup (map DBSnapshotIdentifier snaps) ->
  (forall s, In s snaps -> In s (db_snapshots w)) ->
  for_each snaps (cleanup_rds_snapshot c) w l
  = (after_db_deletions w
       (delete_db_ids (expired_db_ids c snaps) (db_snapshots w))
       (rev (map DeleteDBSnapshot (expired_db_ids c snaps)) ++ calls w),
     Nat.iter (length (expired_db_ids c snaps))
       (increment "rds_snapshots_deleted") l,
     Ret tt).
Proof.
  unfold expired_db_ids.
  induction snaps as [|s snaps IH]; intros w l Hrel Hnd Hin.
  - simpl. now rewrite delete_db_ids_nil, after_db_deletions_id.
  - rewrite for_each_cons, cleanup_rds_snapshot_run. cbn [List.filter].
    cbn [map] in Hnd. apply List.NoDup_cons_iff in Hnd as [Hs Hnd].
    destruct (rds_expired c s) eqn:He.
    + rewrite rds_delete_db_snapshot_run, Hrel.
      rewrite existsb_db_has_id by (apply Hin; now left).
      rewrite IH; [| exact Hrel | exact Hnd |].
      * cbn [map length]. rewrite Nat.iter_succ_r. f_equal. f_equal.
        unfold after_db_deletions. cbn -[delete_db_ids].
        rewrite delete_db_ids_cons, <- app_assoc. reflexivity.
      * intros s' Hs'. cbn. apply filter_In. split; [apply Hin; now right|].
        apply negb_true_iff. unfold db_snapshot_has_id.
        apply String.eqb_neq. intros E. apply Hs. rewrite <- E.
        now apply in_map.
    + apply IH; [exact Hrel | exact Hnd |].
      intros s' Hs'. apply Hin. now right.
Qed.

End Cleanup.

Section CleanupMethod.

Lemma increment_ec2 (e r : nat) :
  increment "ec2_snapshots_deleted" (cleanup_counts e r)
  = cleanup_counts (S e) r.
Proof.
  unfold increment, cleanup_counts. rewrite alter_insert_eq.
  f_equal. lia.
Qed.

Lemma increment_rds (e r : nat) :
  increment "rds_snapshots_deleted" (cleanup_counts e r)
  = cleanup_counts e (S r).
Proof.
  unfold increment, cleanup_counts.
  rewrite alter_insert_ne by done. rewrite alter_insert_eq.
  do 2 f_equal. lia.
Qed.

Lemma iter_increment_ec2 (n e r : nat) :
  Nat.iter n (increment "ec2_snapshots_deleted") (cleanup_counts e r)
  = cleanup_counts (n + e) r.
Proof.
  induction n as [|n IH]; [reflexivity|].
  now rewrite Nat.iter_succ, IH, increment_ec2.
Qed.

Lemma iter_increment_rds (n e r : nat) :
  Nat.iter n (increment "rds_snapshots_deleted") (cleanup_counts e r)
  = cleanup_counts e (n + r).
Proof.
  induction n as [|n IH]; [reflexivity|].
  now rewrite Nat.iter_succ, IH, increment_rds.
Qed.

Lemma cleanup_initial_counts : cleanup_initial = cleanup_counts 0 0.
Proof. reflexivity. Qed.

Lemma cleanup_counts_no_error (e r : nat) : cleanup_counts e r !! "error" = None.
Proof. reflexivity. Qed.

Lemma cleanup_old_backups_run self w c :
  cutoff self w = Some c ->
  cleanup_old_backups self w
  = (let '(w', l', _) :=
       (cleanup_ec2_snapshots c;; cleanup_rds_snapshots c) w cleanup_initial in
     (w', Ret l')).
Proof.
  intros Hc.
  unfold cleanup_old_backups, run, ask, try_except, locals, mret, M_ret, ret,
    mbind, M_bind, bind.
  rewrite Hc.
  destruct (cleanup_ec2_snapshots c w cleanup_initial) as [[w1 l1] [[]|e]];
    [destruct (cleanup_rds_snapshots c w1 l1) as [[w2 l2] [[]|e]]|];
    reflexivity.
Qed.

Lemma cleanup_old_backups_overflow self w :
  cutoff self w = None ->
  cleanup_old_backups self w = (w, Raise "OverflowError").
Proof.
  intros Hc. unfold cleanup_old_backups, run.
  rewrite !bind_run. unfold ask. now rewrite Hc.
Qed.

Lemma cleanup_ec2_snapshots_run c w l :
  cleanup_ec2_snapshots c w l
  = match fault w (calls w) (DescribeSnapshots []) with
    | Some e => (set_calls (cons (DescribeSnapshots [])) w, l, Raise e)
    | None =>
        for_each (snapshots w) (cleanup_ec2_snapshot c)
          (set_calls (cons (DescribeSnapshots [])) w) l
    end.
Proof.
  unfold cleanup_ec2_snapshots. rewrite bind_run, call_run.
  unfold ec2_describe_snapshots, provider.
  now destruct (fault w (calls w) (DescribeSnapshots [])).
Qed.

Lemma cleanup_rds_snapshots_run c w l :
  cleanup_rds_snapshots c w l
  = match fault w (calls w) (DescribeDBSnapshots None) with
    | Some e => (set_calls (cons (DescribeDBSnapshots None)) w, l, Raise e)
    | None =>
        for_each (manual_snapshots w) (cleanup_rds_snapshot c)
          (set_calls (cons (DescribeDBSnapshots None)) w) l
    end.
Proof.
  unfold cleanup_rds_snapshots. rewrite bind_run, call_run.
  unfold rds_describe_db_snapshots, provider.
  now destruct (fault w (calls w) (DescribeDBSnapshots None)).
Qed.

End CleanupMethod.

(* ===================================================================== *)
(** * [cleanup_old_backups]: what is deleted                             *)
(* ===================================================================== *)

Section CleanupFacts.

Lemma dt_ltb_fields (a a' b : datetime) :
  fields (replace_tzinfo_None a) = fields a' ->
  dt_ltb (replace_tzinfo_None a) b = dt_ltb a' b.
Proof. unfold dt_ltb, dt_compare. now intros ->. Qed.

Lemma NoDup_map_filter {A B : Type} (f : A -> B) (p : A -> bool) (l : list A) :
  List.NoDup (map f l) -> List.NoDup (map f (List.filter p l)).
Proof.
  induction l as [|x l IH]; simpl; [auto|].
  intros H. apply List.NoDup_cons_iff in H as [Hx Hl].
  destruct (p x); [|auto]. simpl. apply List.NoDup_cons_iff. split; [|auto].
  intros Hin. apply Hx. apply in_map_iff in Hin as (y & <- & Hy).
  apply in_map. apply filter_In in Hy. tauto.
Qed.

Lemma NoDup_map_inj {A B : Type} (f : A -> B) (l : list A) (x y : A) :
  List.NoDup (map f l) -> In x l -> In y l -> f x = f y -> x = y.
Proof.
  induction l as [|z l IH]; simpl; [tauto|].
  intros H. apply List.NoDup_cons_iff in H as [Hz Hl].
  intros [-> | Hx] [-> | Hy] E; auto.
  - exfalso. apply Hz. rewrite E. now apply in_map.
  - exfalso. apply Hz. rewrite <- E. now apply in_map.
Qed.

Lemma in_delete_ids (s : Snapshot) ids l :
  In s (delete_ids ids l) <-> In s l /\ ~ In (SnapshotId s) ids.
Proof.
  unfold delete_ids. rewrite filter_In, negb_true_iff.
  rewrite <- not_true_iff_false, existsb_exists.
  split; intros [H1 H2]; (split; [assumption|]).
  - intros Hin. apply H2. exists (SnapshotId s). split; [assumption|].
    apply String.eqb_refl.
  - intros (i & Hi & E). apply String.eqb_eq in E. now subst.
Qed.

Lemma in_delete_db_ids (s : DBSnapshot) ids l :
  In s (delete_db_ids ids l) <-> In s l /\ ~ In (DBSnapshotIdentifier s) ids.
Proof.
  unfold delete_db_ids. rewrite filter_In, negb_true_iff.
  rewrite <- not_true_iff_false, existsb_exists.
  split; intros [H1 H2]; (split; [assumption|]).
  - intros Hin. apply H2. exists (DBSnapshotIdentifier s).
    split; [assumption|]. apply String.eqb_refl.
  - intros (i & Hi & E). apply String.eqb_eq in E. now subst.
Qed.

Lemma expired_id_iff c l (s : Snapshot) :
  List.NoDup (map SnapshotId l) -> In s l ->
  In (SnapshotId s) (expired_ids c l) <-> ec2_expired c s = true.
Proof.
  intros Hnd Hs. unfold expired_ids. rewrite in_map_iff. split.
  - intros (s' & E & Hs'). apply filter_In in Hs' as [Hin He].
    now rewrite <- (NoDup_map_inj SnapshotId l s' s Hnd Hin Hs E).
  - intros He. exists s. split; [reflexivity|]. now apply filter_In.
Qed.

Lemma expired_db_id_iff c l (s : DBSnapshot) :
  List.NoDup (map DBSnapshotIdentifier l) -> In s l ->
  In (DBSnapshotIdentifier s) (expired_db_ids c l) <-> rds_expired c s = true.
Proof.
  intros Hnd Hs. unfold expired_db_ids. rewrite in_map_iff. split.
  - intros (s' & E & Hs'). apply filter_In in Hs' as [Hin He].
    now rewrite <- (NoDup_map_inj DBSnapshotIdentifier l s' s Hnd Hin Hs E).
  - intros He. exists s. split; [reflexivity|]. now apply filter_In.
Qed.

(** A complete run against a provider that refuses nothing. *)
Lemma cleanup_reliable self w c :
  cutoff self w = Some c -> reliable w ->
  List.NoDup (map SnapshotId (snapshots w)) ->
  List.NoDup (map DBSnapshotIdentifier (db_snapshots w)) ->
  exists w',
    cleanup_old_backups self w
    = (w', Ret (cleanup_counts
                  (length (expired_ids c (snapshots w)))
                  (length (expired_db_ids c (manual_snapshots w))))) /\
    snapshots w' = delete_ids (expired_ids c (snapshots w)) (snapshots w) /\
    db_snapshots w'
    = delete_db_ids (expired_db_ids c (manual_snapshots w)) (db_snapshots w) /\
    fault w' = fault w /\ now w' = now w /\
    calls w'
    = rev (map DeleteDBSnapshot (expired_db_ids c (manual_snapshots w)))
      ++ DescribeDBSnapshots None
      :: rev (map DeleteSnapshot (expired_ids c (snapshots w)))
      ++ DescribeSnapshots [] :: calls w.
Proof.
  intros Hc Hrel Hnd Hdb.
  rewrite (cleanup_old_backups_run self w c Hc).
  rewrite bind_run, cleanup_ec2_snapshots_run, Hrel.
  rewrite ec2_loop_reliable; [| exact Hrel | exact Hnd | auto].
  rewrite cleanup_rds_snapshots_run.
  cbn [fault after_deletions set_snapshots set_calls]. rewrite Hrel.
  rewrite rds_loop_reliable;
    [| exact Hrel | now apply NoDup_map_filter
     | intros s Hs; apply filter_In in Hs; tauto].
  rewrite cleanup_initial_counts, iter_increment_ec2, iter_increment_rds.
  rewrite !Nat.add_0_r.
  eexists. split; [reflexivity|]. cbn -[delete_ids delete_db_ids].
  repeat split; reflexivity.
Qed.

(** C3.  Against a provider that refuses nothing, [cleanup_old_backups]
    deletes a tagged snapshot exactly when its creation time is strictly
    before [now - retention_days]: a snapshot created at the cutoff stays,
    one created a day before the cutoff goes, and the two categories use
    the same cutoff. *)
Theorem cleanup_deletes_exactly_the_expired self w c :
  cutoff self w = Some c -> reliable w ->
  List.NoDup (map SnapshotId (snapshots w)) ->
  List.NoDup (map DBSnapshotIdentifier (db_snapshots w)) ->
  exists w' r,
    cleanup_old_backups self w = (w', Ret r) /\
    (forall s, In s (snapshots w) -> tagged s = true ->
       (~ In s (snapshots w')
        <-> dt_ltb (replace_tzinfo_None (StartTime s)) c = true)) /\
    (forall s, In s (manual_snapshots w) -> db_tagged s = true ->
       (~ In s (db_snapshots w')
        <-> dt_ltb (replace_tzinfo_None (SnapshotCreateTime s)) c = true)) /\
    (forall s, In s (snapshots w) -> tagged s = true ->
       fields (StartTime s) = fields c -> In s (snapshots w')) /\
    (forall s, In s (manual_snapshots w) -> db_tagged s = true ->
       fields (SnapshotCreateTime s) = fields c -> In s (db_snapshots w')) /\
    (forall older,
       sub_days (now w) (retention_days self + 1) = Some older ->
       (forall s, In s (snapshots w) -> tagged s = true ->
          fields (StartTime s) = fields older -> ~ In s (snapshots w')) /\
       (forall s, In s (manual_snapshots w) -> db_tagged s = true ->
          fields (SnapshotCreateTime s) = fields older ->
          ~ In s (db_snapshots w'))).
Proof.
  intros Hc Hrel Hnd Hdb.
  destruct (cleanup_reliable self w c Hc Hrel Hnd Hdb)
    as (w' & Hrun & Hsn & Hdbsn & _).
  assert (Hkeep : forall s, In s (snapshots w) ->
            (In s (snapshots w') <-> ec2_expired c s = false)).
  { intros s Hs. rewrite Hsn, in_delete_ids.
    rewrite (expired_id_iff c _ s Hnd Hs).
    destruct (ec2_expired c s); split; try tauto; try congruence.
    intros _. split; [assumption | congruence]. }
  assert (Hdbkeep : forall s, In s (manual_snapshots w) ->
            (In s (db_snapshots w') <-> rds_expired c s = false)).
  { intros s Hs. rewrite Hdbsn, in_delete_db_ids.
    rewrite (expired_db_id_iff c _ s (NoDup_map_filter _ _ _ Hdb) Hs).
    apply filter_In in Hs as [Hs _].
    destruct (rds_expired c s); split; try tauto; try congruence.
    intros _. split; [assumption | congruence]. }
  exists w'. eexists. split; [exact Hrun|].
  repeat split.
  - intros Hn. specialize (Hkeep s H). unfold ec2_expired in Hkeep.
    fold (tagged s) in Hkeep. rewrite H0, andb_true_r in Hkeep.
    destruct (dt_ltb (replace_tzinfo_None (StartTime s)) c);
      [reflexivity | exfalso; tauto].
  - intros Hlt Hin. apply (Hkeep s H) in Hin. unfold ec2_expired in Hin.
    fold (tagged s) in Hin. rewrite H0, Hlt in Hin. discriminate.
  - intros Hn. specialize (Hdbkeep s H). unfold rds_expired in Hdbkeep.
    fold (db_tagged s) in Hdbkeep. rewrite H0, andb_true_r in Hdbkeep.
    destruct (dt_ltb (replace_tzinfo_None (SnapshotCreateTime s)) c);
      [reflexivity | exfalso; tauto].
  - intros Hlt Hin. apply (Hdbkeep s H) in Hin. unfold rds_expired in Hin.
    fold (db_tagged s) in Hin. rewrite H0, Hlt in Hin. discriminate.
  - intros s Hs Ht Hf. apply (Hkeep s Hs). unfold ec2_expired.
    rewrite dt_ltb_irrefl; [reflexivity | exact Hf].
  - intros s Hs Ht Hf. apply (Hdbkeep s Hs). unfold rds_expired.
    rewrite dt_ltb_irrefl; [reflexivity | exact Hf].
  - intros s Hs Ht Hf Hin. apply (Hkeep s Hs) in Hin.
    unfold ec2_expired in Hin. fold (tagged s) in Hin.
    rewrite Ht, andb_true_r in Hin.
    rewrite (dt_ltb_fields _ older) in Hin by exact Hf.
    rewrite (sub_days_succ _ _ _ _ Hc H) in Hin. discriminate.
  - intros s Hs Ht Hf Hin. apply (Hdbkeep s Hs) in Hin.
    unfold rds_expired in Hin. fold (db_tagged s) in Hin.
    rewrite Ht, andb_true_r in Hin.
    rewrite (dt_ltb_fields _ older) in Hin by exact Hf.
    rewrite (sub_days_succ _ _ _ _ Hc H) in Hin. discriminate.
Qed.

End CleanupFacts.

(* ===================================================================== *)
(** * [cleanup_old_backups]: second run, interrupted run                 *)
(* ===================================================================== *)

Section Rerun.

Lemma filter_none {A : Type} (p : A -> bool) (l : list A) :
  (forall x, In x l -> p x = false) -> List.filter p l = [].
Proof.
  induction l as [|x l IH]; intros H; simpl; [reflexivity|].
  rewrite (H x) by now left. apply IH. intros y Hy. apply H. now right.
Qed.

(** C8.  After a complete run, a second run finds nothing to delete, as
    long as no remaining snapshot has become older than the cutoff in
    between: all three counts are 0 and the provider keeps its snapshots. *)
Theorem cleanup_rerun_deletes_nothing self w c w1 r1 t2 c2 :
  cutoff self w = Some c -> reliable w ->
  List.NoDup (map SnapshotId (snapshots w)) ->
  List.NoDup (map DBSnapshotIdentifier (db_snapshots w)) ->
  cleanup_old_backups self w = (w1, Ret r1) ->
  sub_days t2 (retention_days self) = Some c2 ->
  (forall s, In s (snapshots w1) ->
     ec2_expired c2 s = true -> ec2_expired c s = true) ->
  (forall s, In s (db_snapshots w1) ->
     rds_expired c2 s = true -> rds_expired c s = true) ->
  exists w2,
    cleanup_old_backups self (set_now t2 w1) = (w2, Ret cleanup_initial) /\
    snapshots w2 = snapshots w1 /\ db_snapshots w2 = db_snapshots w1.
Proof.
  intros Hc Hrel Hnd Hdb Hrun Hc2 Hnew Hdbnew.
  destruct (cleanup_reliable self w c Hc Hrel Hnd Hdb)
    as (w' & Hrun' & Hsn & Hdbsn & Hf & _).
  rewrite Hrun in Hrun'. injection Hrun' as <- _.
  assert (Hnone : List.filter (ec2_expired c2) (snapshots w1) = []).
  { apply filter_none. intros s Hs.
    destruct (ec2_expired c2 s) eqn:He; [|reflexivity]. exfalso.
    pose proof (Hnew s Hs He) as He1.
    rewrite Hsn in Hs. apply in_delete_ids in Hs as [Hin Hid].
    apply Hid. now apply expired_id_iff. }
  assert (Hdbnone : List.filter (rds_expired c2)
                      (manual_snapshots (set_now t2 w1)) = []).
  { apply filter_none. intros s Hs. unfold manual_snapshots in Hs.
    cbn [db_snapshots set_now] in Hs. apply filter_In in Hs as [Hs Hman].
    destruct (rds_expired c2 s) eqn:He; [|reflexivity]. exfalso.
    pose proof (Hdbnew s Hs He) as He1.
    rewrite Hdbsn in Hs. apply in_delete_db_ids in Hs as [Hin Hid].
    apply Hid. apply expired_db_id_iff.
    - now apply NoDup_map_filter.
    - apply filter_In. now split.
    - exact He1. }
  destruct (cleanup_reliable self (set_now t2 w1) c2) as (w2 & Hrun2 & Hs2 & Hd2 & _).
  - exact Hc2.
  - intros h k. cbn. rewrite Hf. apply Hrel.
  - cbn [snapshots set_now]. rewrite Hsn. now apply NoDup_map_filter.
  - cbn [db_snapshots set_now]. rewrite Hdbsn. now apply NoDup_map_filter.
  - exists w2. unfold expired_ids, expired_db_ids in *.
    cbn [snapshots set_now] in Hrun2, Hs2.
    rewrite Hnone, Hdbnone in *. cbn [map length] in *.
    rewrite delete_ids_nil in Hs2. rewrite delete_db_ids_nil in Hd2.
    split; [exact Hrun2|]. split; assumption.
Qed.

(** C10.  When the first loop of [cleanup_old_backups] is stopped by an
    exception, the method returns at once: the second loop issues no call,
    the snapshots deleted so far stay deleted, and the result holds the
    count reached, without an error entry. *)
Theorem cleanup_is_not_atomic self w c w1 r1 e :
  cutoff self w = Some c ->
  cleanup_ec2_snapshots c w cleanup_initial = (w1, r1, Raise e) ->
  cleanup_old_backups self w = (w1, Ret r1) /\
  r1 !! "error" = None /\
  db_snapshots w1 = db_snapshots w /\
  exists deleted refused more,
    r1 = cleanup_counts (length deleted) 0 /\
    snapshots w1 = delete_ids deleted (snapshots w) /\
    calls w1 = map DeleteSnapshot (refused ++ rev deleted)
               ++ DescribeSnapshots [] :: calls w /\
    (length refused <= 1)%nat /\
    (refused <> [] ->
     expired_ids c (snapshots w) = deleted ++ refused ++ more).
Proof.
  intros Hc Hphase. split.
  { rewrite (cleanup_old_backups_run self w c Hc), bind_run, Hphase.
    reflexivity. }
  rewrite cleanup_ec2_snapshots_run in Hphase.
  destruct (fault w (calls w) (DescribeSnapshots [])) as [e'|].
  - injection Hphase as <- <- <-.
    split; [reflexivity|]. split; [reflexivity|].
    exists [], [], [].
    split; [reflexivity|]. split; [cbn; now rewrite delete_ids_nil|].
    split; [reflexivity|]. split; [simpl; lia | congruence].
  - destruct (ec2_loop_run c (snapshots w) [] w
                (set_calls (cons (DescribeSnapshots [])) w) cleanup_initial)
      as (deleted & refused & more & o & Hids & Hloop & Ho).
    { cbn. now rewrite delete_ids_nil. }
    rewrite Hloop in Hphase. injection Hphase as <- <- ->.
    rewrite cleanup_initial_counts, iter_increment_ec2, Nat.add_0_r.
    split; [apply cleanup_counts_no_error|]. split; [reflexivity|].
    exists deleted, refused, more. repeat split; try reflexivity.
    + lia.
    + intros _. exact Hids.
Qed.

End Rerun.

(* ===================================================================== *)
(** * Properties kept by every statement                                 *)
(* ===================================================================== *)

Section Keeps.

(** [R] relates the provider state before and after a statement. *)
Variable R : World -> World -> Prop.
Hypothesis R_refl : forall w, R w w.
Hypothesis R_trans : forall w1 w2 w3, R w1 w2 -> R w2 w3 -> R w1 w3.

Local Abbreviation keeps := (keeps R).
Local Abbreviation op_keeps := (op_keeps R).

Lemma keeps_ret {L A} (a : A) : keeps (ret a : M L A).
Proof. intros w l. apply R_refl. Qed.

Lemma keeps_mret {L A} (a : A) : keeps (mret a : M L A).
Proof. intros w l. apply R_refl. Qed.

Lemma keeps_raise {L A} (e : exn) : keeps (raise e : M L A).
Proof. intros w l. apply R_refl. Qed.

Lemma keeps_ask {L A} (f : World -> A) : keeps (ask f : M L A).
Proof. intros w l. apply R_refl. Qed.

Lemma keeps_locals {L} : keeps (locals : M L L).
Proof. intros w l. apply R_refl. Qed.

Lemma keeps_update {L} (f : L -> L) : keeps (update f).
Proof. intros w l. apply R_refl. Qed.

Lemma keeps_call {L A} (op : World -> World * outcome A) :
  op_keeps op -> keeps (call op : M L A).
Proof. intros H w l. rewrite call_run. apply H. Qed.

Lemma keeps_bind {L A B} (m : M L A) (k : A -> M L B) :
  keeps m -> (forall a, keeps (k a)) -> keeps (m ≫= k).
Proof.
  intros Hm Hk w l. rewrite bind_run. specialize (Hm w l).
  destruct (m w l) as [[w1 l1] [a|e]]; [|exact Hm].
  eapply R_trans; [exact Hm | apply Hk].
Qed.

Lemma keeps_try {L A} (m : M L A) (h : exn -> M L A) :
  keeps m -> (forall e, keeps (h e)) -> keeps (try_except m h).
Proof.
  intros Hm Hh w l. unfold try_except. specialize (Hm w l).
  destruct (m w l) as [[w1 l1] [a|e]]; [exact Hm|].
  eapply R_trans; [exact Hm | apply Hh].
Qed.

Lemma keeps_for_each {L X} (xs : list X) (body : X -> M L unit) :
  (forall x, In x xs -> keeps (body x)) -> keeps (for_each xs body).
Proof.
  induction xs as [|x xs IH]; intros H w l; [apply R_refl|].
  rewrite for_each_cons. pose proof (H x (or_introl eq_refl) w l) as Hx.
  destruct (body x w l) as [[w1 l1] [[]|e]]; [|exact Hx].
  eapply R_trans; [exact Hx|]. apply IH. intros y Hy. apply H. now right.
Qed.

Lemma keeps_if {L A} (b : bool) (m1 m2 : M L A) :
  keeps m1 -> keeps m2 -> keeps (if b then m1 else m2).
Proof. now destruct b. Qed.

Lemma keeps_run {L A} (init : L) (m : M L A) :
  keeps m -> op_keeps (run init m).
Proof.
  intros H w. unfold run. specialize (H w init).
  now destruct (m w init) as [[w1 l1] o].
Qed.

End Keeps.

Section Frame.

Lemma frame_refl w : frame w w.
Proof. unfold frame. tauto. Qed.

Lemma frame_trans w1 w2 w3 : frame w1 w2 -> frame w2 w3 -> frame w1 w3.
Proof. unfold frame. intuition congruence. Qed.

Lemma issued_refl P w : issued P w w.
Proof. exists []. split; [reflexivity | constructor]. Qed.

Lemma issued_trans P w1 w2 w3 :
  issued P w1 w2 -> issued P w2 w3 -> issued P w1 w3.
Proof.
  intros (n1 & E1 & F1) (n2 & E2 & F2). exists (n2 ++ n1).
  split; [now rewrite E2, E1, app_assoc | now apply Forall_app].
Qed.

Lemma provider_frame {A} (c : Call) (sem : World -> World * outcome A) :
  (forall w, frame w (fst (sem w))) -> op_keeps frame (provider c sem).
Proof.
  intros H w. unfold provider. destruct (fault w (calls w) c).
  - cbn. unfold frame. cbn. tauto.
  - eapply frame_trans; [|apply H]. unfold frame. cbn. tauto.
Qed.

Lemma provider_issued {A} P (c : Call) (sem : World -> World * outcome A) :
  P c -> (forall w, calls (fst (sem w)) = calls w) ->
  op_keeps (issued P) (provider c sem).
Proof.
  intros Hc H w. unfold provider. exists [c].
  split; [|now repeat constructor].
  destruct (fault w (calls w) c); [reflexivity|]. now rewrite H.
Qed.

End Frame.

Ltac solve_sem :=
  intros;
  repeat match goal with
         | |- context [match ?x with _ => _ end] => destruct x
         end;
  cbn; unfold frame; cbn; tauto.

Ltac solve_frame_op :=
  apply provider_frame; solve_sem.

Ltac solve_calls_sem :=
  intros;
  repeat match goal with
         | |- context [match ?x with _ => _ end] => destruct x
         end;
  reflexivity.

Section Ops.

Lemma ec2_describe_instances_frame ids : op_keeps frame (ec2_describe_instances ids).
Proof. solve_frame_op. Qed.
Lemma ec2_create_snapshot_frame v d t : op_keeps frame (ec2_create_snapshot v d t).
Proof. solve_frame_op. Qed.
Lemma ec2_describe_snapshots_frame ids : op_keeps frame (ec2_describe_snapshots ids).
Proof. solve_frame_op. Qed.
Lemma ec2_delete_snapshot_frame i : op_keeps frame (ec2_delete_snapshot i).
Proof. solve_frame_op. Qed.
Lemma rds_describe_db_instances_frame i : op_keeps frame (rds_describe_db_instances i).
Proof. solve_frame_op. Qed.
Lemma rds_create_db_snapshot_frame s d t : op_keeps frame (rds_create_db_snapshot s d t).
Proof. solve_frame_op. Qed.
Lemma rds_describe_db_snapshots_frame i : op_keeps frame (rds_describe_db_snapshots i).
Proof. solve_frame_op. Qed.
Lemma rds_delete_db_snapshot_frame i : op_keeps frame (rds_delete_db_snapshot i).
Proof. solve_frame_op. Qed.
Lemma s3_head_bucket_frame b : op_keeps frame (s3_head_bucket b).
Proof. solve_frame_op. Qed.
Lemma s3_create_bucket_frame b l : op_keeps frame (s3_create_bucket b l).
Proof. solve_frame_op. Qed.
Lemma s3_put_bucket_versioning_frame b : op_keeps frame (s3_put_bucket_versioning b).
Proof. solve_frame_op. Qed.
Lemma s3_put_bucket_lifecycle_configuration_frame b x y z :
  op_keeps frame (s3_put_bucket_lifecycle_configuration b x y z).
Proof. solve_frame_op. Qed.
Lemma s3_list_buckets_frame : op_keeps frame s3_list_buckets.
Proof. solve_frame_op. Qed.
Lemma s3_fetch_page_frame b p i pg : op_keeps frame (s3_fetch_page b p i pg).
Proof. solve_frame_op. Qed.
Lemma s3_copy_object_frame a b c d e : op_keeps frame (s3_copy_object a b c d e).
Proof. solve_frame_op. Qed.
Lemma s3_list_common_prefixes_frame b p : op_keeps frame (s3_list_common_prefixes b p).
Proof. solve_frame_op. Qed.
Lemma sns_publish_frame t m s : op_keeps frame (sns_publish t m s).
Proof. solve_frame_op. Qed.

End Ops.

Create HintDb bodies.
#[global] Hint Unfold _send_notification backup_ec2_volume backup_ec2_instance resolve_db
  backup_rds_database _ensure_backup_bucket backup_s3_object backup_s3_page
  backup_s3_bucket s3_targets cleanup_ec2_snapshot cleanup_rds_snapshot
  cleanup_ec2_snapshots cleanup_rds_snapshots restore_s3_object
  restore_s3_page : bodies.

Create HintDb frame_ops.
#[global] Hint Resolve ec2_describe_instances_frame ec2_create_snapshot_frame
  ec2_describe_snapshots_frame ec2_delete_snapshot_frame
  rds_describe_db_instances_frame rds_create_db_snapshot_frame
  rds_describe_db_snapshots_frame rds_delete_db_snapshot_frame
  s3_head_bucket_frame s3_create_bucket_frame s3_put_bucket_versioning_frame
  s3_put_bucket_lifecycle_configuration_frame s3_list_buckets_frame
  s3_fetch_page_frame s3_copy_object_frame s3_list_common_prefixes_frame
  sns_publish_frame : frame_ops.

(** Decompose a statement along its structure; what is left are the
    provider calls. *)
Ltac keeps_structure refl trans :=
  repeat (intros;
          match goal with
          | |- keeps _ (_ ≫= _) => apply (keeps_bind _ trans)
          | |- keeps _ (try_except _ _) => apply (keeps_try _ trans)
          | |- keeps _ (for_each _ _) => apply (keeps_for_each _ refl trans)
          | |- keeps _ (call _) => apply keeps_call
          | |- keeps _ (ret _) => apply (keeps_ret _ refl)
          | |- keeps _ (mret _) => apply (keeps_mret _ refl)
          | |- keeps _ (raise _) => apply (keeps_raise _ refl)
          | |- keeps _ (ask _) => apply (keeps_ask _ refl)
          | |- keeps _ locals => apply (keeps_locals _ refl)
          | |- keeps _ (update _) => apply (keeps_update _ refl)
          | |- keeps _ (if ?b then _ else _) => destruct b
          | |- keeps _ (match ?x with _ => _ end) => destruct x
          | |- op_keeps _ (run _ _) => apply keeps_run
          | |- keeps _ _ => progress autounfold with bodies
          end).

Ltac frame_tac :=
  keeps_structure frame_refl frame_trans; auto with frame_ops.

Section MethodFrames.

Variable self : BackupManager.

Lemma backup_ec2_instances_frame ids :
  op_keeps frame (backup_ec2_instances self ids).
Proof. unfold backup_ec2_instances. frame_tac. Qed.

Lemma backup_rds_databases_frame ids :
  op_keeps frame (backup_rds_databases self ids).
Proof. unfold backup_rds_databases. frame_tac. Qed.

Lemma backup_s3_buckets_frame names :
  op_keeps frame (backup_s3_buckets self names).
Proof. unfold backup_s3_buckets. frame_tac. Qed.

Lemma cleanup_old_backups_frame : op_keeps frame (cleanup_old_backups self).
Proof. unfold cleanup_old_backups. frame_tac. Qed.

(** The three category methods catch everything: they always return their
    [results]. *)
Lemma backup_ec2_instances_returns ids w :
  exists r, snd (backup_ec2_instances self ids w) = Ret r.
Proof.
  unfold backup_ec2_instances, run. rewrite bind_run. unfold try_except.
  match goal with
  | |- context [match ?m w empty_results with _ => _ end] =>
      destruct (m w empty_results) as [[w1 l1] [[]|e]]
  end; cbn; eauto.
Qed.

Lemma backup_rds_databases_returns ids w :
  exists r, snd (backup_rds_databases self ids w) = Ret r.
Proof.
  unfold backup_rds_databases, run. rewrite bind_run. unfold try_except.
  match goal with
  | |- context [match ?m w ?i with _ => _ end] =>
      destruct (m w i) as [[w1 l1] [[]|e]]
  end; cbn; eauto.
Qed.

Lemma backup_s3_buckets_returns names w :
  exists r, snd (backup_s3_buckets self names w) = Ret r.
Proof.
  unfold backup_s3_buckets, run. rewrite bind_run. unfold try_except.
  match goal with
  | |- context [match ?m w ?i with _ => _ end] =>
      destruct (m w i) as [[w1 l1] [[]|e]]
  end; cbn; eauto.
Qed.

End MethodFrames.

(* ===================================================================== *)
(** * [run_full_backup]                                                  *)
(* ===================================================================== *)

Section FullBackup.

Variable self : BackupManager.

Lemma cleanup_returns w :
  cutoff self w <> None -> exists r, snd (cleanup_old_backups self w) = Ret r.
Proof.
  destruct (cutoff self w) as [c|] eqn:Hc; [intros _|congruence].
  rewrite (cleanup_old_backups_run self w c Hc).
  match goal with
  | |- context [match ?x with _ => _ end] => destruct x as [[w' l'] o]
  end.
  cbn. eauto.
Qed.

(** [run_full_backup], statement by statement. *)
Lemma run_full_backup_run w :
  run_full_backup self w
  = match backup_ec2_instances self [] w with
    | (w1, Ret ec2) =>
        match backup_rds_databases self [] w1 with
        | (w2, Ret rds) =>
            match backup_s3_buckets self [] w2 with
            | (w3, Ret s3) =>
                match cleanup_old_backups self w3 with
                | (w4, Ret cleanup) =>
                    (fst (fst (_send_notification (L := unit) self
                       ("Full Backup Pipeline Complete" +:+ String "010" "Successful: "
                        +:+ pretty (total_success ec2 rds s3) +:+ String "010" "Failed: "
                        +:+ pretty (total_failed ec2 rds s3) +:+ String "010" "Status: "
                        +:+ str_field "backup_status" (summary_of ec2 rds s3)) w4 tt)),
                     Ret (mkFullBackupResults (isoformat (now w)) ec2 rds s3
                            cleanup (summary_of ec2 rds s3)))
                | (w4, Raise e) => (w4, Raise e)
                end
            | (w3, Raise e) => (w3, Raise e)
            end
        | (w2, Raise e) => (w2, Raise e)
        end
    | (w1, Raise e) => (w1, Raise e)
    end.
Proof.
  unfold run_full_backup, run. rewrite !bind_run. unfold ask.
  rewrite bind_run, call_run.
  destruct (backup_ec2_instances self [] w) as [w1 [ec2|e]]; [|reflexivity].
  cbn [fst snd]. rewrite bind_run, call_run.
  destruct (backup_rds_databases self [] w1) as [w2 [rds|e]]; [|reflexivity].
  cbn [fst snd]. rewrite bind_run, call_run.
  destruct (backup_s3_buckets self [] w2) as [w3 [s3|e]]; [|reflexivity].
  cbn [fst snd]. rewrite bind_run, call_run.
  destruct (cleanup_old_backups self w3) as [w4 [cl|e]]; [|reflexivity].
  cbn [fst snd]. rewrite bind_run.
  assert (Hn : forall msg, exists w5,
             _send_notification (L := unit) self msg w4 tt = (w5, tt, Ret tt)).
  { intros msg. unfold _send_notification.
    destruct (sns_topic_arn self) as [topic|]; [|eexists; reflexivity].
    destruct (String.eqb topic ""); [eexists; reflexivity|].
    unfold try_except. rewrite call_run.
    destruct (sns_publish _ _ _ w4) as [w5 [[]|e]]; eexists; reflexivity. }
  match goal with
  | |- context [_send_notification self ?msg w4 tt] =>
      destruct (Hn msg) as [w5 ->]
  end.
  reflexivity.
Qed.

Lemma summary_status_success ec2 rds s3 :
  total_failed ec2 rds s3 = 0%nat ->
  summary_of ec2 rds s3 !! "backup_status" = Some (VStr "SUCCESS").
Proof. intros H. unfold summary_of, backup_status. now rewrite H. Qed.

Lemma summary_status_partial ec2 rds s3 :
  (0 < total_failed ec2 rds s3)%nat ->
  summary_of ec2 rds s3 !! "backup_status" = Some (VStr "PARTIAL_FAILURE").
Proof.
  intros H. unfold summary_of, backup_status.
  destruct (total_failed ec2 rds s3); [lia | reflexivity].
Qed.

(** C4, as amended.  [run_full_backup] returns whenever the cutoff can be
    computed; the totals of its summary are the sums of the lengths of the
    [success] and [failed] lists of the three category outcomes, the status
    is SUCCESS without failures and PARTIAL_FAILURE otherwise, and the
    tally of the cleanup is reported next to the summary without entering
    it. *)
Theorem run_full_backup_summary w :
  (cutoff self w <> None -> exists w' r, run_full_backup self w = (w', Ret r))
  /\
  forall w' r,
    run_full_backup self w = (w', Ret r) ->
    summary r !! "total_successful_backups"
    = Some (VInt (Z.of_nat (length (success (ec2_results r))
                            + length (success (rds_results_ r))
                            + length (success (s3_results_ r))))) /\
    summary r !! "total_failed_backups"
    = Some (VInt (Z.of_nat (length (failed (ec2_results r))
                            + length (failed (rds_results_ r))
                            + length (failed (s3_results_ r))))) /\
    (total_failed (ec2_results r) (rds_results_ r) (s3_results_ r) = 0%nat ->
     summary r !! "backup_status" = Some (VStr "SUCCESS")) /\
    ((0 < total_failed (ec2_results r) (rds_results_ r) (s3_results_ r))%nat ->
     summary r !! "backup_status" = Some (VStr "PARTIAL_FAILURE")) /\
    exists w1 w2 w3 w4,
      backup_ec2_instances self [] w = (w1, Ret (ec2_results r)) /\
      backup_rds_databases self [] w1 = (w2, Ret (rds_results_ r)) /\
      backup_s3_buckets self [] w2 = (w3, Ret (s3_results_ r)) /\
      cleanup_old_backups self w3 = (w4, Ret (cleanup_results r)).
Proof.
  rewrite run_full_backup_run.
  pose proof (backup_ec2_instances_frame self [] w) as F1.
  destruct (backup_ec2_instances_returns self [] w) as [ec2 R1].
  destruct (backup_ec2_instances self [] w) as [w1 o1] eqn:E1.
  cbn in R1, F1. subst o1.
  pose proof (backup_rds_databases_frame self [] w1) as F2.
  destruct (backup_rds_databases_returns self [] w1) as [rds R2].
  destruct (backup_rds_databases self [] w1) as [w2 o2] eqn:E2.
  cbn in R2, F2. subst o2.
  pose proof (backup_s3_buckets_frame self [] w2) as F3.
  destruct (backup_s3_buckets_returns self [] w2) as [s3 R3].
  destruct (backup_s3_buckets self [] w2) as [w3 o3] eqn:E3.
  cbn in R3, F3. subst o3.
  split.
  - intros Hc.
    assert (Hc3 : cutoff self w3 <> None).
    { unfold cutoff in *. destruct F1 as [N1 _], F2 as [N2 _], F3 as [N3 _].
      now rewrite N3, N2, N1. }
    destruct (cleanup_returns w3 Hc3) as [cl R4].
    destruct (cleanup_old_backups self w3) as [w4 o4]. cbn in R4. subst o4.
    eauto.
  - intros w' r H.
    destruct (cleanup_old_backups self w3) as [w4 [cl|e]] eqn:E4;
      [|discriminate].
    injection H as <- <-. cbn [summary ec2_results rds_results_ s3_results_
                                cleanup_results].
    split; [reflexivity|]. split; [reflexivity|].
    split; [apply summary_status_success|].
    split; [apply summary_status_partial|].
    exists w1, w2, w3, w4. auto.
Qed.

End FullBackup.

(** C4, as stated, fails: the tally of the cleanup is not added to the
    totals.  With five expired snapshots and one database, one backup
    succeeds and five snapshots are deleted, and the summary counts 1. *)
Lemma run_full_backup_ignores_cleanup_tally :
  exists w' r,
    run_full_backup manager with_snapshots = (w', Ret r) /\
    cleanup_tally (cleanup_results r) = 5 /\
    summary r !! "total_successful_backups" = Some (VInt 1) /\
    summary r !! "total_successful_backups"
    <> Some (VInt (Z.of_nat (total_success (ec2_results r) (rds_results_ r)
                               (s3_results_ r))
                   + cleanup_tally (cleanup_results r))).
Proof.
  eexists. eexists. split; [vm_compute; reflexivity|].
  split; [vm_compute; reflexivity|]. split; [vm_compute; reflexivity|].
  vm_compute. discriminate.
Qed.

(* ===================================================================== *)
(** * [validate_backup_integrity]                                        *)
(* ===================================================================== *)

Section Validate.

Lemma valid_lookup (b : bool) (d : pydict) :
  <["valid" := VBool b]> d !! "valid" = Some (VBool true) <-> b = true.
Proof.
  rewrite lookup_insert_eq. split; [now intros [= ->] | now intros ->].
Qed.

(** [validate_backup_integrity], branch by branch. *)
Lemma validate_backup_integrity_run backup_type backup_id w :
  validate_backup_integrity backup_type backup_id w
  = if String.eqb backup_type "ec2" then
      match ec2_describe_snapshots [backup_id] w with
      | (w1, Ret (snapshot :: _)) =>
          (w1, Ret (<["valid" := VBool (String.eqb (State snapshot) "completed")]>
                      (<["state" := VStr (State snapshot)]>
                         (<["progress" := VStr (Progress snapshot)]>
                            {["encrypted" := VBool (Encrypted snapshot)]}))))
      | (w1, Ret []) => (w1, Ret (invalid "list index out of range"))
      | (w1, Raise e) => (w1, Ret (invalid e))
      end
    else if String.eqb backup_type "rds" then
      match rds_describe_db_snapshots (Some backup_id) w with
      | (w1, Ret (snapshot :: _)) =>
          (w1, Ret (<["valid" := VBool (String.eqb (Status snapshot) "available")]>
                      (<["status" := VStr (Status snapshot)]>
                         (<["percent_progress" := VInt (PercentProgress snapshot)]>
                            {["encrypted" := VBool (DBEncrypted snapshot)]}))))
      | (w1, Ret []) => (w1, Ret (invalid "list index out of range"))
      | (w1, Raise e) => (w1, Ret (invalid e))
      end
    else (w, Ret (invalid "Unsupported backup type")).
Proof.
  unfold validate_backup_integrity, run, try_except.
  destruct (String.eqb backup_type "ec2").
  - rewrite bind_run, call_run.
    destruct (ec2_describe_snapshots [backup_id] w) as [w1 [[|s l]|e]];
      reflexivity.
  - destruct (String.eqb backup_type "rds"); [|reflexivity].
    rewrite bind_run, call_run.
    destruct (rds_describe_db_snapshots (Some backup_id) w) as [w1 [[|s l]|e]];
      reflexivity.
Qed.

(** C6.  [validate_backup_integrity] never raises.  For an 'ec2' backup
    whose lookup answers, [valid] is true exactly when the state is
    "completed" (so not when it is "pending"); for an 'rds' backup, exactly
    when the status is "available"; any other type is answered with
    "Unsupported backup type" without a provider call; a lookup that raises
    gives [valid = False] with the message. *)
Theorem validate_backup_integrity_maps_state backup_type backup_id w :
  exists w' r,
    validate_backup_integrity backup_type backup_id w = (w', Ret r) /\
    (forall w1 s rest,
       backup_type = "ec2" ->
       ec2_describe_snapshots [backup_id] w = (w1, Ret (s :: rest)) ->
       (r !! "valid" = Some (VBool true) <-> State s = "completed") /\
       (State s = "pending" -> r !! "valid" = Some (VBool false)) /\
       r !! "state" = Some (VStr (State s)) /\ r !! "error" = None) /\
    (forall w1 s rest,
       backup_type = "rds" ->
       rds_describe_db_snapshots (Some backup_id) w = (w1, Ret (s :: rest)) ->
       (r !! "valid" = Some (VBool true) <-> Status s = "available") /\
       r !! "status" = Some (VStr (Status s)) /\ r !! "error" = None) /\
    (backup_type <> "ec2" -> backup_type <> "rds" ->
     r = invalid "Unsupported backup type" /\ w' = w) /\
    (forall w1 e,
       backup_type = "ec2" ->
       ec2_describe_snapshots [backup_id] w = (w1, Raise e) ->
       r = invalid e) /\
    (forall w1 e,
       backup_type = "rds" ->
       rds_describe_db_snapshots (Some backup_id) w = (w1, Raise e) ->
       r = invalid e).
Proof.
  rewrite validate_backup_integrity_run.
  destruct (String.eqb_spec backup_type "ec2") as [-> | Hec2].
  - destruct (ec2_describe_snapshots [backup_id] w) as [w1 [[|s l]|e]];
      eexists; eexists; (split; [reflexivity|]).
    + repeat split; try congruence; intros; discriminate.
    + split; [|repeat split; try congruence; intros; discriminate].
      intros w2 s' rest _ [= <- <- <-].
      rewrite valid_lookup, String.eqb_eq.
      split; [reflexivity|]. split; [|split; reflexivity].
      intros E. rewrite lookup_insert_eq, E. reflexivity.
    + repeat split; try congruence; intros; first [discriminate | congruence].
  - destruct (String.eqb_spec backup_type "rds") as [-> | Hrds].
    + destruct (rds_describe_db_snapshots (Some backup_id) w)
        as [w1 [[|s l]|e]];
        eexists; eexists; (split; [reflexivity|]).
      * repeat split; try congruence; intros; discriminate.
      * split; [intros; discriminate|].
        split; [|repeat split; try congruence; intros; discriminate].
        intros w2 s' rest _ [= <- <- <-].
        rewrite valid_lookup, String.eqb_eq.
        split; [reflexivity|]. split; reflexivity.
      * repeat split; try congruence; intros;
          first [discriminate | congruence].
    + eexists; eexists; (split; [reflexivity|]).
      repeat split; congruence.
Qed.

End Validate.

(* ===================================================================== *)
(** * [restore_s3_objects]                                               *)
(* ===================================================================== *)

Section Restore.

Variables backup_bucket backup_prefix target_bucket target_prefix : string.

Local Abbreviation object_body :=
  (restore_s3_object backup_bucket backup_prefix target_bucket target_prefix).
Local Abbreviation page_body :=
  (restore_s3_page backup_bucket backup_prefix target_bucket target_prefix).

Lemma same_buckets_refl w : same_buckets w w.
Proof. split; [apply frame_refl | reflexivity]. Qed.

Lemma same_buckets_trans w1 w2 w3 :
  same_buckets w1 w2 -> same_buckets w2 w3 -> same_buckets w1 w3.
Proof.
  intros [F1 B1] [F2 B2].
  split; [eapply frame_trans; eassumption|]. intros b. now rewrite B2, B1.
Qed.

Lemma s3_copy_object_same_buckets a b c d e w :
  same_buckets w (fst (s3_copy_object a b c d e w)).
Proof.
  split; [apply s3_copy_object_frame|]. intros x.
  unfold s3_copy_object, provider.
  destruct (fault w _ _); [reflexivity|].
  repeat match goal with
         | |- context [if ?x then _ else _] => destruct x
         end; try reflexivity.
  cbn. unfold bucket_exists. cbn.
  induction (buckets w) as [|bk l IH]; [reflexivity|]. cbn.
  rewrite IH. f_equal.
  unfold bucket_has_name. destruct (String.eqb_spec (BucketName bk) c);
    cbn; congruence.
Qed.

Lemma s3_fetch_page_same_buckets b p i pg w :
  same_buckets w (fst (s3_fetch_page b p i pg w)).
Proof.
  split; [apply s3_fetch_page_frame|]. intros x.
  unfold s3_fetch_page, provider.
  destruct (fault w _ _); [reflexivity|].
  match goal with
  | |- context [if ?c then _ else _] => destruct c
  end; reflexivity.
Qed.

(** One object: the copy is attempted once and counted on one side. *)
Lemma restore_s3_object_run key w l :
  exists w' c,
    is_copy_call c = true /\
    calls w' = c :: calls w /\ same_buckets w w' /\
    (object_body key w l
     = (w', mkRestoreLocals (restored_objects l + 1) (failed_objects l), Ret tt)
       /\ fault w (calls w) c = None
     \/
     object_body key w l
     = (w', mkRestoreLocals (restored_objects l) (failed_objects l + 1), Ret tt)).
Proof.
  unfold restore_s3_object, try_except.
  rewrite bind_run. unfold ask. rewrite bind_run, call_run.
  match goal with
  | |- context [s3_copy_object ?a ?b ?c ?d ?e w] =>
      pose proof (s3_copy_object_same_buckets a b c d e w) as Hsame;
      assert (Hcalls : calls (fst (s3_copy_object a b c d e w))
                       = CopyObject a b c d e :: calls w);
      [| assert (Hf : forall x, snd (s3_copy_object a b c d e w) = Ret x ->
                       fault w (calls w) (CopyObject a b c d e) = None);
         [| destruct (s3_copy_object a b c d e w) as [w' [[]|e']] eqn:E;
            exists w', (CopyObject a b c d e) ]]
  end.
  - unfold s3_copy_object, provider. destruct (fault w _ _); [reflexivity|].
    repeat match goal with
           | |- context [if ?x then _ else _] => destruct x
           end; reflexivity.
  - intros x. unfold s3_copy_object, provider.
    destruct (fault w _ _); [discriminate | reflexivity].
  - cbn in *. repeat split; try assumption; try apply Hsame.
    left. split; [reflexivity|]. now apply (Hf tt).
  - cbn in *. repeat split; try assumption; try apply Hsame.
    now right.
Qed.

(** All the objects of a page: every one is counted exactly once, whatever
    the provider answers. *)
Lemma restore_objects_run (keys : list string) : forall w l,
  exists w' l',
    for_each keys object_body w l = (w', l', Ret tt) /\
    same_buckets w w' /\
    restored_objects l' + failed_objects l'
    = restored_objects l + failed_objects l + Z.of_nat (length keys) /\
    restored_objects l <= restored_objects l' /\
    failed_objects l <= failed_objects l' /\
    ((forall h c, is_copy_call c = true -> fault w h c <> None) ->
     restored_objects l' = restored_objects l).
Proof.
  induction keys as [|key keys IH]; intros w l.
  - exists w, l. simpl. repeat split; lia.
  - rewrite for_each_cons.
    destruct (restore_s3_object_run key w l)
      as (w1 & c & Hc & Hcalls & Hsame & [[-> Hf] | ->]).
    + destruct (IH w1 (mkRestoreLocals (restored_objects l + 1)
                         (failed_objects l)))
        as (w' & l' & -> & Hs' & Hsum & Hr & Hfl & Hall).
      exists w', l'. cbn in *. split; [reflexivity|].
      split; [eapply same_buckets_trans; eassumption|].
      repeat split; try lia.
      intros Hrefuse. exfalso. exact (Hrefuse _ _ Hc Hf).
    + destruct (IH w1 (mkRestoreLocals (restored_objects l)
                         (failed_objects l + 1)))
        as (w' & l' & -> & Hs' & Hsum & Hr & Hfl & Hall).
      exists w', l'. cbn in *. split; [reflexivity|].
      split; [eapply same_buckets_trans; eassumption|].
      repeat split; try lia.
      intros Hrefuse. rewrite Hall; [reflexivity|].
      intros h k Hk. destruct Hsame as [(_&_&_&_&_&_&_&Hfault) _].
      rewrite Hfault. now apply Hrefuse.
Qed.

Lemma enumerate_snd {A : Type} (l : list A) : map snd (enumerate l) = l.
Proof.
  unfold enumerate. generalize 0%nat.
  induction l as [|x l IH]; intros n; simpl; [reflexivity|]. now rewrite IH.
Qed.

Lemma restore_s3_page_run (i : nat) (page : list string) w l :
  page_body (i, page) w l
  = match fault w (calls w) (ListObjectsV2 backup_bucket backup_prefix None i) with
    | Some e =>
        (set_calls (cons (ListObjectsV2 backup_bucket backup_prefix None i)) w,
         l, Raise e)
    | None =>
        if bucket_exists backup_bucket w
        then for_each page object_body
               (set_calls
                  (cons (ListObjectsV2 backup_bucket backup_prefix None i)) w) l
        else (set_calls
                (cons (ListObjectsV2 backup_bucket backup_prefix None i)) w,
              l, Raise "NoSuchBucket")
    end.
Proof.
  unfold restore_s3_page. rewrite bind_run, call_run.
  unfold s3_fetch_page, provider. cbn [fst snd].
  destruct (fault w _ _); [reflexivity|].
  change (bucket_exists backup_bucket (set_calls _ w))
    with (bucket_exists backup_bucket w).
  destruct (bucket_exists backup_bucket w); reflexivity.
Qed.

(** The loop over the pages stops only when a listing request raises. *)
Lemma restore_pages_run (numbered : list (nat * list string)) : forall w l,
  exists w' l' o,
    for_each numbered page_body w l = (w', l', o) /\
    same_buckets w w' /\
    restored_objects l <= restored_objects l' /\
    failed_objects l <= failed_objects l' /\
    ((forall h c, is_copy_call c = true -> fault w h c <> None) ->
     restored_objects l' = restored_objects l) /\
    match o with
    | Ret _ =>
        restored_objects l' + failed_objects l'
        = restored_objects l + failed_objects l
          + Z.of_nat (length (concat (map snd numbered)))
    | Raise e =>
        exists i rest,
          calls w' = ListObjectsV2 backup_bucket backup_prefix None i :: rest /\
          (fault w rest (ListObjectsV2 backup_bucket backup_prefix None i)
           = Some e
           \/ (e = "NoSuchBucket" /\ bucket_exists backup_bucket w = false))
    end /\
    ((forall h i,
        fault w h (ListObjectsV2 backup_bucket backup_prefix None i) = None) ->
     bucket_exists backup_bucket w = true -> o = Ret tt).
Proof.
  induction numbered as [|[i page] numbered IH]; intros w l.
  - exists w, l, (Ret tt). simpl. repeat split; lia.
  - rewrite for_each_cons, restore_s3_page_run.
    destruct (fault w (calls w) _) as [e|] eqn:Hf;
      [|destruct (bucket_exists backup_bucket w) eqn:Hb].
    + eexists _, l, (Raise e). split; [reflexivity|].
      split; [split; [unfold frame; cbn; tauto | reflexivity]|].
      repeat split; try lia.
      * exists i, (calls w). split; [reflexivity|]. now left.
      * intros Hok _. rewrite Hok in Hf. discriminate.
    + set (w0 := set_calls _ w).
      destruct (restore_objects_run page w0 l)
        as (w1 & l1 & -> & Hs1 & Hsum1 & Hr1 & Hf1 & Hall1).
      destruct (IH w1 l1) as (w' & l' & o & -> & Hs & Hr & Hfl & Hall & Ho & Hok).
      assert (Hs0 : same_buckets w w0).
      { split; [unfold frame; cbn; tauto | reflexivity]. }
      assert (Hsw1 : same_buckets w w1)
        by (eapply same_buckets_trans; eassumption).
      assert (Hfault : fault w1 = fault w) by apply Hsw1.
      exists w', l', o. split; [reflexivity|].
      split; [eapply same_buckets_trans; eassumption|].
      split; [lia|]. split; [lia|]. split; [|split].
      * intros Hrefuse. rewrite Hall, Hall1; [reflexivity | exact Hrefuse |].
        intros h c Hc. rewrite Hfault. now apply Hrefuse.
      * destruct o as [[]|e].
        -- cbn [map snd concat]. rewrite length_app. lia.
        -- destruct Ho as (j & rest & Hcalls & Hwhy). exists j, rest.
           split; [exact Hcalls|]. rewrite <- Hfault.
           destruct Hwhy as [|[-> Hbk]]; [now left | right].
           split; [reflexivity|]. destruct Hsw1 as [_ Hb'].
           rewrite Hb' in Hbk. congruence.
      * intros Hlist Hbk. apply Hok.
        -- intros h j. rewrite Hfault. apply Hlist.
        -- destruct Hsw1 as [_ Hb']. rewrite Hb'. congruence.
    + eexists _, l, (Raise "NoSuchBucket"). split; [reflexivity|].
      split; [split; [unfold frame; cbn; tauto | reflexivity]|].
      repeat split; try lia; try (intros _ Hbk; congruence).
      exists i, (calls w). split; [reflexivity|]. right. now split.
Qed.

End Restore.

Section RestoreMethod.

Variables backup_bucket backup_prefix target_bucket target_prefix : string.

Local Abbreviation listed := (listed backup_bucket backup_prefix).

(** C9.  [restore_s3_objects] always returns.  When the listing runs to its
    end the result has [success = True] and counts every listed object as
    restored or failed, also when every copy failed (then 0 restored, all
    failed).  [success = False] is returned only when a listing request
    raised (it is the last call issued), and that result holds the error
    and no counts. *)
Theorem restore_s3_objects_success_is_listing w :
  exists w' r,
    restore_s3_objects backup_bucket backup_prefix target_bucket
      target_prefix w = (w', Ret r) /\
    ((exists n m,
        r = restore_report (mkRestoreLocals n m) target_bucket (now w) /\
        0 <= n /\ 0 <= m /\ n + m = listed w /\
        ((forall h c, is_copy_call c = true -> fault w h c <> None) ->
         n = 0 /\ m = listed w))
     \/
     (exists e i rest,
        r = restore_failure e /\
        calls w' = ListObjectsV2 backup_bucket backup_prefix None i :: rest /\
        (fault w rest (ListObjectsV2 backup_bucket backup_prefix None i)
         = Some e
         \/ (e = "NoSuchBucket" /\ bucket_exists backup_bucket w = false)))) /\
    ((forall h i,
        fault w h (ListObjectsV2 backup_bucket backup_prefix None i) = None) ->
     bucket_exists backup_bucket w = true ->
     r !! "success" = Some (VBool true)) /\
    (r !! "success" = Some (VBool false) ->
     r !! "restored_objects" = None /\ r !! "failed_objects" = None /\
     exists e, r !! "error" = Some (VStr e)).
Proof.
  unfold restore_s3_objects, run, try_except.
  rewrite bind_run. unfold ask at 1. rewrite bind_run.
  destruct (restore_pages_run backup_bucket backup_prefix target_bucket
              target_prefix
              (enumerate (paginate backup_bucket backup_prefix w)) w
              (mkRestoreLocals 0 0))
    as (w' & l' & o & -> & Hs & Hr & Hf & Hall & Ho & Hok).
  rewrite enumerate_snd in Ho. cbn [restored_objects failed_objects] in *.
  destruct o as [[]|e].
  - rewrite bind_run. unfold locals. rewrite bind_run. unfold ask.
    cbn [mret M_ret ret].
    assert (Hnow : now w' = now w) by apply Hs. rewrite Hnow.
    exists w', (restore_report l' target_bucket (now w)).
    split; [reflexivity|]. split; [|split].
    + left. exists (restored_objects l'), (failed_objects l').
      split; [now destruct l'|]. unfold listed.
      repeat split; try lia.
      * now apply Hall.
      * rewrite (Hall H) in Ho. lia.
    + reflexivity.
    + intros H. discriminate H.
  - exists w', (restore_failure e). split; [reflexivity|]. split; [|split].
    + right. destruct Ho as (i & rest & Hc & Hwhy). exists e, i, rest. auto.
    + intros Hlist Hbk. specialize (Hok Hlist Hbk). discriminate.
    + intros _. repeat split. exists e. reflexivity.
Qed.

End RestoreMethod.

(* ===================================================================== *)
(** * [backup_ec2_instances]                                             *)
(* ===================================================================== *)

Section Notification.

Context {L : Type}.

(** A notification never raises and leaves the locals alone. *)
Lemma send_notification_run self msg w (l : L) :
  exists w', _send_notification self msg w l = (w', l, Ret tt).
Proof.
  unfold _send_notification.
  destruct (sns_topic_arn self) as [topic|]; [|eexists; reflexivity].
  destruct (String.eqb topic ""); [eexists; reflexivity|].
  unfold try_except. rewrite call_run.
  destruct (sns_publish _ _ _ w) as [w5 [[]|e]]; eexists; reflexivity.
Qed.

Lemma for_each_concat {X : Type} (xss : list (list X)) (body : X -> M L unit)
  w l :
  for_each xss (fun xs => for_each xs body) w l
  = for_each (concat xss) body w l.
Proof.
  revert w l. induction xss as [|xs xss IH]; intros w l; [reflexivity|].
  cbn [concat]. rewrite for_each_cons, for_each_app.
  destruct (for_each xs body w l) as [[w1 l1] [[]|e]]; [apply IH | reflexivity].
Qed.

End Notification.

Section Ec2Backup.

Lemma append_success_app r d ss :
  append_success d (mkResults (success r ++ ss) (failed r))
  = mkResults (success r ++ (ss ++ [d])) (failed r).
Proof. unfold append_success. cbn. now rewrite app_assoc. Qed.

(** The loop over the volumes of one instance. *)
Lemma backup_ec2_volumes_run iid (bds : list BlockDevice) : forall w r,
  exists w' ss o,
    for_each bds (backup_ec2_volume iid) w r
    = (w', mkResults (success r ++ ss) (failed r), o) /\
    Forall (fun d => d !! "instance_id" = Some (VStr iid)) ss /\
    match o with
    | Ret _ => length ss = length bds
    | Raise _ => (length ss < length bds)%nat
    end.
Proof.
  induction bds as [|bd bds IH]; intros w r.
  - exists w, [], (Ret tt). simpl. rewrite app_nil_r.
    split; [now destruct r|]. split; [constructor | reflexivity].
  - rewrite for_each_cons. unfold backup_ec2_volume at 1.
    rewrite bind_run. unfold ask. rewrite bind_run, call_run.
    destruct (ec2_create_snapshot _ _ _ w) as [w1 [sid|e]]; cbn [fst snd].
    + unfold update.
      destruct (IH w1 (append_success
                         (ec2_success_entry iid (VolumeId bd) sid) r))
        as (w' & ss & o & -> & Hall & Ho).
      exists w', (ec2_success_entry iid (VolumeId bd) sid :: ss), o.
      split; [|split].
      * f_equal. f_equal. unfold append_success. cbn.
        now rewrite <- app_assoc.
      * constructor; [reflexivity | exact Hall].
      * destruct o; cbn [length]; lia.
    + exists w1, [], (Raise e). rewrite app_nil_r.
      split; [now destruct r|]. split; [constructor | cbn; lia].
Qed.

Lemma backup_ec2_instance_run (inst : Instance) w r :
  exists w' ss fs,
    backup_ec2_instance inst w r
    = (w', mkResults (success r ++ ss) (failed r ++ fs), Ret tt) /\
    instance_outcome inst ss fs.
Proof.
  unfold backup_ec2_instance, try_except.
  destruct (backup_ec2_volumes_run (InstanceId inst)
              (BlockDeviceMappings inst) w r)
    as (w' & ss & o & -> & Hall & Ho).
  destruct o as [[]|e].
  - exists w', ss, []. rewrite app_nil_r. split; [reflexivity|].
    split; [exact Hall|]. left. now split.
  - exists w', ss, [ec2_failure_entry (InstanceId inst) e].
    split; [reflexivity|]. split; [exact Hall|]. right. eauto.
Qed.

Lemma backup_ec2_loop_run (insts : list Instance) : forall w r,
  exists w' ss fs,
    for_each insts backup_ec2_instance w r
    = (w', mkResults (success r ++ ss) (failed r ++ fs), Ret tt) /\
    ec2_outcomes insts ss fs.
Proof.
  induction insts as [|inst insts IH]; intros w r.
  - exists w, [], []. rewrite !app_nil_r.
    split; [now destruct r | constructor].
  - rewrite for_each_cons.
    destruct (backup_ec2_instance_run inst w r) as (w1 & ss & fs & -> & Hi).
    destruct (IH w1 (mkResults (success r ++ ss) (failed r ++ fs)))
      as (w' & ss' & fs' & -> & Hrest).
    exists w', (ss ++ ss'), (fs ++ fs'). cbn [success failed].
    rewrite <- !app_assoc. split; [reflexivity|]. now constructor.
Qed.

(** [backup_ec2_instances]: a refused discovery leaves one batch failure;
    otherwise every discovered instance is dealt with on its own. *)
Lemma backup_ec2_instances_run self ids w :
  match ec2_describe_instances ids w with
  | (w1, Ret rs) =>
      exists w' ss fs,
        backup_ec2_instances self ids w = (w', Ret (mkResults ss fs)) /\
        ec2_outcomes (concat rs) ss fs
  | (w1, Raise e) =>
      backup_ec2_instances self ids w
      = (w1, Ret (mkResults [] [batch_failure e]))
  end.
Proof.
  unfold backup_ec2_instances, run. rewrite bind_run. unfold try_except.
  rewrite bind_run, call_run.
  destruct (ec2_describe_instances ids w) as [w1 [rs|e]]; cbn [fst snd];
    [|reflexivity].
  rewrite bind_run, for_each_concat.
  destruct (backup_ec2_loop_run (concat rs) w1 empty_results)
    as (w2 & ss & fs & -> & Hout).
  rewrite bind_run. unfold locals at 1.
  match goal with
  | |- context [_send_notification self ?msg w2 ?l] =>
      destruct (send_notification_run self msg w2 l) as [w3 ->]
  end.
  exists w3, ss, fs. split; [reflexivity | exact Hout].
Qed.

End Ec2Backup.

(* ===================================================================== *)
(** * Counting the records of a batch                                    *)
(* ===================================================================== *)

Section Counting.

Variable key : string.

Lemma count_about_app id l1 l2 :
  count_about key id (l1 ++ l2)
  = (count_about key id l1 + count_about key id l2)%nat.
Proof. unfold count_about. now rewrite List.filter_app, length_app. Qed.

Lemma count_about_all id iid l :
  Forall (fun d => d !! key = Some (VStr iid)) l ->
  count_about key id l = if String.eqb iid id then length l else 0%nat.
Proof.
  unfold count_about. induction 1 as [|d l Hd Hl IH]; simpl.
  - now destruct (String.eqb iid id).
  - unfold about at 1. rewrite Hd.
    destruct (String.eqb iid id); simpl; now rewrite IH.
Qed.

Lemma str_field_about id d :
  d !! key = Some (VStr id) -> str_field key d = id.
Proof. unfold str_field. now intros ->. Qed.

Lemma one_each_perm ids ss fs :
  one_each key ids ss fs -> map (str_field key) (ss ++ fs) ≡ₚ ids.
Proof.
  induction 1 as [|id ids d ss fs Hd H IH | id ids d ss fs Hd H IH].
  - reflexivity.
  - cbn. rewrite (str_field_about id d Hd). now constructor.
  - rewrite map_app. cbn [map]. rewrite (str_field_about id d Hd).
    rewrite <- Permutation_middle. constructor. now rewrite <- map_app.
Qed.

Lemma one_each_length ids ss fs :
  one_each key ids ss fs -> (length ss + length fs = length ids)%nat.
Proof. induction 1; cbn; lia. Qed.

Lemma one_each_keys ids ss fs :
  one_each key ids ss fs ->
  Forall (fun d => exists id, In id ids /\ d !! key = Some (VStr id)) (ss ++ fs).
Proof.
  induction 1 as [|id ids d ss fs Hd H IH | id ids d ss fs Hd H IH].
  - constructor.
  - cbn. constructor; [exists id; split; [now left | exact Hd]|].
    eapply Forall_impl; [exact IH|]. intros x (i & Hi & Hx). exists i.
    split; [now right | exact Hx].
  - apply Forall_app in IH as [IHs IHf]. apply Forall_app. split.
    + eapply Forall_impl; [exact IHs|]. intros x (i & Hi & Hx). exists i.
      split; [now right | exact Hx].
    + constructor; [exists id; split; [now left | exact Hd]|].
      eapply Forall_impl; [exact IHf|]. intros x (i & Hi & Hx). exists i.
      split; [now right | exact Hx].
Qed.

Lemma about_iff id d :
  about key id d = true <-> d !! key = Some (VStr id).
Proof.
  unfold about. destruct (d !! key) as [[b|n|s]|]; split;
    try discriminate; try congruence.
  - intros H. apply String.eqb_eq in H. now subst.
  - intros [= ->]. apply String.eqb_refl.
Qed.

(** With distinct resources, each one is in exactly one of the two lists,
    once. *)
Lemma one_each_exactly_one ids ss fs id :
  one_each key ids ss fs -> List.NoDup ids -> In id ids ->
  (count_about key id ss + count_about key id fs = 1)%nat.
Proof.
  induction 1 as [|i ids d ss fs Hd H IH | i ids d ss fs Hd H IH];
    intros Hnd Hin; [destruct Hin| |];
    apply List.NoDup_cons_iff in Hnd as [Hi Hnd].
  - unfold count_about in *. cbn [List.filter].
    destruct (about key id d) eqn:Ha.
    + apply about_iff in Ha. assert (id = i) by congruence. subst i.
      cbn [length]. 
      assert (Hz : forall l, Forall (fun d => exists j, In j ids /\ d !! key = Some (VStr j)) l ->
                             length (List.filter (about key id) l) = 0%nat).
      { induction 1 as [|x l (j & Hj & Hx) _ IHl]; [reflexivity|]. cbn.
        destruct (about key id x) eqn:Hax; [|exact IHl].
        apply about_iff in Hax. exfalso. apply Hi. congruence. }
      pose proof (one_each_keys _ _ _ H) as Hk.
      apply Forall_app in Hk as [Hks Hkf].
      rewrite (Hz ss Hks), (Hz fs Hkf). reflexivity.
    + destruct Hin as [-> | Hin]; [|now apply IH].
      apply about_iff in Hd. congruence.
  - unfold count_about in *. cbn [List.filter].
    destruct (about key id d) eqn:Ha.
    + apply about_iff in Ha. assert (id = i) by congruence. subst i.
      cbn [length].
      assert (Hz : forall l, Forall (fun d => exists j, In j ids /\ d !! key = Some (VStr j)) l ->
                             length (List.filter (about key id) l) = 0%nat).
      { induction 1 as [|x l (j & Hj & Hx) _ IHl]; [reflexivity|]. cbn.
        destruct (about key id x) eqn:Hax; [|exact IHl].
        apply about_iff in Hax. exfalso. apply Hi. congruence. }
      pose proof (one_each_keys _ _ _ H) as Hk.
      apply Forall_app in Hk as [Hks Hkf].
      rewrite (Hz ss Hks), (Hz fs Hkf). lia.
    + destruct Hin as [-> | Hin]; [|now apply IH].
      apply about_iff in Hd. congruence.
Qed.

End Counting.

Section Ec2Counting.

Lemma ec2_outcomes_bound insts ss fs :
  ec2_outcomes insts ss fs ->
  (length ss + length fs <= total_volumes insts)%nat.
Proof.
  induction 1 as [|inst insts ss fs ss' fs' [_ Hi] _ IH]; [cbn; lia|].
  unfold total_volumes in *. cbn [map]. unfold list_sum in *.
  cbn [fold_right]. rewrite !length_app.
  destruct Hi as [[-> E] | (e & -> & Hlt)]; cbn [length]; lia.
Qed.

Lemma ec2_outcomes_ids insts ss fs :
  ec2_outcomes insts ss fs ->
  Forall (fun d => exists inst, In inst insts
                   /\ d !! "instance_id" = Some (VStr (InstanceId inst)))
    (ss ++ fs).
Proof.
  induction 1 as [|inst insts ss fs ss' fs' [Hs Hi] _ IH]; [constructor|].
  apply Forall_app in IH as [IHs IHf].
  assert (Hup : forall l : list pydict,
    Forall (fun d => exists inst, In inst insts
                     /\ d !! "instance_id" = Some (VStr (InstanceId inst))) l ->
    Forall (fun d => exists i, In i (inst :: insts)
                     /\ d !! "instance_id" = Some (VStr (InstanceId i))) l).
  { intros l Hl. eapply Forall_impl; [exact Hl|].
    intros d (i & Hin & Hd). exists i. split; [now right | exact Hd]. }
  repeat (apply Forall_app; split); auto.
  - eapply Forall_impl; [exact Hs|]. intros d Hd. exists inst.
    split; [now left | exact Hd].
  - destruct Hi as [[-> _] | (e & -> & _)]; [constructor|].
    constructor; [|constructor]. exists inst. split; [now left | reflexivity].
Qed.

(** With distinct instance ids: an instance has at most one failure record
    and at most one success record per volume; it has all its success
    records exactly when it has no failure record. *)
Lemma ec2_outcomes_per_instance insts ss fs inst :
  ec2_outcomes insts ss fs ->
  List.NoDup (map InstanceId insts) -> In inst insts ->
  (count_about "instance_id" (InstanceId inst) fs <= 1)%nat /\
  (count_about "instance_id" (InstanceId inst) ss <= volumes inst)%nat /\
  (count_about "instance_id" (InstanceId inst) fs = 0%nat <->
   count_about "instance_id" (InstanceId inst) ss = volumes inst).
Proof.
  induction 1 as [|i insts ss fs ss' fs' [Hs Hi] Hrest IH];
    intros Hnd Hin; [destruct Hin|].
  cbn [map] in Hnd. apply List.NoDup_cons_iff in Hnd as [Hni Hnd].
  rewrite !count_about_app.
  assert (Hfs : Forall (fun d => d !! "instance_id"
                                 = Some (VStr (InstanceId i))) fs).
  { destruct Hi as [[-> _] | (e & -> & _)]; repeat constructor. }
  rewrite (count_about_all _ _ _ ss Hs), (count_about_all _ _ _ fs Hfs).
  pose proof (ec2_outcomes_ids _ _ _ Hrest) as Hk.
  apply Forall_app in Hk as [Hks Hkf].
  destruct (String.eqb_spec (InstanceId i) (InstanceId inst)) as [E | NE].
  - assert (Hz : forall l : list pydict,
      Forall (fun d => exists j, In j insts
                       /\ d !! "instance_id" = Some (VStr (InstanceId j))) l ->
      count_about "instance_id" (InstanceId inst) l = 0%nat).
    { unfold count_about. induction 1 as [|x l (j & Hj & Hx) _ IHl];
        [reflexivity|]. cbn.
      destruct (about "instance_id" (InstanceId inst) x) eqn:Hax; [|exact IHl].
      apply about_iff in Hax. exfalso. apply Hni. rewrite E.
      assert (InstanceId inst = InstanceId j) as -> by congruence.
      now apply in_map. }
    rewrite (Hz ss' Hks), (Hz fs' Hkf), !Nat.add_0_r.
    assert (Hv : volumes inst = volumes i).
    { destruct Hin as [-> | Hin]; [reflexivity|].
      exfalso. apply Hni. rewrite E. now apply in_map. }
    rewrite Hv.
    destruct Hi as [[-> El] | (e & -> & Hlt)]; cbn [length]; lia.
  - destruct Hin as [-> | Hin]; [congruence|].
    cbn [plus]. now apply IH.
Qed.

End Ec2Counting.

(* ===================================================================== *)
(** * [backup_rds_databases]                                             *)
(* ===================================================================== *)

Section RdsBackup.

Lemma rds_describe_one_run id w :
  rds_describe_db_instances (Some id) w
  = match fault w (calls w) (DescribeDBInstances (Some id)) with
    | Some e => (set_calls (cons (DescribeDBInstances (Some id))) w, Raise e)
    | None =>
        match List.filter (db_has_id id) (db_instances w) with
        | [] => (set_calls (cons (DescribeDBInstances (Some id))) w,
                 Raise "DBInstanceNotFound")
        | l => (set_calls (cons (DescribeDBInstances (Some id))) w, Ret l)
        end
    end.
Proof.
  unfold rds_describe_db_instances, provider.
  destruct (fault w _ _); [reflexivity|]. cbn [db_instances set_calls].
  now destruct (List.filter _ _).
Qed.

Lemma rds_describe_all_run w :
  rds_describe_db_instances None w
  = match fault w (calls w) (DescribeDBInstances None) with
    | Some e => (set_calls (cons (DescribeDBInstances None)) w, Raise e)
    | None => (set_calls (cons (DescribeDBInstances None)) w,
               Ret (db_instances w))
    end.
Proof.
  unfold rds_describe_db_instances, provider. now destruct (fault w _ _).
Qed.

Lemma resolve_db_run id w l :
  exists w',
    frame w w' /\
    ((exists e,
        resolve_db id w l
        = (w', on_rds_results (append_failed (rds_failure_entry id e)) l,
           Ret tt))
     \/
     (List.filter (db_has_id id) (db_instances w) <> [] /\
      resolve_db id w l
      = (w', mkRdsLocals (rds_results l)
               (databases l ++ List.filter (db_has_id id) (db_instances w)),
         Ret tt))).
Proof.
  unfold resolve_db, try_except. rewrite bind_run, call_run.
  rewrite rds_describe_one_run.
  assert (Hfr : frame w (set_calls (cons (DescribeDBInstances (Some id))) w))
    by (unfold frame; cbn; tauto).
  destruct (fault w _ _) as [e|].
  - eexists. split; [exact Hfr|]. left. exists e. reflexivity.
  - destruct (List.filter (db_has_id id) (db_instances w)) as [|d ds] eqn:E.
    + eexists. split; [exact Hfr|]. left. eexists. reflexivity.
    + eexists. split; [exact Hfr|]. right. split; [discriminate|].
      reflexivity.
Qed.

Lemma resolve_loop_run (ids : list string) : forall w l,
  exists w' fs ds,
    for_each ids resolve_db w l
    = (w', mkRdsLocals
             (mkResults (success (rds_results l))
                (failed (rds_results l) ++ fs))
             (databases l ++ ds), Ret tt) /\
    frame w w' /\ resolved (db_instances w) ids fs ds.
Proof.
  induction ids as [|id ids IH]; intros w l.
  - exists w, [], []. rewrite !app_nil_r.
    split; [now destruct l as [[] ?]|]. split; [apply frame_refl|constructor].
  - rewrite for_each_cons.
    destruct (resolve_db_run id w l) as (w1 & Hfr & [[e ->] | [Hne ->]]).
    + destruct (IH w1 (on_rds_results
                         (append_failed (rds_failure_entry id e)) l))
        as (w' & fs & ds & -> & Hfr' & Hres).
      exists w', (rds_failure_entry id e :: fs), ds. cbn.
      rewrite <- app_assoc. split; [reflexivity|].
      split; [eapply frame_trans; eassumption|].
      constructor. destruct Hfr as (_&_&_&_&<-&_). exact Hres.
    + destruct (IH w1 (mkRdsLocals (rds_results l)
                         (databases l
                          ++ List.filter (db_has_id id) (db_instances w))))
        as (w' & fs & ds & -> & Hfr' & Hres).
      exists w', fs, (List.filter (db_has_id id) (db_instances w) ++ ds).
      cbn. rewrite <- app_assoc. split; [reflexivity|].
      split; [eapply frame_trans; eassumption|].
      constructor; [exact Hne|]. destruct Hfr as (_&_&_&_&<-&_). exact Hres.
Qed.

(** One database: one record, whatever the provider answers. *)
Lemma backup_rds_database_run (db : DBInstance) w l :
  exists w' d,
    d !! "db_identifier" = Some (VStr (DBInstanceIdentifier db)) /\
    (backup_rds_database db w l
     = (w', on_rds_results (append_success d) l, Ret tt)
     \/
     backup_rds_database db w l
     = (w', on_rds_results (append_failed d) l, Ret tt)).
Proof.
  unfold backup_rds_database, try_except.
  rewrite bind_run. unfold ask. rewrite bind_run, call_run.
  destruct (rds_create_db_snapshot _ _ _ w) as [w1 [[]|e]]; cbn [fst snd].
  - eexists w1, _. split; [|left; reflexivity]. reflexivity.
  - eexists w1, _. split; [|right; reflexivity]. reflexivity.
Qed.

Lemma backup_rds_loop_run (ds : list DBInstance) : forall w l,
  exists w' ss fs,
    for_each ds backup_rds_database w l
    = (w', mkRdsLocals
             (mkResults (success (rds_results l) ++ ss)
                (failed (rds_results l) ++ fs))
             (databases l), Ret tt) /\
    one_each "db_identifier" (map DBInstanceIdentifier ds) ss fs.
Proof.
  induction ds as [|db ds IH]; intros w l.
  - exists w, [], []. rewrite !app_nil_r.
    split; [now destruct l as [[] ?] | constructor].
  - rewrite for_each_cons.
    destruct (backup_rds_database_run db w l) as (w1 & d & Hd & [-> | ->]).
    + destruct (IH w1 (on_rds_results (append_success d) l))
        as (w' & ss & fs & -> & Hone).
      exists w', (d :: ss), fs. cbn. rewrite <- app_assoc.
      split; [reflexivity|]. now constructor.
    + destruct (IH w1 (on_rds_results (append_failed d) l))
        as (w' & ss & fs & -> & Hone).
      exists w', ss, (d :: fs). cbn. rewrite <- app_assoc.
      split; [reflexivity|]. now constructor.
Qed.

(** [backup_rds_databases] with explicit ids: every id is looked up on its
    own, and every database found is backed up on its own. *)
Lemma backup_rds_databases_explicit self ids w :
  ids <> [] ->
  exists w' fs0 ds ss fs,
    backup_rds_databases self ids w = (w', Ret (mkResults ss (fs0 ++ fs))) /\
    resolved (db_instances w) ids fs0 ds /\
    one_each "db_identifier" (map DBInstanceIdentifier ds) ss fs.
Proof.
  intros Hne. unfold backup_rds_databases, run. rewrite bind_run.
  unfold try_except. rewrite bind_run.
  assert (nonempty ids = true) as -> by (destruct ids; [congruence|reflexivity]).
  destruct (resolve_loop_run ids w (mkRdsLocals empty_results []))
    as (w1 & fs0 & ds & -> & Hfr & Hres).
  rewrite bind_run. unfold locals at 1. rewrite bind_run.
  cbn [databases rds_results success failed empty_results app].
  destruct (backup_rds_loop_run ds w1 (mkRdsLocals (mkResults [] fs0) ds))
    as (w2 & ss & fs & -> & Hone).
  rewrite bind_run. unfold locals at 1.
  match goal with
  | |- context [_send_notification self ?msg w2 ?l] =>
      destruct (send_notification_run self msg w2 l) as [w3 ->]
  end.
  exists w3, fs0, ds, ss, fs. split; [reflexivity|]. now split.
Qed.

(** [backup_rds_databases] without ids: a refused discovery leaves one
    batch failure; otherwise every database is backed up on its own. *)
Lemma backup_rds_databases_all self w :
  match fault w (calls w) (DescribeDBInstances None) with
  | None =>
      exists w' ss fs,
        backup_rds_databases self [] w = (w', Ret (mkResults ss fs)) /\
        one_each "db_identifier" (map DBInstanceIdentifier (db_instances w))
          ss fs
  | Some e =>
      backup_rds_databases self [] w
      = (set_calls (cons (DescribeDBInstances None)) w,
         Ret (mkResults [] [batch_failure e]))
  end.
Proof.
  unfold backup_rds_databases, run. rewrite bind_run.
  unfold try_except. rewrite bind_run. cbn [nonempty].
  rewrite bind_run, call_run, rds_describe_all_run.
  destruct (fault w _ _) as [e|]; [reflexivity|]. cbn [fst snd].
  unfold update at 1. rewrite bind_run. unfold locals at 1. rewrite bind_run.
  cbn [databases rds_results db_instances set_calls].
  match goal with
  | |- context [for_each (db_instances w) backup_rds_database ?w1 ?l] =>
      destruct (backup_rds_loop_run (db_instances w) w1 l)
        as (w2 & ss & fs & -> & Hone)
  end.
  rewrite bind_run. unfold locals at 1.
  match goal with
  | |- context [_send_notification self ?msg w2 ?l] =>
      destruct (send_notification_run self msg w2 l) as [w3 ->]
  end.
  exists w3, ss, fs. split; [reflexivity | exact Hone].
Qed.

End RdsBackup.

(* ===================================================================== *)
(** * Properties of the locals kept by every statement                   *)
(* ===================================================================== *)

Section KeepsLocals.

Context {L : Type}.
Variable R : L -> L -> Prop.
Hypothesis R_refl : forall l, R l l.
Hypothesis R_trans : forall l1 l2 l3, R l1 l2 -> R l2 l3 -> R l1 l3.

Local Abbreviation locals_keep := (locals_keep R).

Lemma locals_keep_ret {A} (a : A) : locals_keep (ret a).
Proof. intros w l. apply R_refl. Qed.

Lemma locals_keep_mret {A} (a : A) : locals_keep (mret a : M L A).
Proof. intros w l. apply R_refl. Qed.

Lemma locals_keep_ask {A} (f : World -> A) : locals_keep (ask f).
Proof. intros w l. apply R_refl. Qed.

Lemma locals_keep_call {A} (op : World -> World * outcome A) :
  locals_keep (call op).
Proof. intros w l. rewrite call_run. apply R_refl. Qed.

Lemma locals_keep_update (f : L -> L) :
  (forall l, R l (f l)) -> locals_keep (update f).
Proof. intros H w l. apply H. Qed.

Lemma locals_keep_bind {A B} (m : M L A) (k : A -> M L B) :
  locals_keep m -> (forall a, locals_keep (k a)) -> locals_keep (m ≫= k).
Proof.
  intros Hm Hk w l. rewrite bind_run. specialize (Hm w l).
  destruct (m w l) as [[w1 l1] [a|e]]; [|exact Hm].
  eapply R_trans; [exact Hm | apply Hk].
Qed.

Lemma locals_keep_try {A} (m : M L A) (h : exn -> M L A) :
  locals_keep m -> (forall e, locals_keep (h e)) ->
  locals_keep (try_except m h).
Proof.
  intros Hm Hh w l. unfold try_except. specialize (Hm w l).
  destruct (m w l) as [[w1 l1] [a|e]]; [exact Hm|].
  eapply R_trans; [exact Hm | apply Hh].
Qed.

Lemma locals_keep_for_each {X} (xs : list X) (body : X -> M L unit) :
  (forall x, locals_keep (body x)) -> locals_keep (for_each xs body).
Proof.
  intros H. induction xs as [|x xs IH]; intros w l; [apply R_refl|].
  rewrite for_each_cons. pose proof (H x w l) as Hx.
  destruct (body x w l) as [[w1 l1] [[]|e]]; [|exact Hx].
  eapply R_trans; [exact Hx | apply IH].
Qed.

End KeepsLocals.

Ltac locals_keep_structure refl trans :=
  repeat (intros;
          match goal with
          | |- locals_keep _ (_ ≫= _) => apply (locals_keep_bind _ trans)
          | |- locals_keep _ (try_except _ _) =>
              apply (locals_keep_try _ trans)
          | |- locals_keep _ (for_each _ _) =>
              apply (locals_keep_for_each _ refl trans)
          | |- locals_keep _ (call _) => apply (locals_keep_call _ refl)
          | |- locals_keep _ (ret _) => apply (locals_keep_ret _ refl)
          | |- locals_keep _ (mret _) => apply (locals_keep_mret _ refl)
          | |- locals_keep _ (ask _) => apply (locals_keep_ask _ refl)
          | |- locals_keep _ (update _) => apply locals_keep_update
          | |- locals_keep _ (if ?b then _ else _) => destruct b
          | |- locals_keep _ (match ?x with _ => _ end) => destruct x
          | |- locals_keep _ _ => progress autounfold with bodies
          end).

(* ===================================================================== *)
(** * [backup_s3_buckets]                                                *)
(* ===================================================================== *)

Section S3Backup.

Variable self : BackupManager.

Lemma same_results_refl l : same_results l l.
Proof. reflexivity. Qed.

Lemma same_results_trans l1 l2 l3 :
  same_results l1 l2 -> same_results l2 l3 -> same_results l1 l3.
Proof. unfold same_results. congruence. Qed.

(** Copying the objects of a bucket only moves the object counter. *)
Lemma backup_s3_pages_results bucket_name backup_prefix pages :
  locals_keep same_results
    (for_each pages (backup_s3_page self bucket_name backup_prefix)).
Proof.
  locals_keep_structure same_results_refl same_results_trans.
  reflexivity.
Qed.

Lemma s3_targets_locals names :
  locals_keep eq (s3_targets self names).
Proof.
  assert (Ht : forall a b c : S3Locals, a = b -> b = c -> a = c)
    by (intros; congruence).
  unfold s3_targets.
  locals_keep_structure (@eq_refl S3Locals) Ht.
Qed.

Lemma s3_targets_explicit names w l w' l' B :
  names <> [] -> s3_targets self names w l = (w', l', Ret B) -> B = names.
Proof.
  intros Hne. unfold s3_targets. rewrite bind_run.
  destruct (_ensure_backup_bucket self w l) as [[w1 l1] [[]|e]];
    [|discriminate].
  destruct names; [congruence|]. cbn [nonempty]. now intros [= _ _ <-].
Qed.

(** One bucket: one record, whatever the provider answers. *)
Lemma backup_s3_bucket_run (b : string) w l :
  exists w' l' d,
    backup_s3_bucket self b w l = (w', l', Ret tt) /\
    d !! "bucket_name" = Some (VStr b) /\
    (s3_results l' = append_success d (s3_results l)
     \/ s3_results l' = append_failed d (s3_results l)).
Proof.
  unfold backup_s3_bucket, try_except.
  rewrite bind_run. unfold ask at 1. rewrite bind_run. unfold ask at 1.
  rewrite bind_run. unfold update at 1. rewrite bind_run.
  match goal with
  | |- context [for_each ?pages (backup_s3_page self b ?bp) w ?l0] =>
      pose proof (backup_s3_pages_results b bp pages w l0) as Hres;
      destruct (for_each pages (backup_s3_page self b bp) w l0)
        as [[w1 l1] [[]|e]]
  end; cbn [fst snd] in Hres; unfold same_results in Hres; cbn in Hres.
  - rewrite bind_run. unfold locals, update.
    eexists w1, _, (s3_success_entry b _ _). split; [reflexivity|].
    split; [reflexivity|]. left. cbn. now rewrite Hres.
  - unfold update. eexists w1, _, (s3_failure_entry b e).
    split; [reflexivity|]. split; [reflexivity|]. right. cbn.
    now rewrite Hres.
Qed.

Lemma backup_s3_loop_run (bs : list string) : forall w l,
  exists w' l' ss fs,
    for_each bs (backup_s3_bucket self) w l = (w', l', Ret tt) /\
    s3_results l'
    = mkResults (success (s3_results l) ++ ss) (failed (s3_results l) ++ fs) /\
    one_each "bucket_name" bs ss fs.
Proof.
  induction bs as [|b bs IH]; intros w l.
  - exists w, l, [], []. rewrite !app_nil_r.
    split; [reflexivity|]. split; [now destruct (s3_results l) | constructor].
  - rewrite for_each_cons.
    destruct (backup_s3_bucket_run b w l) as (w1 & l1 & d & -> & Hd & Hl1).
    destruct (IH w1 l1) as (w' & l' & ss & fs & -> & Hl' & Hone).
    destruct Hl1 as [E | E]; rewrite E in Hl'; cbn in Hl'.
    + exists w', l', (d :: ss), fs. rewrite <- app_assoc in Hl'.
      split; [reflexivity|]. split; [exact Hl'|]. now constructor.
    + exists w', l', ss, (d :: fs). rewrite <- app_assoc in Hl'.
      split; [reflexivity|]. split; [exact Hl'|]. now constructor.
Qed.

(** [backup_s3_buckets]: when the statements before the loop raise, one
    batch failure is left; otherwise every bucket is dealt with on its
    own. *)
Lemma backup_s3_buckets_run names w :
  match s3_targets self names w (mkS3Locals empty_results 0) with
  | (w1, _, Ret bs) =>
      exists w' ss fs,
        backup_s3_buckets self names w = (w', Ret (mkResults ss fs)) /\
        one_each "bucket_name" bs ss fs
  | (w1, _, Raise e) =>
      backup_s3_buckets self names w
      = (w1, Ret (mkResults [] [batch_failure e]))
  end.
Proof.
  unfold backup_s3_buckets, run. rewrite bind_run. unfold try_except.
  rewrite bind_run.
  pose proof (s3_targets_locals names w (mkS3Locals empty_results 0)) as Hl.
  destruct (s3_targets self names w (mkS3Locals empty_results 0))
    as [[w1 l1] [bs|e]]; cbn [fst snd] in Hl; subst l1; [|reflexivity].
  rewrite bind_run.
  destruct (backup_s3_loop_run bs w1 (mkS3Locals empty_results 0))
    as (w2 & l2 & ss & fs & -> & Hl2 & Hone).
  rewrite bind_run. unfold locals at 1.
  match goal with
  | |- context [_send_notification self ?msg w2 ?l] =>
      destruct (send_notification_run self msg w2 l) as [w3 ->]
  end.
  rewrite bind_run. unfold locals. cbn [mret M_ret ret].
  exists w3, ss, fs. rewrite Hl2. split; [reflexivity | exact Hone].
Qed.

End S3Backup.

(* ===================================================================== *)
(** * Batch outcomes                                                     *)
(* ===================================================================== *)

Section Accounting.

Lemma filter_unique {A : Type} (f : A -> string) (id : string) (l : list A) :
  List.NoDup (map f l) ->
  List.filter (fun x => String.eqb (f x) id) l <> [] ->
  exists x, List.filter (fun x => String.eqb (f x) id) l = [x] /\ f x = id.
Proof.
  induction l as [|a l IH]; cbn; [congruence|].
  intros Hnd. apply List.NoDup_cons_iff in Hnd as [Ha Hnd].
  destruct (String.eqb_spec (f a) id) as [E | NE].
  - intros _. exists a. split; [|exact E]. f_equal.
    apply filter_none. intros x Hx. apply String.eqb_neq. intros Ex.
    apply Ha. rewrite E, <- Ex. now apply in_map.
  - intros H. now apply IH.
Qed.

Lemma resolved_perm D ids fs ds :
  List.NoDup (map DBInstanceIdentifier D) -> resolved D ids fs ds ->
  map (str_field "db_identifier") fs ++ map DBInstanceIdentifier ds ≡ₚ ids.
Proof.
  intros Hnd. induction 1 as [|id e ids fs ds H IH | id ids fs ds Hne H IH].
  - reflexivity.
  - cbn. now constructor.
  - destruct (filter_unique DBInstanceIdentifier id D Hnd Hne) as (db & E & Hid).
    unfold db_has_id. rewrite E. rewrite map_app. cbn [map app].
    rewrite <- Permutation_middle, Hid. now constructor.
Qed.

Lemma resolved_keys D ids fs ds :
  resolved D ids fs ds ->
  Forall (fun d : pydict => exists id, In id ids
                            /\ d !! "db_identifier" = Some (VStr id)) fs /\
  Forall (fun db => In (DBInstanceIdentifier db) ids) ds.
Proof.
  induction 1 as [|id e ids fs ds H [IHf IHd] | id ids fs ds Hne H [IHf IHd]].
  - split; constructor.
  - split.
    + constructor; [exists id; split; [now left | reflexivity]|].
      eapply Forall_impl; [exact IHf|]. intros d (i & Hi & Hd).
      exists i. split; [now right | exact Hd].
    + eapply Forall_impl; [exact IHd|]. intros db Hdb. now right.
  - split.
    + eapply Forall_impl; [exact IHf|]. intros d (i & Hi & Hd).
      exists i. split; [now right | exact Hd].
    + apply Forall_app. split.
      * apply List.Forall_forall. intros db Hdb. apply filter_In in Hdb as [_ Hdb].
        left. unfold db_has_id in Hdb. apply String.eqb_eq in Hdb. now symmetry.
      * eapply Forall_impl; [exact IHd|]. intros db Hdb. now right.
Qed.

(** An id the provider does not know ends in a failure record of its
    own. *)
Lemma resolved_unknown D ids fs ds id :
  resolved D ids fs ds -> In id ids -> List.filter (db_has_id id) D = [] ->
  exists e, In (rds_failure_entry id e) fs.
Proof.
  induction 1 as [|i e ids fs ds H IH | i ids fs ds Hne H IH];
    intros Hin Hun; [destruct Hin| |].
  - destruct Hin as [-> | Hin]; [exists e; now left|].
    destruct (IH Hin Hun) as [e' He']. exists e'. now right.
  - destruct Hin as [-> | Hin]; [congruence|]. now apply IH.
Qed.

(** Records that all carry their resource: counting the records about
    [id] is counting [id] among the resources. *)
Lemma count_about_perm key (l : list pydict) ids id :
  Forall (fun d : pydict => exists i, d !! key = Some (VStr i)) l ->
  map (str_field key) l ≡ₚ ids ->
  count_about key id l = count_occ string_dec ids id.
Proof.
  intros Hall Hp.
  rewrite <- (proj1 (Permutation_count_occ string_dec _ _) Hp id).
  clear Hp. unfold count_about.
  induction Hall as [|d l (i & Hd) _ IH]; [reflexivity|].
  cbn. unfold about at 1. rewrite (str_field_about key i d Hd), Hd.
  destruct (string_dec i id) as [-> | NE].
  - rewrite String.eqb_refl. cbn. now rewrite IH.
  - apply String.eqb_neq in NE. rewrite NE. exact IH.
Qed.

Lemma count_occ_NoDup ids (id : string) :
  List.NoDup ids -> In id ids -> count_occ string_dec ids id = 1%nat.
Proof.
  intros Hnd Hin. apply List.NoDup_count_occ with (decA := string_dec) (x := id) in Hnd.
  apply (count_occ_In string_dec) in Hin. lia.
Qed.

End Accounting.

Section BatchOutcomes.

Variable self : BackupManager.

Lemma all_about_carry key ids l :
  all_about key ids l ->
  Forall (fun d : pydict => exists i, d !! key = Some (VStr i)) l.
Proof.
  intros H. eapply Forall_impl; [exact H|]. intros d (i & _ & Hd). eauto.
Qed.

(** With distinct resources and records that account for them, each
    resource has one record, in one of the two lists. *)
Lemma exactly_one key ids (ss fs : list pydict) id :
  all_about key ids (ss ++ fs) ->
  map (str_field key) (ss ++ fs) ≡ₚ ids ->
  List.NoDup ids -> In id ids ->
  (count_about key id ss + count_about key id fs = 1)%nat.
Proof.
  intros Hall Hp Hnd Hin. rewrite <- count_about_app.
  rewrite (count_about_perm key _ ids id (all_about_carry _ _ _ Hall) Hp).
  now apply count_occ_NoDup.
Qed.

(** [backup_rds_databases] with explicit ids accounts for every id. *)
Lemma rds_explicit_accounts ids w :
  ids <> [] -> List.NoDup (map DBInstanceIdentifier (db_instances w)) ->
  exists w' r,
    backup_rds_databases self ids w = (w', Ret r) /\
    all_about "db_identifier" ids (success r ++ failed r) /\
    map (str_field "db_identifier") (success r ++ failed r) ≡ₚ ids /\
    (forall id, In id ids -> known_db id w = false ->
                exists e, In (rds_failure_entry id e) (failed r)).
Proof.
  intros Hne Hnd.
  destruct (backup_rds_databases_explicit self ids w Hne)
    as (w' & fs0 & ds & ss & fs & Hrun & Hres & Hone).
  exists w', (mkResults ss (fs0 ++ fs)). split; [exact Hrun|].
  cbn [success failed].
  destruct (resolved_keys _ _ _ _ Hres) as [Hk0 Hkd].
  pose proof (one_each_keys _ _ _ _ Hone) as Hk.
  apply Forall_app in Hk as [Hks Hkf].
  assert (Hup : forall l : list pydict,
    Forall (fun d : pydict => exists id, In id (map DBInstanceIdentifier ds)
                              /\ d !! "db_identifier" = Some (VStr id)) l ->
    all_about "db_identifier" ids l).
  { intros l Hl. eapply Forall_impl; [exact Hl|].
    intros d (i & Hi & Hd). exists i. split; [|exact Hd].
    apply in_map_iff in Hi as (db & <- & Hdb).
    rewrite List.Forall_forall in Hkd. now apply Hkd. }
  split; [|split].
  - unfold all_about in *.
    apply Forall_app; split; [now apply Hup|].
    apply Forall_app; split; [exact Hk0 | now apply Hup].
  - rewrite !map_app.
    rewrite (Permutation_app_comm (map _ fs0)), app_assoc, <- map_app.
    rewrite (one_each_perm _ _ _ _ Hone), Permutation_app_comm.
    now apply (resolved_perm (db_instances w)).
  - intros id Hin Hun.
    destruct (resolved_unknown _ _ _ _ id Hres Hin) as [e He].
    + unfold known_db in Hun. apply filter_none. intros db Hdb.
      destruct (db_has_id id db) eqn:E; [|reflexivity].
      assert (existsb (db_has_id id) (db_instances w) = true)
        by (apply existsb_exists; eauto).
      congruence.
    + exists e. apply in_or_app. now left.
Qed.

Lemma perm_length key (l : list pydict) ids :
  map (str_field key) l ≡ₚ ids -> length l = length ids.
Proof. intros H. apply Permutation_length in H. now rewrite length_map in H. Qed.

(** C2, as amended.  Without a batch failure, the database and bucket
    batches hold exactly one record per resource considered; the instance
    batch holds one success record per snapshot, so at most one record per
    volume, and at most one failure record per instance.  A refused
    discovery leaves one batch failure and no success. *)
Theorem batch_outcomes_account_for_resources w :
  (forall ids,
     ids <> [] -> List.NoDup (map DBInstanceIdentifier (db_instances w)) ->
     exists w' r,
       backup_rds_databases self ids w = (w', Ret r) /\
       (length (success r) + length (failed r) = length ids)%nat /\
       (List.NoDup ids -> forall id, In id ids ->
          (count_about "db_identifier" id (success r)
           + count_about "db_identifier" id (failed r) = 1)%nat)) /\
  (fault w (calls w) (DescribeDBInstances None) = None ->
   exists w' r,
     backup_rds_databases self [] w = (w', Ret r) /\
     (length (success r) + length (failed r) = length (db_instances w))%nat /\
     (List.NoDup (map DBInstanceIdentifier (db_instances w)) ->
      forall db, In db (db_instances w) ->
        (count_about "db_identifier" (DBInstanceIdentifier db) (success r)
         + count_about "db_identifier" (DBInstanceIdentifier db) (failed r)
         = 1)%nat)) /\
  (forall e,
     fault w (calls w) (DescribeDBInstances None) = Some e ->
     exists w',
       backup_rds_databases self [] w
       = (w', Ret (mkResults [] [batch_failure e]))) /\
  (forall names w1 l1 bs,
     s3_targets self names w (mkS3Locals empty_results 0) = (w1, l1, Ret bs) ->
     exists w' r,
       backup_s3_buckets self names w = (w', Ret r) /\
       (length (success r) + length (failed r) = length bs)%nat /\
       (List.NoDup bs -> forall b, In b bs ->
          (count_about "bucket_name" b (success r)
           + count_about "bucket_name" b (failed r) = 1)%nat)) /\
  (forall names w1 l1 e,
     s3_targets self names w (mkS3Locals empty_results 0) = (w1, l1, Raise e) ->
     backup_s3_buckets self names w
     = (w1, Ret (mkResults [] [batch_failure e]))) /\
  (forall ids w1 rs,
     ec2_describe_instances ids w = (w1, Ret rs) ->
     exists w' r,
       backup_ec2_instances self ids w = (w', Ret r) /\
       (length (success r) + length (failed r)
        <= total_volumes (concat rs))%nat /\
       (List.NoDup (map InstanceId (concat rs)) ->
        forall inst, In inst (concat rs) ->
          (count_about "instance_id" (InstanceId inst) (failed r) <= 1)%nat /\
          (count_about "instance_id" (InstanceId inst) (success r)
           <= volumes inst)%nat /\
          (count_about "instance_id" (InstanceId inst) (failed r) = 0%nat <->
           count_about "instance_id" (InstanceId inst) (success r)
           = volumes inst))) /\
  (forall ids w1 e,
     ec2_describe_instances ids w = (w1, Raise e) ->
     backup_ec2_instances self ids w
     = (w1, Ret (mkResults [] [batch_failure e]))).
Proof.
  repeat split.
  - intros ids Hne Hnd.
    destruct (rds_explicit_accounts ids w Hne Hnd)
      as (w' & r & Hrun & Hall & Hp & _).
    exists w', r. split; [exact Hrun|]. split.
    + rewrite <- length_app. now apply (perm_length "db_identifier").
    + intros Hids id Hin. now apply (exactly_one "db_identifier" ids).
  - intros Hf. pose proof (backup_rds_databases_all self w) as H.
    rewrite Hf in H. destruct H as (w' & ss & fs & Hrun & Hone).
    exists w', (mkResults ss fs). split; [exact Hrun|]. cbn [success failed].
    split.
    + rewrite (one_each_length _ _ _ _ Hone). apply length_map.
    + intros Hnd db Hdb.
      apply (one_each_exactly_one _ _ _ _ _ Hone Hnd). now apply in_map.
  - intros e Hf. pose proof (backup_rds_databases_all self w) as H.
    rewrite Hf in H. eauto.
  - intros names w1 l1 bs Ht.
    pose proof (backup_s3_buckets_run self names w) as H. rewrite Ht in H.
    destruct H as (w' & ss & fs & Hrun & Hone).
    exists w', (mkResults ss fs). split; [exact Hrun|]. cbn [success failed].
    split; [now apply (one_each_length "bucket_name")|].
    intros Hnd b Hb. now apply (one_each_exactly_one _ _ _ _ _ Hone Hnd).
  - intros names w1 l1 e Ht.
    pose proof (backup_s3_buckets_run self names w) as H. now rewrite Ht in H.
  - intros ids w1 rs Hd.
    pose proof (backup_ec2_instances_run self ids w) as H. rewrite Hd in H.
    destruct H as (w' & ss & fs & Hrun & Hout).
    exists w', (mkResults ss fs). split; [exact Hrun|]. cbn [success failed].
    split; [now apply ec2_outcomes_bound|].
    intros Hnd inst Hin. now apply (ec2_outcomes_per_instance (concat rs)).
  - intros ids w1 e Hd.
    pose proof (backup_ec2_instances_run self ids w) as H. now rewrite Hd in H.
Qed.

(** C5, as amended.  With explicit database ids, an id whose lookup fails
    gets a failure record of its own and every other id is still dealt
    with: all records name an id, each id has a record.  Buckets named
    explicitly are not looked up: each gets its record from its own copy.
    Instance ids are looked up in one request: when it is refused, for
    one unknown id already, the batch is one failure without instance. *)
Theorem explicit_ids_are_isolated_per_database w :
  (forall ids,
     ids <> [] -> List.NoDup (map DBInstanceIdentifier (db_instances w)) ->
     exists w' r,
       backup_rds_databases self ids w = (w', Ret r) /\
       all_about "db_identifier" ids (success r ++ failed r) /\
       (forall id, In id ids ->
          (1 <= count_about "db_identifier" id (success r)
                + count_about "db_identifier" id (failed r))%nat) /\
       (forall id, In id ids -> known_db id w = false ->
          exists e, In (rds_failure_entry id e) (failed r))) /\
  (forall names w1 l1 bs,
     names <> [] ->
     s3_targets self names w (mkS3Locals empty_results 0) = (w1, l1, Ret bs) ->
     bs = names /\
     exists w' r,
       backup_s3_buckets self names w = (w', Ret r) /\
       all_about "bucket_name" names (success r ++ failed r) /\
       (length (success r) + length (failed r) = length names)%nat) /\
  (forall ids w1 e,
     ec2_describe_instances ids w = (w1, Raise e) ->
     backup_ec2_instances self ids w
     = (w1, Ret (mkResults [] [batch_failure e])) /\
     batch_failure e !! "instance_id" = None) /\
  (forall ids id,
     In id ids -> known_instance id w = false ->
     fault w (calls w) (DescribeInstances ids) = None ->
     ec2_describe_instances ids w
     = (set_calls (cons (DescribeInstances ids)) w,
        Raise "InvalidInstanceID.NotFound")).
Proof.
  repeat split.
  - intros ids Hne Hnd.
    destruct (rds_explicit_accounts ids w Hne Hnd)
      as (w' & r & Hrun & Hall & Hp & Hun).
    exists w', r. split; [exact Hrun|]. split; [exact Hall|].
    split; [|exact Hun].
    intros id Hin. rewrite <- count_about_app.
    rewrite (count_about_perm "db_identifier" _ ids id
               (all_about_carry _ _ _ Hall) Hp).
    apply (count_occ_In string_dec) in Hin. lia.
  - pose proof (s3_targets_explicit self names w _ w1 l1 bs H H0). assumption.
  - pose proof (s3_targets_explicit self names w _ w1 l1 bs H H0). subst bs.
    pose proof (backup_s3_buckets_run self names w) as Hr. rewrite H0 in Hr.
    destruct Hr as (w' & ss & fs & Hrun & Hone).
    exists w', (mkResults ss fs). split; [exact Hrun|]. cbn [success failed].
    split; [now apply one_each_keys | now apply (one_each_length "bucket_name")].
  - pose proof (backup_ec2_instances_run self ids w) as Hr. now rewrite H in Hr.
  - intros ids id Hin Hun Hf. unfold ec2_describe_instances, provider.
    rewrite Hf. destruct ids as [|i ids]; [destruct Hin|].
    cbn [reservations set_calls].
    assert (forallb (fun i0 => existsb (has_id i0) (concat (reservations w)))
              (i :: ids) = false) as ->; [|reflexivity].
    apply not_true_iff_false. intros Hall.
    rewrite forallb_forall in Hall. specialize (Hall id Hin).
    unfold known_instance in Hun. congruence.
Qed.

End BatchOutcomes.

(* ===================================================================== *)
(** * Tags of what the backups create                                    *)
(* ===================================================================== *)

Section Tagging.

Lemma created_tagged_refl w : created_tagged w w.
Proof. split; exists []; rewrite app_nil_r; split; auto. Qed.

Lemma created_tagged_trans w1 w2 w3 :
  created_tagged w1 w2 -> created_tagged w2 w3 -> created_tagged w1 w3.
Proof.
  intros [(n1 & E1 & F1) (m1 & G1 & H1)] [(n2 & E2 & F2) (m2 & G2 & H2)].
  split.
  - exists (n1 ++ n2). rewrite E2, E1, app_assoc. split; [reflexivity|].
    now apply Forall_app.
  - exists (m1 ++ m2). rewrite G2, G1, app_assoc. split; [reflexivity|].
    now apply Forall_app.
Qed.

Lemma provider_keeps (R : World -> World -> Prop)
  (R_trans : forall w1 w2 w3, R w1 w2 -> R w2 w3 -> R w1 w3)
  {A} (c : Call) (sem : World -> World * outcome A) :
  (forall w, R w (set_calls (cons c) w)) ->
  (forall w, R w (fst (sem w))) -> op_keeps R (provider c sem).
Proof.
  intros Hc Hs w. unfold provider. destruct (fault w (calls w) c).
  - apply Hc.
  - eapply R_trans; [apply Hc | apply Hs].
Qed.

Lemma created_tagged_log c w : created_tagged w (set_calls (cons c) w).
Proof. split; exists []; cbn; rewrite app_nil_r; split; auto. Qed.

Ltac solve_created :=
  apply (provider_keeps _ created_tagged_trans);
  [ intros; apply created_tagged_log
  | intros;
    repeat match goal with
           | |- context [match ?x with _ => _ end] => destruct x
           end;
    apply created_tagged_refl ].

Lemma ec2_describe_instances_created ids :
  op_keeps created_tagged (ec2_describe_instances ids).
Proof. solve_created. Qed.

Lemma rds_describe_db_instances_created id :
  op_keeps created_tagged (rds_describe_db_instances id).
Proof. solve_created. Qed.

Lemma sns_publish_created t m s : op_keeps created_tagged (sns_publish t m s).
Proof. solve_created. Qed.

Lemma ec2_create_snapshot_created v d tags :
  is_automated_backup tags = true ->
  op_keeps created_tagged (ec2_create_snapshot v d tags).
Proof.
  intros Ht. apply (provider_keeps _ created_tagged_trans);
    [intros; apply created_tagged_log|].
  intros w. cbn. split.
  - eexists. split; [reflexivity|]. repeat constructor. exact Ht.
  - exists []. rewrite app_nil_r. split; auto.
Qed.

Lemma rds_create_db_snapshot_created s d tags :
  is_automated_backup tags = true ->
  op_keeps created_tagged (rds_create_db_snapshot s d tags).
Proof.
  intros Ht. apply (provider_keeps _ created_tagged_trans);
    [intros; apply created_tagged_log|].
  intros w.
  repeat match goal with
         | |- context [match ?x with _ => _ end] => destruct x
         end; try apply created_tagged_refl.
  cbn. split.
  - exists []. rewrite app_nil_r. split; auto.
  - eexists. split; [reflexivity|]. repeat constructor. exact Ht.
Qed.

(** Every snapshot the two snapshot backups create is tagged. *)
Lemma backup_ec2_instances_created self ids :
  op_keeps created_tagged (backup_ec2_instances self ids).
Proof.
  unfold backup_ec2_instances.
  keeps_structure created_tagged_refl created_tagged_trans;
    first [ apply ec2_describe_instances_created
          | apply sns_publish_created
          | apply ec2_create_snapshot_created; reflexivity ].
Qed.

Lemma backup_rds_databases_created self ids :
  op_keeps created_tagged (backup_rds_databases self ids).
Proof.
  unfold backup_rds_databases.
  keeps_structure created_tagged_refl created_tagged_trans;
    first [ apply rds_describe_db_instances_created
          | apply sns_publish_created
          | apply rds_create_db_snapshot_created; reflexivity ].
Qed.

(** Every copy [backup_s3_buckets] asks for has the two tags. *)
Lemma backup_s3_buckets_copies self names :
  op_keeps (issued (backup_copy self)) (backup_s3_buckets self names).
Proof.
  unfold backup_s3_buckets.
  keeps_structure (issued_refl (backup_copy self))
    (issued_trans (backup_copy self));
    apply provider_issued; try exact I; try solve_calls_sem.
  cbn. split; [reflexivity|]. eexists. reflexivity.
Qed.

End Tagging.

(* ===================================================================== *)
(** * What the cleanup asks the provider to delete                       *)
(* ===================================================================== *)

Section Discovery.

Lemma in_expired_ids c l sid :
  In sid (expired_ids c l) ->
  exists s, In s l /\ SnapshotId s = sid /\ tagged s = true.
Proof.
  unfold expired_ids. rewrite in_map_iff. intros (s & E & Hs).
  apply filter_In in Hs as [Hin He]. unfold ec2_expired in He.
  apply andb_prop in He as [_ Ht]. eauto.
Qed.

Lemma in_expired_db_ids c l sid :
  In sid (expired_db_ids c l) ->
  exists s, In s l /\ DBSnapshotIdentifier s = sid /\ db_tagged s = true.
Proof.
  unfold expired_db_ids. rewrite in_map_iff. intros (s & E & Hs).
  apply filter_In in Hs as [Hin He]. unfold rds_expired in He.
  apply andb_prop in He as [_ Ht]. eauto.
Qed.

Lemma in_map_delete sid l :
  In (DeleteSnapshot sid) (map DeleteSnapshot l) -> In sid l.
Proof. rewrite in_map_iff. now intros (x & [= ->] & Hx). Qed.

Lemma in_map_delete_db sid l :
  In (DeleteDBSnapshot sid) (map DeleteDBSnapshot l) -> In sid l.
Proof. rewrite in_map_iff. now intros (x & [= ->] & Hx). Qed.

Lemma not_in_map_delete_db sid l :
  ~ In (DeleteSnapshot sid) (map DeleteDBSnapshot l).
Proof. rewrite in_map_iff. now intros (x & [=] & Hx). Qed.

Lemma not_in_map_delete sid l :
  ~ In (DeleteDBSnapshot sid) (map DeleteSnapshot l).
Proof. rewrite in_map_iff. now intros (x & [=] & Hx). Qed.

(** Whatever the provider answers, [cleanup_old_backups] only asks for the
    deletion of snapshots that were listed, expired and tagged. *)
Lemma cleanup_only_expired self w c :
  cutoff self w = Some c ->
  exists new,
    calls (fst (cleanup_old_backups self w)) = new ++ calls w /\
    (forall sid, In (DeleteSnapshot sid) new ->
                 In sid (expired_ids c (snapshots w))) /\
    (forall sid, In (DeleteDBSnapshot sid) new ->
                 In sid (expired_db_ids c (manual_snapshots w))).
Proof.
  intros Hc. rewrite (cleanup_old_backups_run self w c Hc), bind_run.
  rewrite cleanup_ec2_snapshots_run.
  destruct (fault w (calls w) (DescribeSnapshots [])) as [e|].
  { exists [DescribeSnapshots []]. cbn. split; [reflexivity|].
    split; intros sid [H|[]]; discriminate. }
  destruct (ec2_loop_run c (snapshots w) [] w
              (set_calls (cons (DescribeSnapshots [])) w) cleanup_initial)
    as (deleted & refused & more & o & Hids & -> & Ho).
  { cbn. now rewrite delete_ids_nil. }
  assert (Hec2 : forall sid,
            In (DeleteSnapshot sid) (map DeleteSnapshot (refused ++ rev deleted)) ->
            In sid (expired_ids c (snapshots w))).
  { intros sid H. apply in_map_delete in H. unfold expired_ids. rewrite Hids.
    apply in_app_or in H as [H | H].
    - apply in_or_app. right. apply in_or_app. now left.
    - apply in_or_app. left. now apply in_rev. }
  destruct o as [[]|e].
  2:{ exists (map DeleteSnapshot (refused ++ rev deleted)
              ++ [DescribeSnapshots []]).
      cbn [fst calls after_deletions set_snapshots set_calls].
      split; [rewrite <- app_assoc; reflexivity|].
      split; intros sid H; apply in_app_or in H as [H | [H | []]];
        try discriminate; try (now apply Hec2).
      now apply not_in_map_delete in H. }
  rewrite cleanup_rds_snapshots_run.
  cbn [fault calls after_deletions set_snapshots set_calls].
  match goal with
  | |- context [fault w ?h (DescribeDBSnapshots None)] =>
      destruct (fault w h (DescribeDBSnapshots None)) as [e|]
  end.
  { exists (DescribeDBSnapshots None
              :: map DeleteSnapshot (refused ++ rev deleted)
              ++ [DescribeSnapshots []]).
    cbn [fst calls set_calls].
    split; [cbn [app]; rewrite <- app_assoc; reflexivity|].
    split; intros sid H; cbn in H; destruct H as [H | H]; try discriminate;
      apply in_app_or in H as [H | [H | []]]; try discriminate;
      try (now apply Hec2).
    now apply not_in_map_delete in H. }
  match goal with
  | |- context [for_each ?snaps (cleanup_rds_snapshot c) ?w1 ?l1] =>
      destruct (rds_loop_run c snaps [] w w1 l1)
        as (deleted' & refused' & more' & o' & Hids' & -> & Ho')
  end.
  { cbn. now rewrite delete_db_ids_nil. }
  exists (map DeleteDBSnapshot (refused' ++ rev deleted')
          ++ DescribeDBSnapshots None
          :: map DeleteSnapshot (refused ++ rev deleted)
          ++ [DescribeSnapshots []]).
  cbn [fst calls after_db_deletions after_deletions
         set_db_snapshots set_snapshots set_calls].
  split.
  { rewrite <- !app_assoc. cbn [app]. rewrite <- !app_assoc. reflexivity. }
  assert (Hrds : forall sid,
            In (DeleteDBSnapshot sid)
               (map DeleteDBSnapshot (refused' ++ rev deleted')) ->
            In sid (expired_db_ids c (manual_snapshots w))).
  { intros sid H. apply in_map_delete_db in H. unfold expired_db_ids.
    unfold manual_snapshots in *.
    cbn [db_snapshots after_deletions set_snapshots set_calls] in Hids'.
    rewrite Hids'.
    apply in_app_or in H as [H | H].
    - apply in_or_app. right. apply in_or_app. now left.
    - apply in_or_app. left. now apply in_rev. }
  split; intros sid H;
    repeat first [ apply in_app_or in H as [H | H]
                 | destruct H as [H | H] ];
    try discriminate; try (cbn in H; contradiction);
    try (now apply Hec2); try (now apply Hrds);
    try (now apply not_in_map_delete in H);
    try (now apply not_in_map_delete_db in H).
Qed.

End Discovery.

(* ===================================================================== *)
(** * Discovery by tag, and the order of the listing                     *)
(* ===================================================================== *)

Section Claims.

Variable self : BackupManager.

(** C1, as amended.  Every snapshot created by the instance and database
    backups carries [AutomatedBackup=true].  The cleanup only asks for the
    deletion of tagged snapshots and the listing only shows tagged
    snapshots.  The validation looks a snapshot up by id and reports its
    state, tagged or not. *)
Theorem only_tagged_snapshots_are_discovered w :
  (forall ids, created_tagged w (fst (backup_ec2_instances self ids w))) /\
  (forall ids, created_tagged w (fst (backup_rds_databases self ids w))) /\
  (forall c,
     cutoff self w = Some c ->
     exists new,
       calls (fst (cleanup_old_backups self w)) = new ++ calls w /\
       (forall sid, In (DeleteSnapshot sid) new ->
          exists s, In s (snapshots w) /\ SnapshotId s = sid
                    /\ tagged s = true) /\
       (forall sid, In (DeleteDBSnapshot sid) new ->
          exists s, In s (db_snapshots w) /\ DBSnapshotIdentifier s = sid
                    /\ db_tagged s = true)) /\
  (forall rt w' backups ts,
     list_available_backups rt w = (w', Ret (ListSuccess backups ts)) ->
     (wants rt "ec2" = true ->
      exists l, backups !! "ec2" = Some l /\
        forall d, In d l ->
          exists s, In s (snapshots w) /\ tagged s = true
                    /\ d = ec2_backup_entry s) /\
     (wants rt "rds" = true ->
      exists l, backups !! "rds" = Some l /\
        forall d, In d l ->
          exists s, In s (db_snapshots w) /\ db_tagged s = true
                    /\ d = rds_backup_entry s)) /\
  (forall id w1 s rest,
     ec2_describe_snapshots [id] w = (w1, Ret (s :: rest)) ->
     exists r,
       validate_backup_integrity "ec2" id w = (w1, Ret r) /\
       r !! "valid" = Some (VBool (String.eqb (State s) "completed"))) /\
  (forall id w1 s rest,
     rds_describe_db_snapshots (Some id) w = (w1, Ret (s :: rest)) ->
     exists r,
       validate_backup_integrity "rds" id w = (w1, Ret r) /\
       r !! "valid" = Some (VBool (String.eqb (Status s) "available"))).
Proof.
  split; [intros ids; apply backup_ec2_instances_created|].
  split; [intros ids; apply backup_rds_databases_created|].
  split; [|split; [|split]].
  - intros c Hc.
    destruct (cleanup_only_expired self w c Hc) as (new & Hcalls & He & Hd).
    exists new. split; [exact Hcalls|]. split.
    + intros sid H. now apply (in_expired_ids c), He.
    + intros sid H. apply Hd, in_expired_db_ids in H as (s & Hs & E & Ht).
      exists s. unfold manual_snapshots in Hs. apply filter_In in Hs.
      tauto.
  - intros rt w' backups ts Hrun. split; intros Hw.
    + eexists. split; [exact (list_ec2 rt w w' backups ts Hrun Hw)|].
      intros d Hd.
      apply (Permutation_in _ (sorted_reverse_perm _ _)) in Hd.
      apply in_map_iff in Hd as (s & <- & Hs). apply filter_In in Hs.
      exists s. tauto.
    + eexists. split; [exact (list_rds rt w w' backups ts Hrun Hw)|].
      intros d Hd.
      apply (Permutation_in _ (sorted_reverse_perm _ _)) in Hd.
      apply in_map_iff in Hd as (s & <- & Hs). apply filter_In in Hs as [Hs Ht].
      apply filter_In in Hs. exists s. tauto.
  - intros id w1 s rest Hd. rewrite validate_backup_integrity_run. cbn.
    rewrite Hd. eexists. split; [reflexivity|]. reflexivity.
  - intros id w1 s rest Hd. rewrite validate_backup_integrity_run. cbn.
    rewrite Hd. eexists. split; [reflexivity|]. reflexivity.
Qed.

(** C7.  [list_available_backups] succeeds when the provider refuses
    nothing, and then lists the tagged snapshots of each category newest
    first: the entries are those of the tagged snapshots, in descending
    order of creation time; three snapshots created at T1 < T2 < T3 are
    listed as T3, T2, T1. *)
Theorem list_available_backups_newest_first rt w :
  (reliable w ->
   exists w' backups ts,
     list_available_backups rt w = (w', Ret (ListSuccess backups ts))) /\
  forall w' backups ts,
    list_available_backups rt w = (w', Ret (ListSuccess backups ts)) ->
    (wants rt "ec2" = true ->
     Forall (fun s => valid (StartTime s) /\ tzinfo (StartTime s) = Some UTC)
       (snapshots w) ->
     exists l,
       backups !! "ec2" = Some (map ec2_backup_entry l) /\
       l ≡ₚ List.filter tagged (snapshots w) /\
       StronglySorted
         (fun a b => dt_ltb (StartTime a) (StartTime b) = false) l /\
       forall s1 s2 s3,
         List.filter tagged (snapshots w) ≡ₚ [s1; s2; s3] ->
         dt_ltb (StartTime s1) (StartTime s2) = true ->
         dt_ltb (StartTime s2) (StartTime s3) = true ->
         l = [s3; s2; s1]) /\
    (wants rt "rds" = true ->
     Forall (fun s => valid (SnapshotCreateTime s)
                      /\ tzinfo (SnapshotCreateTime s) = Some UTC)
       (db_snapshots w) ->
     exists l,
       backups !! "rds" = Some (map rds_backup_entry l) /\
       l ≡ₚ List.filter db_tagged (manual_snapshots w) /\
       StronglySorted
         (fun a b => dt_ltb (SnapshotCreateTime a) (SnapshotCreateTime b)
                     = false) l /\
       forall s1 s2 s3,
         List.filter db_tagged (manual_snapshots w) ≡ₚ [s1; s2; s3] ->
         dt_ltb (SnapshotCreateTime s1) (SnapshotCreateTime s2) = true ->
         dt_ltb (SnapshotCreateTime s2) (SnapshotCreateTime s3) = true ->
         l = [s3; s2; s1]).
Proof.
  split; [apply list_reliable|].
  intros w' backups ts Hrun. split; intros Hw Hvalid.
  - exists (sorted_reverse (fun s => isoformat (StartTime s))
              (List.filter tagged (snapshots w))).
    assert (Hsorted : StronglySorted
              (fun a b => dt_ltb (StartTime a) (StartTime b) = false)
              (sorted_reverse (fun s => isoformat (StartTime s))
                 (List.filter tagged (snapshots w)))).
    { apply sorted_by_isoformat. apply List.Forall_forall.
      intros s Hs. apply filter_In in Hs as [Hs _].
      rewrite List.Forall_forall in Hvalid. now apply Hvalid. }
    split; [|split; [apply sorted_reverse_perm | split; [exact Hsorted|]]].
    + rewrite (list_ec2 rt w w' backups ts Hrun Hw).
      now rewrite sorted_reverse_map.
    + intros s1 s2 s3 Hp H12 H23.
      apply (sorted3_unique _ s1 s2 s3 _
               (transitivity (sorted_reverse_perm _ _) Hp) Hsorted);
        try congruence.
      rewrite (dt_ltb_trans _ _ _ H12 H23). discriminate.
  - exists (sorted_reverse (fun s => isoformat (SnapshotCreateTime s))
              (List.filter db_tagged (manual_snapshots w))).
    assert (Hsorted : StronglySorted
              (fun a b => dt_ltb (SnapshotCreateTime a) (SnapshotCreateTime b)
                          = false)
              (sorted_reverse (fun s => isoformat (SnapshotCreateTime s))
                 (List.filter db_tagged (manual_snapshots w)))).
    { apply sorted_by_isoformat. apply List.Forall_forall.
      intros s Hs. apply filter_In in Hs as [Hs _].
      apply filter_In in Hs as [Hs _].
      rewrite List.Forall_forall in Hvalid. now apply Hvalid. }
    split; [|split; [apply sorted_reverse_perm | split; [exact Hsorted|]]].
    + rewrite (list_rds rt w w' backups ts Hrun Hw).
      now rewrite sorted_reverse_map.
    + intros s1 s2 s3 Hp H12 H23.
      apply (sorted3_unique _ s1 s2 s3 _
               (transitivity (sorted_reverse_perm _ _) Hp) Hsorted);
        try congruence.
      rewrite (dt_ltb_trans _ _ _ H12 H23). discriminate.
Qed.

End Claims.

(* ===================================================================== *)
(** * The statements at the sample providers                             *)
(* ===================================================================== *)

Section Witnesses.

Lemma distinct_NoDup (l : list string) : distinct l = true -> List.NoDup l.
Proof.
  induction l as [|x l IH]; cbn; [constructor|].
  intros H. apply andb_prop in H as [Hx Hl]. constructor; [|now apply IH].
  intros Hin. apply negb_true_iff in Hx.
  apply not_true_iff_false in Hx. apply Hx.
  apply existsb_exists. exists x. split; [exact Hin | apply String.eqb_refl].
Defined.

Lemma validb_valid (d : datetime) : validb d = true -> valid d.
Proof.
  unfold validb, valid. intros H.
  repeat (apply andb_prop in H as [H ?]). lia.
Defined.

Lemma no_fault_reliable w : fault w = no_fault -> reliable w.
Proof. intros E h c. now rewrite E. Defined.

(** C3, at the sample provider: the snapshot created exactly at the cutoff
    stays, the one created a day earlier goes. *)
Lemma cleanup_deletes_exactly_the_expired_witness :
  exists w' r,
    cleanup_old_backups manager with_snapshots = (w', Ret r) /\
    In (snap "snap-e" at_cutoff "completed" [backup_tag]) (snapshots w') /\
    ~ In (snap "snap-f" day_before_cutoff "completed" [backup_tag])
        (snapshots w').
Proof.
  destruct (cleanup_deletes_exactly_the_expired manager with_snapshots
              (mkDT 2024 3 1 12 0 0 0 None))
    as (w' & r & Hrun & _ & _ & Hkeep & _ & Hold).
  - reflexivity.
  - apply no_fault_reliable. reflexivity.
  - apply distinct_NoDup. vm_compute. reflexivity.
  - apply distinct_NoDup. vm_compute. reflexivity.
  - exists w', r. split; [exact Hrun|]. split.
    + apply Hkeep; [simpl; tauto | reflexivity | reflexivity].
    + destruct (Hold (mkDT 2024 2 29 12 0 0 0 None)) as [Hsnap _];
        [reflexivity|].
      apply Hsnap; [simpl; tauto | reflexivity | reflexivity].
Defined.

(** C8, at the sample provider: a second run right after the first one
    deletes nothing. *)
Lemma cleanup_rerun_deletes_nothing_witness :
  exists w2,
    cleanup_old_backups manager
      (set_now noon (fst (cleanup_old_backups manager with_snapshots)))
    = (w2, Ret cleanup_initial).
Proof.
  destruct (cleanup_rerun_deletes_nothing manager with_snapshots
              (mkDT 2024 3 1 12 0 0 0 None)
              (fst (cleanup_old_backups manager with_snapshots))
              (cleanup_counts 4 1) noon (mkDT 2024 3 1 12 0 0 0 None))
    as (w2 & Hrun & _).
  - reflexivity.
  - apply no_fault_reliable. reflexivity.
  - apply distinct_NoDup. vm_compute. reflexivity.
  - apply distinct_NoDup. vm_compute. reflexivity.
  - vm_compute. reflexivity.
  - reflexivity.
  - intros s _ H. exact H.
  - intros s _ H. exact H.
  - exists w2. exact Hrun.
Defined.

(** C10, at the sample provider with one snapshot in use: the third
    deletion is refused; two snapshots are gone, the database snapshots
    were not looked at, and the result counts 2 and 0. *)
Lemma cleanup_is_not_atomic_witness :
  exists w1,
    cleanup_old_backups manager
      (with_fault (refuse (is_delete_of "snap-c") "InUse") with_snapshots)
    = (w1, Ret (cleanup_counts 2 0)) /\
    db_snapshots w1 = db_snapshots with_snapshots.
Proof.
  destruct (cleanup_is_not_atomic manager
              (with_fault (refuse (is_delete_of "snap-c") "InUse")
                 with_snapshots)
              (mkDT 2024 3 1 12 0 0 0 None)
              (fst (fst (cleanup_ec2_snapshots (mkDT 2024 3 1 12 0 0 0 None)
                           (with_fault (refuse (is_delete_of "snap-c") "InUse")
                              with_snapshots) cleanup_initial)))
              (cleanup_counts 2 0) "InUse")
    as (Hrun & _ & Hdb & _).
  - reflexivity.
  - vm_compute. reflexivity.
  - eexists. split; [exact Hrun | exact Hdb].
Defined.

(** C6, at the sample provider: a pending snapshot is not valid. *)
Lemma validate_backup_integrity_maps_state_witness :
  exists w' r,
    validate_backup_integrity "ec2" "snap-b" with_snapshots = (w', Ret r) /\
    r !! "valid" = Some (VBool false).
Proof.
  destruct (validate_backup_integrity_maps_state "ec2" "snap-b" with_snapshots)
    as (w' & r & Hrun & Hec2 & _).
  exists w', r. split; [exact Hrun|].
  destruct (Hec2 (fst (ec2_describe_snapshots ["snap-b"] with_snapshots))
              (snap "snap-b" jan1 "pending" [backup_tag]) [])
    as (_ & Hpending & _).
  - reflexivity.
  - vm_compute. reflexivity.
  - apply Hpending. reflexivity.
Defined.

(** C7, at the sample provider: the listing succeeds and the snapshots of
    the instance category are the tagged ones, newest first. *)
Lemma list_available_backups_newest_first_witness :
  exists w' backups ts l,
    list_available_backups "all" with_snapshots
    = (w', Ret (ListSuccess backups ts)) /\
    backups !! "ec2" = Some (map ec2_backup_entry l) /\
    l ≡ₚ List.filter tagged (snapshots with_snapshots) /\
    StronglySorted (fun a b => dt_ltb (StartTime a) (StartTime b) = false) l.
Proof.
  destruct (list_available_backups_newest_first "all" with_snapshots)
    as [Hok Hsorted].
  destruct Hok as (w' & backups & ts & Hrun);
    [apply no_fault_reliable; reflexivity|].
  destruct (Hsorted w' backups ts Hrun) as [Hec2 _].
  destruct Hec2 as (l & Hl & Hp & Hs & _).
  - reflexivity.
  - unfold with_snapshots. cbn [snapshots].
    repeat (constructor;
            [split; [apply validb_valid | ]; vm_compute; reflexivity|]).
    constructor.
  - exists w', backups, ts, l. auto.
Defined.

(** C9, at a sample provider that refuses every copy: the listing runs to
    its end, so the restore reports success. *)
Lemma restore_s3_objects_success_is_listing_witness :
  exists w' r,
    restore_s3_objects "data" "rep" "backup-bucket" "x/"
      (with_fault (refuse is_copy_call "AccessDenied") one_bucket) = (w', Ret r) /\
    r !! "success" = Some (VBool true).
Proof.
  destruct (restore_s3_objects_success_is_listing "data" "rep"
              "backup-bucket" "x/"
              (with_fault (refuse is_copy_call "AccessDenied") one_bucket))
    as (w' & r & Hrun & _ & Hlisted & _).
  exists w', r. split; [exact Hrun|]. apply Hlisted.
  - intros h i. reflexivity.
  - reflexivity.
Defined.

(** C4 (amended), at the sample provider: the pipeline returns. *)
Lemma run_full_backup_summary_witness :
  exists w' r, run_full_backup manager with_snapshots = (w', Ret r).
Proof.
  destruct (run_full_backup_summary manager with_snapshots) as [Hret _].
  apply Hret. vm_compute. discriminate.
Defined.

(** C1 (amended), at the sample provider: the deletions asked for by the
    cleanup all name tagged snapshots. *)
Lemma only_tagged_snapshots_are_discovered_witness :
  exists new,
    calls (fst (cleanup_old_backups manager with_snapshots))
    = new ++ calls with_snapshots /\
    forall sid, In (DeleteSnapshot sid) new ->
      exists s, In s (snapshots with_snapshots) /\ SnapshotId s = sid
                /\ tagged s = true.
Proof.
  destruct (only_tagged_snapshots_are_discovered manager with_snapshots)
    as (_ & _ & Hcleanup & _).
  destruct (Hcleanup (mkDT 2024 3 1 12 0 0 0 None)) as (new & Hcalls & Hs & _).
  - reflexivity.
  - exists new. split; [exact Hcalls | exact Hs].
Defined.

(** C2 (amended), at the sample provider: three database ids, one of them
    unknown, give three records. *)
Lemma batch_outcomes_account_for_resources_witness :
  exists w' r,
    backup_rds_databases manager ["db-1"; "db-9"; "db-2"] two_databases
    = (w', Ret r) /\
    (length (success r) + length (failed r) = 3)%nat.
Proof.
  destruct (batch_outcomes_account_for_resources manager two_databases)
    as (Hrds & _).
  destruct (Hrds ["db-1"; "db-9"; "db-2"]) as (w' & r & Hrun & Hlen & _).
  - discriminate.
  - apply distinct_NoDup. vm_compute. reflexivity.
  - exists w', r. split; [exact Hrun | exact Hlen].
Defined.

(** C5 (amended), at the sample provider: the unknown database id gets a
    failure record of its own. *)
Lemma explicit_ids_are_isolated_per_database_witness :
  exists w' r e,
    backup_rds_databases manager ["db-1"; "db-9"; "db-2"] two_databases
    = (w', Ret r) /\
    In (rds_failure_entry "db-9" e) (failed r).
Proof.
  destruct (explicit_ids_are_isolated_per_database manager two_databases)
    as (Hrds & _).
  destruct (Hrds ["db-1"; "db-9"; "db-2"]) as (w' & r & Hrun & _ & _ & Hun).
  - discriminate.
  - apply distinct_NoDup. vm_compute. reflexivity.
  - destruct (Hun "db-9") as [e He]; [simpl; tauto | reflexivity|].
    exists w', r, e. split; [exact Hrun | exact He].
Defined.

End Witnesses.

(* ===================================================================== *)
(** * Runs that the statements above had to leave room for               *)
(* ===================================================================== *)

Section Counterexamples.

(** C1, as stated, fails: [validate_backup_integrity] reports on a snapshot
    without the tag, and a copy made by [backup_s3_buckets] does not carry
    the tag. *)
Lemma untagged_artifacts_counterexample :
  (exists w' r,
     tagged (snap "snap-d" jan1 "completed" []) = false /\
     validate_backup_integrity "ec2" "snap-d" with_snapshots = (w', Ret r) /\
     r !! "valid" = Some (VBool true)) /\
  (exists o,
     In o (bucket_objects "backup-bucket"
             (fst (backup_s3_buckets manager [] one_bucket))) /\
     ObjKey o = "s3-backups/data/2024/03/31/report.txt" /\
     is_automated_backup (ObjTags o) = false).
Proof.
  split.
  - eexists. eexists. split; [reflexivity|].
    split; [vm_compute; reflexivity | reflexivity].
  - eexists. split; [vm_compute; left; reflexivity|].
    split; reflexivity.
Qed.

(** C2, as stated, fails for instances: one instance with two volumes
    gives two success records, and when the second snapshot is refused the
    instance is in both lists. *)
Lemma one_instance_two_records_counterexample :
  (exists w' r,
     backup_ec2_instances manager [] two_volumes = (w', Ret r) /\
     length (concat (reservations two_volumes)) = 1%nat /\
     (length (success r) + length (failed r) = 2)%nat) /\
  (exists w' r,
     backup_ec2_instances manager []
       (with_fault (refuse (fun c => match c with
                                     | CreateSnapshot "vol-2" _ _ => true
                                     | _ => false
                                     end) "VolumeInUse") two_volumes)
     = (w', Ret r) /\
     count_about "instance_id" "i-1" (success r) = 1%nat /\
     count_about "instance_id" "i-1" (failed r) = 1%nat).
Proof.
  split; eexists; eexists; (split; [vm_compute; reflexivity|]);
    split; reflexivity.
Qed.

(** C5, as stated, fails for instances: with one unknown id in the list,
    the known instance is not backed up and the only record is a failure
    without instance id, although the instance alone is backed up. *)
Lemma one_bad_instance_id_counterexample :
  (exists w',
     backup_ec2_instances manager ["i-1"; "i-9"] two_instances
     = (w', Ret (mkResults []
                   [batch_failure "InvalidInstanceID.NotFound"]))) /\
  batch_failure "InvalidInstanceID.NotFound" !! "instance_id" = None /\
  (exists w' r,
     backup_ec2_instances manager ["i-1"] two_instances = (w', Ret r) /\
     count_about "instance_id" "i-1" (success r) = 1%nat /\
     failed r = []).
Proof.
  split; [eexists; vm_compute; reflexivity|].
  split; [reflexivity|].
  eexists. eexists. split; [vm_compute; reflexivity|]. split; reflexivity.
Qed.

End Counterexamples.

(* ===================================================================== *)
(** * What the methods leave alone                                       *)
(* ===================================================================== *)

Section Footprints.

Lemma untouched_refl w : untouched w w.
Proof. unfold untouched. auto using frame_refl. Qed.

Lemma untouched_trans w1 w2 w3 :
  untouched w1 w2 -> untouched w2 w3 -> untouched w1 w3.
Proof.
  intros (F1 & A1 & B1 & C1 & D1) (F2 & A2 & B2 & C2 & D2).
  split; [eapply frame_trans; eassumption|]. repeat split; congruence.
Qed.

Lemma untouched_log c w : untouched w (set_calls (cons c) w).
Proof. unfold untouched, frame. cbn. tauto. Qed.

Lemma only_removed_refl w : only_removed w w.
Proof. unfold only_removed. auto using frame_refl. Qed.

Lemma only_removed_trans w1 w2 w3 :
  only_removed w1 w2 -> only_removed w2 w3 -> only_removed w1 w3.
Proof.
  intros (F1 & A1 & B1 & C1 & D1) (F2 & A2 & B2 & C2 & D2).
  split; [eapply frame_trans; eassumption|].
  repeat split; try congruence; auto.
Qed.

Lemma only_removed_log c w : only_removed w (set_calls (cons c) w).
Proof. unfold only_removed, frame. cbn. tauto. Qed.

Lemma untouched_only_removed w w' : untouched w w' -> only_removed w w'.
Proof.
  intros (F & A & B & C & D). unfold only_removed.
  rewrite A, B. auto.
Qed.

End Footprints.

(** A provider call that answers without changing anything. *)
Ltac solve_untouched :=
  apply (provider_keeps untouched untouched_trans);
  [ apply untouched_log
  | intros;
    repeat match goal with
           | |- context [match ?x with _ => _ end] => destruct x
           end;
    apply untouched_refl ].

Ltac solve_issued :=
  apply provider_issued; [reflexivity | solve_calls_sem].

Section ReadOnly.

Lemma ec2_describe_snapshots_untouched ids :
  op_keeps untouched (ec2_describe_snapshots ids).
Proof. solve_untouched. Qed.

Lemma rds_describe_db_snapshots_untouched id :
  op_keeps untouched (rds_describe_db_snapshots id).
Proof. solve_untouched. Qed.

Lemma s3_list_common_prefixes_untouched b p :
  op_keeps untouched (s3_list_common_prefixes b p).
Proof. solve_untouched. Qed.

Lemma ec2_describe_instances_untouched ids :
  op_keeps untouched (ec2_describe_instances ids).
Proof. solve_untouched. Qed.

Lemma rds_describe_db_instances_untouched id :
  op_keeps untouched (rds_describe_db_instances id).
Proof. solve_untouched. Qed.

Lemma s3_head_bucket_untouched b : op_keeps untouched (s3_head_bucket b).
Proof. solve_untouched. Qed.

Lemma s3_list_buckets_untouched : op_keeps untouched s3_list_buckets.
Proof. solve_untouched. Qed.

Lemma s3_fetch_page_untouched b p i pg :
  op_keeps untouched (s3_fetch_page b p i pg).
Proof. solve_untouched. Qed.

Lemma sns_publish_untouched t m s : op_keeps untouched (sns_publish t m s).
Proof. solve_untouched. Qed.

Lemma list_available_backups_untouched rt :
  op_keeps untouched (list_available_backups rt).
Proof.
  unfold list_available_backups.
  keeps_structure untouched_refl untouched_trans;
    auto using ec2_describe_snapshots_untouched,
      rds_describe_db_snapshots_untouched, s3_list_common_prefixes_untouched.
Qed.

Lemma list_available_backups_reads rt :
  op_keeps (issued (fun c => is_read_call c = true))
    (list_available_backups rt).
Proof.
  unfold list_available_backups.
  keeps_structure (issued_refl (fun c => is_read_call c = true))
    (issued_trans (fun c => is_read_call c = true));
    unfold ec2_describe_snapshots, rds_describe_db_snapshots,
      s3_list_common_prefixes; solve_issued.
Qed.

Lemma validate_backup_integrity_untouched bt id :
  op_keeps untouched (validate_backup_integrity bt id).
Proof.
  unfold validate_backup_integrity.
  keeps_structure untouched_refl untouched_trans;
    auto using ec2_describe_snapshots_untouched,
      rds_describe_db_snapshots_untouched.
Qed.

Lemma validate_backup_integrity_reads bt id :
  op_keeps (issued (fun c => is_read_call c = true))
    (validate_backup_integrity bt id).
Proof.
  unfold validate_backup_integrity.
  keeps_structure (issued_refl (fun c => is_read_call c = true))
    (issued_trans (fun c => is_read_call c = true));
    unfold ec2_describe_snapshots, rds_describe_db_snapshots; solve_issued.
Qed.

(** X1.  [list_available_backups] and [validate_backup_integrity] only
    read: whatever they are asked and whatever the provider refuses, they
    issue nothing but describe and list requests, and they leave every
    snapshot, database snapshot and bucket as it was. *)
Theorem listing_and_validation_only_read rt bt id w :
  untouched w (fst (list_available_backups rt w)) /\
  untouched w (fst (validate_backup_integrity bt id w)) /\
  (exists new,
     calls (fst (list_available_backups rt w)) = new ++ calls w /\
     Forall (fun c => is_read_call c = true) new) /\
  (exists new,
     calls (fst (validate_backup_integrity bt id w)) = new ++ calls w /\
     Forall (fun c => is_read_call c = true) new).
Proof.
  split; [apply list_available_backups_untouched|].
  split; [apply validate_backup_integrity_untouched|].
  split; [apply list_available_backups_reads
         | apply validate_backup_integrity_reads].
Qed.

End ReadOnly.

Section CleanupFootprint.

Lemma ec2_delete_snapshot_only_removed sid :
  op_keeps only_removed (ec2_delete_snapshot sid).
Proof.
  apply (provider_keeps only_removed only_removed_trans);
    [apply only_removed_log|].
  intros w. destruct (existsb _ _); [|apply only_removed_refl].
  unfold only_removed, frame. cbn. repeat split; auto.
  intros s Hs. now apply filter_In in Hs.
Qed.

Lemma rds_delete_db_snapshot_only_removed sid :
  op_keeps only_removed (rds_delete_db_snapshot sid).
Proof.
  apply (provider_keeps only_removed only_removed_trans);
    [apply only_removed_log|].
  intros w. destruct (existsb _ _); [|apply only_removed_refl].
  unfold only_removed, frame. cbn. repeat split; auto.
  intros s Hs. now apply filter_In in Hs.
Qed.

Lemma op_keeps_weaken (R R' : World -> World -> Prop) {A}
  (op : World -> World * outcome A) :
  (forall w w', R w w' -> R' w w') -> op_keeps R op -> op_keeps R' op.
Proof. intros H K w. apply H, K. Qed.

Lemma cleanup_old_backups_only_removed self :
  op_keeps only_removed (cleanup_old_backups self).
Proof.
  unfold cleanup_old_backups.
  keeps_structure only_removed_refl only_removed_trans;
    first [ apply ec2_delete_snapshot_only_removed
          | apply rds_delete_db_snapshot_only_removed
          | apply (op_keeps_weaken untouched _ _ untouched_only_removed);
            first [ apply ec2_describe_snapshots_untouched
                  | apply rds_describe_db_snapshots_untouched ] ].
Qed.

Lemma cleanup_old_backups_calls self :
  op_keeps (issued (fun c => is_cleanup_call c = true))
    (cleanup_old_backups self).
Proof.
  unfold cleanup_old_backups.
  keeps_structure (issued_refl (fun c => is_cleanup_call c = true))
    (issued_trans (fun c => is_cleanup_call c = true));
    unfold ec2_describe_snapshots, rds_describe_db_snapshots,
      ec2_delete_snapshot, rds_delete_db_snapshot; solve_issued.
Qed.

Lemma no_object_deleted_refl l : no_object_deleted l l.
Proof. intros H. exact H. Qed.

Lemma no_object_deleted_trans l1 l2 l3 :
  no_object_deleted l1 l2 -> no_object_deleted l2 l3 ->
  no_object_deleted l1 l3.
Proof. unfold no_object_deleted. auto. Qed.

Lemma cleanup_loops_count_no_object c :
  locals_keep no_object_deleted
    (cleanup_ec2_snapshots c;; cleanup_rds_snapshots c).
Proof.
  locals_keep_structure no_object_deleted_refl no_object_deleted_trans;
    intros l H; unfold increment; now rewrite lookup_alter_ne.
Qed.

(** X2.  [cleanup_old_backups] deletes snapshots and nothing else: it
    creates nothing, it leaves every bucket and object as it was (the
    copies made by [backup_s3_buckets] are never cleaned up), it issues no
    request but the two listings and snapshot deletions, and the
    [s3_objects_deleted] count of every result is 0. *)
Theorem cleanup_never_touches_the_object_store self w :
  buckets (fst (cleanup_old_backups self w)) = buckets w /\
  (forall s, In s (snapshots (fst (cleanup_old_backups self w))) ->
             In s (snapshots w)) /\
  (forall s, In s (db_snapshots (fst (cleanup_old_backups self w))) ->
             In s (db_snapshots w)) /\
  (exists new,
     calls (fst (cleanup_old_backups self w)) = new ++ calls w /\
     Forall (fun c => is_cleanup_call c = true) new) /\
  (forall r, snd (cleanup_old_backups self w) = Ret r ->
             r !! "s3_objects_deleted" = Some 0).
Proof.
  destruct (cleanup_old_backups_only_removed self w) as (_ & B & _ & S & D).
  split; [exact B|]. split; [exact S|]. split; [exact D|].
  split; [apply cleanup_old_backups_calls|].
  intros r Hr. destruct (cutoff self w) as [c|] eqn:Hc.
  - rewrite (cleanup_old_backups_run self w c Hc) in Hr.
    pose proof (cleanup_loops_count_no_object c w cleanup_initial) as H.
    destruct ((cleanup_ec2_snapshots c;; cleanup_rds_snapshots c) w
                cleanup_initial) as [[w' l'] o].
    cbn in Hr, H. injection Hr as <-. now apply H.
  - now rewrite (cleanup_old_backups_overflow self w Hc) in Hr.
Qed.

End CleanupFootprint.

(* ===================================================================== *)
(** * The object store                                                   *)
(* ===================================================================== *)

Section ObjectStore.

Lemma put_object_keys (o : S3Object) (l : list S3Object) (k : string) :
  In k (map ObjKey (put_object o l))
  <-> k = ObjKey o \/ In k (map ObjKey l).
Proof.
  unfold put_object.
  destruct (existsb _ l) eqn:E.
  - apply existsb_exists in E as (o' & Ho' & Heq).
    apply String.eqb_eq in Heq.
    rewrite !in_map_iff. split.
    + intros (x & <- & Hx). apply in_map_iff in Hx as (y & <- & Hy).
      destruct (String.eqb_spec (ObjKey y) (ObjKey o)); [now left|].
      right. now exists y.
    + intros [-> | (x & <- & Hx)].
      * exists o. split; [reflexivity|]. apply in_map_iff. exists o'.
        rewrite Heq, String.eqb_refl. auto.
      * destruct (String.eqb_spec (ObjKey x) (ObjKey o)) as [e|n].
        -- exists o. split; [now symmetry|]. apply in_map_iff. exists x.
           rewrite e, String.eqb_refl. auto.
        -- exists x. split; [reflexivity|]. apply in_map_iff. exists x.
           apply String.eqb_neq in n. rewrite n. auto.
  - rewrite map_app, in_app_iff. cbn. intuition (subst; auto).
Qed.

Lemma find_bucket_app b (l l' : list Bucket) :
  List.find (bucket_has_name b) (l ++ l')
  = match List.find (bucket_has_name b) l with
    | Some bk => Some bk
    | None => List.find (bucket_has_name b) l'
    end.
Proof.
  induction l as [|x l IH]; [reflexivity|]. cbn.
  now destruct (bucket_has_name b x).
Qed.

Lemma find_bucket_none b (l : list Bucket) :
  existsb (bucket_has_name b) l = false ->
  List.find (bucket_has_name b) l = None.
Proof.
  induction l as [|x l IH]; [reflexivity|]. cbn.
  destruct (bucket_has_name b x); [discriminate | exact IH].
Qed.

Lemma find_bucket_some b (l : list Bucket) :
  existsb (bucket_has_name b) l = true ->
  exists bk, List.find (bucket_has_name b) l = Some bk.
Proof.
  induction l as [|x l IH]; [discriminate|]. cbn.
  destruct (bucket_has_name b x); eauto.
Qed.

(** The buckets after a copy into [dst]. *)
Lemma find_bucket_put b dst (f : list S3Object -> list S3Object)
  (l : list Bucket) :
  List.find (bucket_has_name b)
    (map (fun bk => if bucket_has_name dst bk
                    then mkBucket dst (f (Objects bk)) else bk) l)
  = match List.find (bucket_has_name b) l with
    | Some bk => Some (if bucket_has_name dst bk
                       then mkBucket dst (f (Objects bk)) else bk)
    | None => None
    end.
Proof.
  induction l as [|x l IH]; [reflexivity|].
  cbn [map List.find]. destruct (bucket_has_name dst x) eqn:Ed.
  - unfold bucket_has_name in Ed. apply String.eqb_eq in Ed.
    replace (bucket_has_name b x) with (String.eqb dst b)
      by (unfold bucket_has_name; now rewrite Ed).
    change (bucket_has_name b (mkBucket dst (f (Objects x))))
      with (String.eqb dst b).
    destruct (String.eqb dst b); [|exact IH].
    unfold bucket_has_name. now rewrite Ed, String.eqb_refl.
  - destruct (bucket_has_name b x); [|exact IH]. now rewrite Ed.
Qed.

Lemma bucket_objects_put_other b dst f w :
  b <> dst ->
  bucket_objects b
    (set_buckets (map (fun bk => if bucket_has_name dst bk
                                 then mkBucket dst (f (Objects bk)) else bk)) w)
  = bucket_objects b w.
Proof.
  intros Hne. unfold bucket_objects. cbn. rewrite find_bucket_put.
  destruct (List.find (bucket_has_name b) (buckets w)) as [bk|] eqn:E;
    [|reflexivity].
  apply find_some in E as [_ E]. unfold bucket_has_name in *.
  apply String.eqb_eq in E.
  destruct (String.eqb_spec (BucketName bk) dst); [congruence | reflexivity].
Qed.

Lemma bucket_objects_put_same dst f w :
  bucket_exists dst w = true ->
  bucket_objects dst
    (set_buckets (map (fun bk => if bucket_has_name dst bk
                                 then mkBucket dst (f (Objects bk)) else bk)) w)
  = f (bucket_objects dst w).
Proof.
  intros He. unfold bucket_objects. cbn. rewrite find_bucket_put.
  destruct (find_bucket_some _ _ He) as [bk E]. rewrite E.
  apply find_some in E as [_ E]. now rewrite E.
Qed.

Lemma bucket_exists_put b dst f w :
  bucket_exists b
    (set_buckets (map (fun bk => if bucket_has_name dst bk
                                 then mkBucket dst (f (Objects bk)) else bk)) w)
  = bucket_exists b w.
Proof.
  unfold bucket_exists. cbn.
  induction (buckets w) as [|x l IH]; [reflexivity|]. cbn. rewrite IH.
  f_equal. unfold bucket_has_name.
  destruct (String.eqb_spec (BucketName x) dst); cbn; congruence.
Qed.

(** [copy_object], case by case. *)
Lemma s3_copy_object_run src sk dst dk tagging w :
  s3_copy_object src sk dst dk tagging w
  = let w1 := set_calls (cons (CopyObject src sk dst dk tagging)) w in
    match fault w (calls w) (CopyObject src sk dst dk tagging) with
    | Some e => (w1, Raise e)
    | None =>
        if negb (bucket_exists src w && bucket_exists dst w)
        then (w1, Raise "NoSuchBucket")
        else if negb (existsb (String.eqb sk) (object_keys src w))
        then (w1, Raise "NoSuchKey")
        else (set_buckets
                (map (fun bk =>
                        if bucket_has_name dst bk
                        then mkBucket dst
                               (put_object
                                  (mkS3Object dk (parse_tagging tagging))
                                  (Objects bk))
                        else bk)) w1,
              Ret tt)
    end.
Proof.
  unfold s3_copy_object, provider. cbn.
  destruct (fault w (calls w) _); [reflexivity|].
  change (bucket_exists src (set_calls _ w)) with (bucket_exists src w).
  change (bucket_exists dst (set_calls _ w)) with (bucket_exists dst w).
  change (bucket_objects src (set_calls _ w)) with (bucket_objects src w).
  replace (existsb (fun o => String.eqb (ObjKey o) sk) (bucket_objects src w))
    with (existsb (String.eqb sk) (object_keys src w)); [reflexivity|].
  unfold object_keys. induction (bucket_objects src w) as [|o l IH];
    [reflexivity|]. cbn. rewrite IH. f_equal. apply String.eqb_sym.
Qed.

Lemma writes_only_into_refl dst w : writes_only_into dst w w.
Proof. unfold writes_only_into. auto 10 using frame_refl. Qed.

Lemma writes_only_into_trans dst w1 w2 w3 :
  writes_only_into dst w1 w2 -> writes_only_into dst w2 w3 ->
  writes_only_into dst w1 w3.
Proof.
  intros (F1 & A1 & B1 & C1 & D1 & E1 & G1) (F2 & A2 & B2 & C2 & D2 & E2 & G2).
  split; [eapply frame_trans; eassumption|].
  repeat split; try congruence; auto.
  intros b Hb. rewrite E2, E1; auto.
Qed.

Lemma untouched_writes_only_into dst w w' :
  untouched w w' -> writes_only_into dst w w'.
Proof.
  intros (F & A & B & C & D). unfold writes_only_into, bucket_exists,
    object_keys, bucket_objects. rewrite A, B, C, D. auto 10.
Qed.

Lemma s3_copy_object_writes src sk dst dk tagging :
  op_keeps (writes_only_into dst) (s3_copy_object src sk dst dk tagging).
Proof.
  intros w. rewrite s3_copy_object_run. cbn zeta.
  destruct (fault w (calls w) _);
    [apply untouched_writes_only_into, untouched_log|].
  destruct (negb (_ && _)) eqn:E;
    [apply untouched_writes_only_into, untouched_log|].
  destruct (negb (existsb _ _));
    [apply untouched_writes_only_into, untouched_log|].
  apply negb_false_iff, andb_prop in E as [_ Hdst]. cbn [fst].
  split; [unfold frame; cbn; tauto|].
  repeat split; try reflexivity.
  - intros b Hb. now rewrite bucket_exists_put.
  - intros b Hb. now rewrite bucket_objects_put_other.
  - intros k Hk. unfold object_keys in *.
    rewrite bucket_objects_put_same by exact Hdst.
    apply put_object_keys. now right.
Qed.

Lemma s3_create_bucket_writes dst location :
  op_keeps (writes_only_into dst) (s3_create_bucket dst location).
Proof.
  apply (provider_keeps _ (writes_only_into_trans dst));
    [intros w; apply untouched_writes_only_into, untouched_log|].
  intros w. destruct (bucket_exists dst w) eqn:E;
    [apply writes_only_into_refl|].
  split; [unfold frame; cbn; tauto|]. cbn [fst].
  repeat split; try reflexivity.
  - intros b Hb. unfold bucket_exists in *. cbn. rewrite existsb_app, Hb.
    reflexivity.
  - intros b Hb. unfold bucket_objects. cbn. rewrite find_bucket_app.
    destruct (List.find (bucket_has_name b) (buckets w)); [reflexivity|].
    cbn. unfold bucket_has_name. cbn.
    destruct (String.eqb_spec dst b); [congruence | reflexivity].
  - intros k Hk. unfold object_keys, bucket_objects in Hk.
    rewrite (find_bucket_none _ _ E) in Hk. destruct Hk.
Qed.

End ObjectStore.

Section Postconditions.

Variable R : World -> World -> Prop.
Hypothesis R_trans : forall w1 w2 w3, R w1 w2 -> R w2 w3 -> R w1 w3.

(** As [keeps_bind], when the continuation needs to know what the first
    statement returned. *)
Lemma keeps_bind_post {L A B} (m : M L A) (k : A -> M L B) (Q : A -> Prop) :
  keeps R m ->
  (forall w l w' l' a, m w l = (w', l', Ret a) -> Q a) ->
  (forall a, Q a -> keeps R (k a)) -> keeps R (m ≫= k).
Proof.
  intros Hm HQ Hk w l. rewrite bind_run.
  pose proof (Hm w l) as H1. pose proof (HQ w l) as H2.
  destruct (m w l) as [[w1 l1] [a|e]]; [|exact H1].
  cbn in H1. eapply R_trans; [exact H1|].
  apply Hk. eapply H2. reflexivity.
Qed.

End Postconditions.

Create HintDb untouched_ops.
#[global] Hint Resolve ec2_describe_snapshots_untouched
  rds_describe_db_snapshots_untouched s3_list_common_prefixes_untouched
  ec2_describe_instances_untouched rds_describe_db_instances_untouched
  s3_head_bucket_untouched s3_list_buckets_untouched s3_fetch_page_untouched
  sns_publish_untouched : untouched_ops.

Section S3Footprint.

Variable self : BackupManager.

Lemma s3_put_bucket_versioning_untouched b :
  op_keeps untouched (s3_put_bucket_versioning b).
Proof. solve_untouched. Qed.

Lemma s3_put_bucket_lifecycle_configuration_untouched b g d e :
  op_keeps untouched (s3_put_bucket_lifecycle_configuration b g d e).
Proof. solve_untouched. Qed.

Lemma backup_s3_buckets_writes names :
  op_keeps (writes_only_into (backup_bucket self))
    (backup_s3_buckets self names).
Proof.
  unfold backup_s3_buckets.
  keeps_structure (writes_only_into_refl (backup_bucket self))
    (writes_only_into_trans (backup_bucket self));
    first [ apply s3_copy_object_writes
          | apply s3_create_bucket_writes
          | apply (op_keeps_weaken untouched _ _
                     (untouched_writes_only_into (backup_bucket self)));
            auto using s3_put_bucket_versioning_untouched,
              s3_put_bucket_lifecycle_configuration_untouched
              with untouched_ops ].
Qed.

Lemma backup_s3_buckets_calls names :
  op_keeps (issued (fun c => is_s3_backup_call c = true))
    (backup_s3_buckets self names).
Proof.
  unfold backup_s3_buckets.
  keeps_structure (issued_refl (fun c => is_s3_backup_call c = true))
    (issued_trans (fun c => is_s3_backup_call c = true));
    unfold s3_head_bucket, s3_create_bucket, s3_put_bucket_versioning,
      s3_put_bucket_lifecycle_configuration, s3_list_buckets, s3_fetch_page,
      s3_copy_object, sns_publish; solve_issued.
Qed.

(** X3.  [backup_s3_buckets] writes into the backup bucket and nowhere
    else: whatever the names it is given and whatever fails, the objects
    of every other bucket are as they were, no bucket disappears, the
    backup bucket loses no key, no snapshot changes, and every request is
    one to the object store or a notification. *)
Theorem backup_s3_buckets_writes_only_into_the_backup_bucket names w :
  writes_only_into (backup_bucket self) w
    (fst (backup_s3_buckets self names w)) /\
  exists new,
    calls (fst (backup_s3_buckets self names w)) = new ++ calls w /\
    Forall (fun c => is_s3_backup_call c = true) new.
Proof.
  split; [apply backup_s3_buckets_writes | apply backup_s3_buckets_calls].
Qed.

End S3Footprint.

Section RestoreFootprint.

Variables backup_bucket backup_prefix target_bucket target_prefix : string.

Lemma restore_s3_objects_writes :
  op_keeps (writes_only_into target_bucket)
    (restore_s3_objects backup_bucket backup_prefix target_bucket
       target_prefix).
Proof.
  unfold restore_s3_objects.
  keeps_structure (writes_only_into_refl target_bucket)
    (writes_only_into_trans target_bucket);
    first [ apply s3_copy_object_writes
          | apply (op_keeps_weaken untouched _ _
                     (untouched_writes_only_into target_bucket));
            auto with untouched_ops ].
Qed.

Lemma restore_s3_objects_calls :
  op_keeps (issued (fun c => is_s3_restore_call c = true))
    (restore_s3_objects backup_bucket backup_prefix target_bucket
       target_prefix).
Proof.
  unfold restore_s3_objects.
  keeps_structure (issued_refl (fun c => is_s3_restore_call c = true))
    (issued_trans (fun c => is_s3_restore_call c = true));
    unfold s3_fetch_page, s3_copy_object; solve_issued.
Qed.

Lemma restore_s3_objects_same_buckets :
  op_keeps same_buckets
    (restore_s3_objects backup_bucket backup_prefix target_bucket
       target_prefix).
Proof.
  unfold restore_s3_objects.
  keeps_structure same_buckets_refl same_buckets_trans; intros w;
    first [ apply s3_copy_object_same_buckets
          | apply s3_fetch_page_same_buckets ].
Qed.

(** X4.  [restore_s3_objects] writes into the target bucket and nowhere
    else: the objects of every other bucket, the backup bucket among them
    when it is not the target, are as they were; it creates no bucket (a
    missing target is not made), deletes nothing, and issues only listing
    and copy requests. *)
Theorem restore_s3_objects_writes_only_into_the_target w :
  writes_only_into target_bucket w
    (fst (restore_s3_objects backup_bucket backup_prefix target_bucket
            target_prefix w)) /\
  (forall b,
     bucket_exists b
       (fst (restore_s3_objects backup_bucket backup_prefix target_bucket
               target_prefix w))
     = bucket_exists b w) /\
  exists new,
    calls (fst (restore_s3_objects backup_bucket backup_prefix target_bucket
                  target_prefix w)) = new ++ calls w /\
    Forall (fun c => is_s3_restore_call c = true) new.
Proof.
  split; [apply restore_s3_objects_writes|].
  split; [apply restore_s3_objects_same_buckets|].
  apply restore_s3_objects_calls.
Qed.

End RestoreFootprint.

(* ===================================================================== *)
(** * [_ensure_backup_bucket]                                            *)
(* ===================================================================== *)

Section EnsureBucket.

Variable self : BackupManager.

Lemma provider_refused {A} c (sem : World -> World * outcome A) w e :
  fault w (calls w) c = Some e ->
  provider c sem w = (set_calls (cons c) w, Raise e).
Proof. intros H. unfold provider. now rewrite H. Qed.

Lemma provider_accepted {A} c (sem : World -> World * outcome A) w :
  fault w (calls w) c = None ->
  provider c sem w = sem (set_calls (cons c) w).
Proof. intros H. unfold provider. now rewrite H. Qed.

Lemma ensure_backup_bucket_run {L} w (l : L) :
  _ensure_backup_bucket self w l
  = match s3_head_bucket (backup_bucket self) w with
    | (w1, Ret _) => (w1, l, Ret tt)
    | (w1, Raise _) =>
        match s3_create_bucket (backup_bucket self)
                (location_constraint self) w1 with
        | (w2, Raise e) => (w2, l, Raise e)
        | (w2, Ret _) =>
            match s3_put_bucket_versioning (backup_bucket self) w2 with
            | (w3, Raise e) => (w3, l, Raise e)
            | (w3, Ret _) =>
                let '(w4, o) :=
                  s3_put_bucket_lifecycle_configuration (backup_bucket self)
                    7 30 (retention_days self) w3 in
                (w4, l, o)
            end
        end
    end.
Proof.
  unfold _ensure_backup_bucket, try_except, location_constraint.
  rewrite call_run.
  destruct (s3_head_bucket (backup_bucket self) w) as [w1 [[]|e]];
    [reflexivity|].
  cbn [fst snd]. rewrite bind_run.
  assert (E : (if String.eqb (region self) "us-east-1"
               then call (s3_create_bucket (backup_bucket self) None)
               else call (s3_create_bucket (backup_bucket self)
                            (Some (region self)))) w1 l
              = call (s3_create_bucket (backup_bucket self)
                        (if String.eqb (region self) "us-east-1"
                         then None else Some (region self))) w1 l)
    by now destruct (String.eqb (region self) "us-east-1").
  rewrite E, call_run.
  destruct (s3_create_bucket _ _ w1) as [w2 [[]|e2]]; [|reflexivity].
  cbn [fst snd]. rewrite bind_run, call_run.
  destruct (s3_put_bucket_versioning _ w2) as [w3 [[]|e3]]; [|reflexivity].
  cbn [fst snd]. rewrite call_run.
  now destruct (s3_put_bucket_lifecycle_configuration _ _ _ _ w3).
Qed.

Lemma bucket_exists_log b c w :
  bucket_exists b (set_calls (cons c) w) = bucket_exists b w.
Proof. reflexivity. Qed.

Lemma provider_reliable {A} c (sem : World -> World * outcome A) w :
  reliable w -> provider c sem w = sem (set_calls (cons c) w).
Proof. intros H. unfold provider. now rewrite H. Qed.

Lemma provider_logs {A} c (sem : World -> World * outcome A) w :
  (forall w, calls (fst (sem w)) = calls w) ->
  calls (fst (provider c sem w)) = c :: calls w.
Proof.
  intros H. unfold provider. destruct (fault w (calls w) c); [reflexivity|].
  now rewrite H.
Qed.

Lemma untouched_bucket_exists b w w' :
  untouched w w' -> bucket_exists b w' = bucket_exists b w.
Proof. intros (_ & _ & _ & E & _). unfold bucket_exists. now rewrite E. Qed.

Lemma untouched_object_keys b w w' :
  untouched w w' -> object_keys b w' = object_keys b w.
Proof.
  intros (_ & _ & _ & E & _). unfold object_keys, bucket_objects.
  now rewrite E.
Qed.

Lemma bucket_exists_new b w :
  bucket_exists b (set_buckets (fun l => l ++ [mkBucket b []]) w) = true.
Proof.
  unfold bucket_exists. cbn. rewrite existsb_app. cbn.
  unfold bucket_has_name. cbn. rewrite String.eqb_refl.
  now rewrite orb_true_r.
Qed.

Lemma s3_head_bucket_ret b w w1 :
  s3_head_bucket b w = (w1, Ret tt) -> bucket_exists b w1 = true.
Proof.
  unfold s3_head_bucket, provider.
  destruct (fault w (calls w) _); [discriminate|].
  rewrite bucket_exists_log. destruct (bucket_exists b w) eqn:E;
    [|discriminate].
  intros [= <-]. exact E.
Qed.

Lemma s3_create_bucket_ret b loc w w1 :
  s3_create_bucket b loc w = (w1, Ret tt) -> bucket_exists b w1 = true.
Proof.
  unfold s3_create_bucket, provider.
  destruct (fault w (calls w) _); [discriminate|].
  rewrite bucket_exists_log. destruct (bucket_exists b w) eqn:E.
  - intros [= <-]. exact E.
  - intros [= <-]. unfold bucket_exists. cbn. rewrite existsb_app. cbn.
    unfold bucket_has_name. cbn. rewrite String.eqb_refl.
    now rewrite orb_true_r.
Qed.

Lemma ensure_backup_bucket_post {L} w (l : L) w' l' :
  _ensure_backup_bucket self w l = (w', l', Ret tt) ->
  bucket_exists (backup_bucket self) w' = true.
Proof.
  rewrite ensure_backup_bucket_run.
  destruct (s3_head_bucket (backup_bucket self) w) as [w1 [[]|e]] eqn:Hh.
  - intros [= <- _]. now apply s3_head_bucket_ret in Hh.
  - destruct (s3_create_bucket _ _ w1) as [w2 [[]|e2]] eqn:Hc;
      [|discriminate].
    apply s3_create_bucket_ret in Hc.
    pose proof (s3_put_bucket_versioning_untouched
                  (backup_bucket self) w2) as U3.
    destruct (s3_put_bucket_versioning _ w2) as [w3 [[]|e3]];
      [|discriminate].
    pose proof (s3_put_bucket_lifecycle_configuration_untouched
                  (backup_bucket self) 7 30 (retention_days self) w3) as U4.
    destruct (s3_put_bucket_lifecycle_configuration _ _ _ _ w3) as [w4 o].
    intros [= <- _ _]. cbn [fst] in *.
    now rewrite (untouched_bucket_exists _ _ _ U4),
      (untouched_bucket_exists _ _ _ U3).
Qed.

Lemma ensure_backup_bucket_reliable {L} w (l : L) :
  reliable w ->
  exists w',
    _ensure_backup_bucket self w l = (w', l, Ret tt) /\
    (buckets w' = buckets w
     \/ buckets w' = buckets w ++ [mkBucket (backup_bucket self) []]).
Proof.
  intros Hrel. rewrite ensure_backup_bucket_run.
  unfold s3_head_bucket, s3_create_bucket, s3_put_bucket_versioning,
    s3_put_bucket_lifecycle_configuration.
  rewrite provider_reliable by exact Hrel. rewrite bucket_exists_log.
  destruct (bucket_exists (backup_bucket self) w) eqn:He;
    [eexists; split; [reflexivity | now left]|].
  rewrite provider_reliable by (intros h c; apply Hrel).
  rewrite !bucket_exists_log, He. cbn [fst snd].
  rewrite provider_reliable by (intros h c; apply Hrel).
  rewrite !bucket_exists_log, bucket_exists_new.
  rewrite provider_reliable by (intros h c; apply Hrel).
  rewrite !bucket_exists_log, bucket_exists_new.
  eexists; split; [reflexivity | now right].
Qed.

Lemma ensure_backup_bucket_writes {L} :
  keeps (writes_only_into (backup_bucket self))
    (_ensure_backup_bucket self : M L unit).
Proof.
  unfold _ensure_backup_bucket.
  keeps_structure (writes_only_into_refl (backup_bucket self))
    (writes_only_into_trans (backup_bucket self));
    first [ apply s3_create_bucket_writes
          | apply (op_keeps_weaken untouched _ _
                     (untouched_writes_only_into (backup_bucket self)));
            auto using s3_put_bucket_versioning_untouched,
              s3_put_bucket_lifecycle_configuration_untouched
              with untouched_ops ].
Qed.

(** X5.  [_ensure_backup_bucket].  When the bucket is there and
    [head_bucket] is accepted, that one request is all.  Whenever
    [head_bucket] raises, for whatever reason, the creation is attempted
    next, with a location constraint unless the region is us-east-1.
    Against a provider that refuses nothing, a missing bucket is created
    empty, then versioned, then given the lifecycle 7 / 30 /
    [retention_days].  When the method returns, the bucket exists. *)
Theorem ensure_backup_bucket_creates_what_is_missing {L} w (l : L) :
  (bucket_exists (backup_bucket self) w = true ->
   fault w (calls w) (HeadBucket (backup_bucket self)) = None ->
   _ensure_backup_bucket self w l
   = (set_calls (cons (HeadBucket (backup_bucket self))) w, l, Ret tt)) /\
  (forall w1 e,
     s3_head_bucket (backup_bucket self) w = (w1, Raise e) ->
     exists later,
       calls (fst (fst (_ensure_backup_bucket self w l)))
       = later ++ CreateBucket (backup_bucket self) (location_constraint self)
                  :: HeadBucket (backup_bucket self) :: calls w) /\
  (bucket_exists (backup_bucket self) w = false -> reliable w ->
   exists w',
     _ensure_backup_bucket self w l = (w', l, Ret tt) /\
     calls w'
     = [PutBucketLifecycleConfiguration (backup_bucket self) 7 30
          (retention_days self);
        PutBucketVersioning (backup_bucket self);
        CreateBucket (backup_bucket self) (location_constraint self);
        HeadBucket (backup_bucket self)] ++ calls w /\
     buckets w' = buckets w ++ [mkBucket (backup_bucket self) []]) /\
  (forall w' l',
     _ensure_backup_bucket self w l = (w', l', Ret tt) ->
     bucket_exists (backup_bucket self) w' = true).
Proof.
  rewrite ensure_backup_bucket_run.
  split; [|split; [|split]].
  - intros He Hf. unfold s3_head_bucket.
    rewrite (provider_accepted _ _ _ Hf), bucket_exists_log, He. reflexivity.
  - intros w1 e Hh.
    assert (Hc : calls w1 = HeadBucket (backup_bucket self) :: calls w).
    { change w1 with (fst (w1, @Raise unit e)). rewrite <- Hh.
      apply provider_logs. solve_calls_sem. }
    rewrite Hh.
    assert (Hc2 : calls (fst (s3_create_bucket (backup_bucket self)
                                (location_constraint self) w1))
                  = CreateBucket (backup_bucket self) (location_constraint self)
                    :: calls w1)
      by (apply provider_logs; solve_calls_sem).
    destruct (s3_create_bucket _ _ w1) as [w2 [[]|e2]]; cbn [fst] in *;
      [|exists []; now rewrite Hc2, Hc].
    assert (Hc3 : calls (fst (s3_put_bucket_versioning
                                (backup_bucket self) w2))
                  = PutBucketVersioning (backup_bucket self) :: calls w2)
      by (apply provider_logs; solve_calls_sem).
    destruct (s3_put_bucket_versioning _ w2) as [w3 [[]|e3]]; cbn [fst] in *;
      [|eexists [_]; now rewrite Hc3, Hc2, Hc].
    assert (Hc4 : calls (fst (s3_put_bucket_lifecycle_configuration
                                (backup_bucket self) 7 30
                                (retention_days self) w3))
                  = PutBucketLifecycleConfiguration (backup_bucket self) 7 30
                      (retention_days self) :: calls w3)
      by (apply provider_logs; solve_calls_sem).
    destruct (s3_put_bucket_lifecycle_configuration _ _ _ _ w3) as [w4 o].
    cbn [fst] in *. eexists [_; _]. now rewrite Hc4, Hc3, Hc2, Hc.
  - intros He Hrel.
    unfold s3_head_bucket, s3_create_bucket, s3_put_bucket_versioning,
      s3_put_bucket_lifecycle_configuration.
    rewrite provider_reliable by exact Hrel.
    rewrite bucket_exists_log, He.
    rewrite provider_reliable by (intros h c; apply Hrel).
    rewrite !bucket_exists_log, He. cbn [fst snd].
    rewrite provider_reliable by (intros h c; apply Hrel).
    rewrite !bucket_exists_log, bucket_exists_new.
    rewrite provider_reliable by (intros h c; apply Hrel).
    rewrite !bucket_exists_log, bucket_exists_new.
    eexists. split; [reflexivity|]. split; reflexivity.
  - intros w' l'. rewrite <- ensure_backup_bucket_run.
    apply ensure_backup_bucket_post.
Qed.

End EnsureBucket.

(* ===================================================================== *)
(** * [backup_s3_buckets]: which buckets, and the notification           *)
(* ===================================================================== *)

Section S3Targets.

Variable self : BackupManager.

Lemma s3_targets_default w l w' l' bs :
  s3_targets self [] w l = (w', l', Ret bs) ->
  Forall (fun b => b <> backup_bucket self) bs.
Proof.
  unfold s3_targets. rewrite bind_run.
  destruct (_ensure_backup_bucket self w l) as [[w1 l1] [[]|e]];
    [|discriminate].
  cbn [nonempty]. rewrite bind_run, call_run.
  destruct (s3_list_buckets w1) as [w2 [names|e]]; [|discriminate].
  cbn [fst snd]. intros [= _ _ <-].
  apply List.Forall_forall. intros b Hb. apply filter_In in Hb as [_ Hb].
  apply negb_true_iff in Hb. now apply String.eqb_neq.
Qed.

Lemma not_copies_from_refl b w :
  issued (fun c => copies_from b c = false) w w.
Proof. apply issued_refl. Qed.

(** What one bucket's backup asks for does not copy from another
    bucket. *)
Lemma backup_s3_bucket_source b bucket_name :
  bucket_name <> b ->
  keeps (issued (fun c => copies_from b c = false))
    (backup_s3_bucket self bucket_name).
Proof.
  intros Hne. unfold backup_s3_bucket.
  keeps_structure (issued_refl (fun c => copies_from b c = false))
    (issued_trans (fun c => copies_from b c = false));
    unfold s3_fetch_page, s3_copy_object;
    (apply provider_issued; [|solve_calls_sem]); cbn;
    [reflexivity | now apply String.eqb_neq].
Qed.

(** X6.  Left to choose, [backup_s3_buckets] backs up every bucket but the
    backup bucket: no copy it asks for reads from the backup bucket, so
    earlier backups are not backed up again.  (Names given explicitly are
    taken as they are.) *)
Theorem backup_s3_buckets_skips_the_backup_bucket w :
  exists new,
    calls (fst (backup_s3_buckets self [] w)) = new ++ calls w /\
    Forall (fun c => copies_from (backup_bucket self) c = false) new.
Proof.
  pose (P := fun c => copies_from (backup_bucket self) c = false).
  assert (T : forall w1 w2 w3, issued P w1 w2 -> issued P w2 w3 -> issued P w1 w3)
    by apply issued_trans.
  revert w. change (op_keeps (issued P) (backup_s3_buckets self [])).
  unfold backup_s3_buckets. apply keeps_run.
  apply (keeps_bind _ T);
    [|keeps_structure (issued_refl P) (issued_trans P)].
  apply (keeps_try _ T); [|keeps_structure (issued_refl P) (issued_trans P)].
  apply (keeps_bind_post _ T _ _
           (Forall (fun b => b <> backup_bucket self))).
  - unfold s3_targets, _ensure_backup_bucket.
    keeps_structure (issued_refl P) (issued_trans P);
      unfold s3_head_bucket, s3_create_bucket, s3_put_bucket_versioning,
        s3_put_bucket_lifecycle_configuration, s3_list_buckets;
      solve_issued.
  - intros w l w' l' bs. apply s3_targets_default.
  - intros bs Hbs. apply (keeps_bind _ T).
    + apply (keeps_for_each _ (issued_refl P) T). intros b Hb.
      apply backup_s3_bucket_source.
      rewrite List.Forall_forall in Hbs. now apply Hbs.
    + keeps_structure (issued_refl P) (issued_trans P).
      unfold sns_publish. solve_issued.
Qed.

End S3Targets.

(* ===================================================================== *)
(** * [_send_notification]                                               *)
(* ===================================================================== *)

Section Notifications.

Variable self : BackupManager.

Lemma send_notification_untouched {L} msg w (l : L) :
  exists w', _send_notification self msg w l = (w', l, Ret tt)
             /\ untouched w w'.
Proof.
  unfold _send_notification.
  destruct (sns_topic_arn self) as [topic|];
    [|eexists; split; [reflexivity | apply untouched_refl]].
  destruct (String.eqb topic "");
    [eexists; split; [reflexivity | apply untouched_refl]|].
  unfold try_except. rewrite call_run.
  pose proof (sns_publish_untouched topic msg
                "AWS Backup Pipeline Notification" w) as U.
  destruct (sns_publish _ _ _ w) as [w' [[]|e]]; cbn [fst snd] in *;
    eexists; split; try reflexivity; exact U.
Qed.

Lemma send_notification_quiet {L} msg w (l : L) :
  _send_notification (without_topic self) msg w l = (w, l, Ret tt).
Proof. reflexivity. Qed.

Ltac notified_last :=
  unfold run, try_except;
  repeat (repeat first [ rewrite bind_run
                       | progress cbn [locals update ret ask mret M_ret] ];
          match goal with
          | |- context [_send_notification (without_topic self) ?m ?w ?l] =>
              rewrite (send_notification_quiet m w l);
              let w2 := fresh "w" in
              let U := fresh "U" in
              destruct (send_notification_untouched m w l) as (w2 & -> & U);
              cbn
          | |- context [match ?x with _ => _ end] =>
              lazymatch x with
              | context [_send_notification] => fail
              | _ => destruct x as [[? ?] [?|?]]
              end
          end);
  cbn [fst snd];
  (split; [reflexivity | first [assumption | apply untouched_refl]]).

(** X7.  The notification never changes what a backup does or returns:
    with a topic, whether the publication is accepted or refused, each of
    the three batch operations returns what it returns without a topic,
    and leaves the provider as it leaves it without a topic, the logged
    request apart. *)
Theorem notifications_do_not_change_the_outcome ids w :
  (snd (backup_ec2_instances self ids w)
   = snd (backup_ec2_instances (without_topic self) ids w) /\
   untouched (fst (backup_ec2_instances (without_topic self) ids w))
     (fst (backup_ec2_instances self ids w))) /\
  (snd (backup_rds_databases self ids w)
   = snd (backup_rds_databases (without_topic self) ids w) /\
   untouched (fst (backup_rds_databases (without_topic self) ids w))
     (fst (backup_rds_databases self ids w))) /\
  (snd (backup_s3_buckets self ids w)
   = snd (backup_s3_buckets (without_topic self) ids w) /\
   untouched (fst (backup_s3_buckets (without_topic self) ids w))
     (fst (backup_s3_buckets self ids w))).
Proof.
  split; [|split].
  - unfold backup_ec2_instances. notified_last.
  - unfold backup_rds_databases. notified_last.
  - unfold backup_s3_buckets.
    change (s3_targets (without_topic self)) with (s3_targets self).
    change (backup_s3_bucket (without_topic self))
      with (backup_s3_bucket self).
    notified_last.
Qed.

End Notifications.

(* ===================================================================== *)
(** * [cleanup_old_backups]: the counts, and the cutoff out of range     *)
(* ===================================================================== *)

Section CleanupCounts.

Variable self : BackupManager.

Lemma filter_split_length {A : Type} (p : A -> bool) (l : list A) :
  (length (List.filter p l) + length (List.filter (fun x => negb (p x)) l)
   = length l)%nat.
Proof.
  induction l as [|x l IH]; [reflexivity|]. cbn.
  destruct (p x); cbn; lia.
Qed.

Lemma delete_expired c (l : list Snapshot) :
  List.NoDup (map SnapshotId l) ->
  delete_ids (expired_ids c l) l
  = List.filter (fun s => negb (ec2_expired c s)) l.
Proof.
  intros Hnd. unfold delete_ids. apply filter_ext_in. intros s Hs. f_equal.
  apply eq_true_iff_eq. rewrite existsb_exists.
  rewrite <- (expired_id_iff c l s Hnd Hs). split.
  - intros (i & Hi & E). apply String.eqb_eq in E. now subst.
  - intros H. exists (SnapshotId s). split; [exact H | apply String.eqb_refl].
Qed.

(** X8.  Against a provider that refuses nothing, the counts
    [cleanup_old_backups] returns are the numbers of snapshots that are
    gone: each count is the number of tagged snapshots of its category
    older than the cutoff, and the provider holds that many fewer. *)
Theorem cleanup_counts_what_it_deleted w c :
  cutoff self w = Some c -> reliable w ->
  List.NoDup (map SnapshotId (snapshots w)) ->
  List.NoDup (map DBSnapshotIdentifier (db_snapshots w)) ->
  exists w' r e d,
    cleanup_old_backups self w = (w', Ret r) /\
    r !! "ec2_snapshots_deleted" = Some (Z.of_nat e) /\
    r !! "rds_snapshots_deleted" = Some (Z.of_nat d) /\
    e = length (List.filter (ec2_expired c) (snapshots w)) /\
    d = length (List.filter (rds_expired c) (manual_snapshots w)) /\
    (length (snapshots w') + e = length (snapshots w))%nat /\
    (length (db_snapshots w') + d = length (db_snapshots w))%nat.
Proof.
  intros Hc Hrel Hnd Hdb.
  destruct (cleanup_reliable self w c Hc Hrel Hnd Hdb)
    as (w' & Hrun & Hs & Hd & _).
  exists w'. eexists. eexists. eexists. split; [exact Hrun|].
  split; [reflexivity|]. split; [reflexivity|].
  unfold expired_ids, expired_db_ids. rewrite !length_map.
  split; [reflexivity|]. split; [reflexivity|]. split.
  - rewrite Hs, (delete_expired c _ Hnd).
    pose proof (filter_split_length (ec2_expired c) (snapshots w)). lia.
  - rewrite Hd. unfold delete_db_ids.
    replace (List.filter _ (db_snapshots w))
      with (List.filter
              (fun s => negb (String.eqb (SnapshotType s) "manual"
                              && rds_expired c s)) (db_snapshots w)).
    + pose proof (filter_split_length
                    (fun s => String.eqb (SnapshotType s) "manual"
                              && rds_expired c s) (db_snapshots w)) as H.
      unfold manual_snapshots. rewrite filter_filter. lia.
    + apply filter_ext_in. intros s Hs'. f_equal. apply eq_true_iff_eq.
      rewrite existsb_exists, andb_true_iff. split.
      * intros [Hm He]. exists (DBSnapshotIdentifier s).
        split; [|apply String.eqb_refl].
        apply in_map. apply filter_In. split; [|exact He].
        apply filter_In. now split.
      * intros (i & Hi & E). apply String.eqb_eq in E. subst i.
        apply in_map_iff in Hi as (s' & E & Hs2).
        apply filter_In in Hs2 as [Hs2 He]. apply filter_In in Hs2 as [Hs2 Hm].
        assert (s' = s) by (eapply NoDup_map_inj; eauto). now subst.
Qed.

Lemma cutoff_out_of_range w :
  cutoff self w = None <->
  999999999 < Z.abs (retention_days self)
  \/ _ymd2ord (year (now w)) (month (now w)) (day (now w))
     <= retention_days self
  \/ _MAXORDINAL
     < _ymd2ord (year (now w)) (month (now w)) (day (now w))
       - retention_days self.
Proof.
  unfold cutoff, sub_days.
  destruct (Z.ltb_spec 999999999 (Z.abs (retention_days self)));
    [tauto|].
  set (o := _ymd2ord _ _ _ - _).
  destruct (Z.ltb_spec 0 o), (Z.leb_spec o _MAXORDINAL); cbn [andb];
    try destruct (_ord2ymd o) as [[y m] d]; subst o;
    split; try discriminate; try tauto; lia.
Qed.

(** X9.  The cutoff is computed outside the [try]: when
    [now - retention_days] leaves the range of dates (a retention of more
    days than have passed since 0001-01-01, or one beyond what [timedelta]
    accepts), [cleanup_old_backups] raises before any request, and
    [run_full_backup] raises after its three backups have run: what they
    created stays, and no summary is returned. *)
Theorem cutoff_out_of_range_is_not_caught w :
  (999999999 < Z.abs (retention_days self)
   \/ _ymd2ord (year (now w)) (month (now w)) (day (now w))
      <= retention_days self
   \/ _MAXORDINAL
      < _ymd2ord (year (now w)) (month (now w)) (day (now w))
        - retention_days self) ->
  cleanup_old_backups self w = (w, Raise "OverflowError") /\
  exists w1 w2 w3 ec2 rds s3,
    backup_ec2_instances self [] w = (w1, Ret ec2) /\
    backup_rds_databases self [] w1 = (w2, Ret rds) /\
    backup_s3_buckets self [] w2 = (w3, Ret s3) /\
    run_full_backup self w = (w3, Raise "OverflowError").
Proof.
  intros H. apply cutoff_out_of_range in H.
  split; [now apply cleanup_old_backups_overflow|].
  pose proof (backup_ec2_instances_frame self [] w) as F1.
  destruct (backup_ec2_instances_returns self [] w) as [ec2 R1].
  destruct (backup_ec2_instances self [] w) as [w1 o1] eqn:E1.
  cbn in R1, F1. subst o1.
  pose proof (backup_rds_databases_frame self [] w1) as F2.
  destruct (backup_rds_databases_returns self [] w1) as [rds R2].
  destruct (backup_rds_databases self [] w1) as [w2 o2] eqn:E2.
  cbn in R2, F2. subst o2.
  pose proof (backup_s3_buckets_frame self [] w2) as F3.
  destruct (backup_s3_buckets_returns self [] w2) as [s3 R3].
  destruct (backup_s3_buckets self [] w2) as [w3 o3] eqn:E3.
  cbn in R3, F3. subst o3.
  exists w1, w2, w3, ec2, rds, s3.
  split; [reflexivity|]. split; [exact E2|]. split; [exact E3|].
  rewrite run_full_backup_run, E1, E2, E3.
  rewrite cleanup_old_backups_overflow; [reflexivity|].
  unfold cutoff in *. destruct F1 as [N1 _], F2 as [N2 _], F3 as [N3 _].
  now rewrite N3, N2, N1.
Qed.

End CleanupCounts.

(* ===================================================================== *)
(** * [list_available_backups]: what is asked, what is swallowed         *)
(* ===================================================================== *)

Section ListingEdges.

Lemma wants_all t : wants "all" t = true.
Proof. unfold wants. cbn. apply orb_true_r. Qed.

(** X10.  [list_available_backups] at its edges.  A resource type that is
    none of 'ec2', 'rds', 's3', 'all' is answered with success and no
    backups, without a request.  The object-store part is skipped when
    [BACKUP_BUCKET] is unset or empty, and a refused listing of the backup
    bucket is swallowed: the answer is a success with ['s3'] empty.  A
    refused snapshot listing is not swallowed: the whole answer is the
    failure, also when the instance snapshots had been listed already. *)
Theorem list_available_backups_swallows_only_the_object_store rt w :
  (wants rt "ec2" = false -> wants rt "rds" = false ->
   wants rt "s3" = false ->
   list_available_backups rt w
   = (w, Ret (ListSuccess ∅ (isoformat (now w))))) /\
  (environ_BACKUP_BUCKET w = None \/ environ_BACKUP_BUCKET w = Some "" ->
   list_available_backups "s3" w
   = (w, Ret (ListSuccess ∅ (isoformat (now w))))) /\
  (forall b e,
     environ_BACKUP_BUCKET w = Some b -> b <> "" ->
     fault w (calls w) (ListObjectsV2 b "s3-backups/" (Some "/") 0) = Some e ->
     list_available_backups "s3" w
     = (set_calls (cons (ListObjectsV2 b "s3-backups/" (Some "/") 0)) w,
        Ret (ListSuccess {["s3" := []]} (isoformat (now w))))) /\
  (forall e,
     wants rt "ec2" = true ->
     fault w (calls w) (DescribeSnapshots []) = Some e ->
     list_available_backups rt w
     = (set_calls (cons (DescribeSnapshots [])) w, Ret (ListFailure e))) /\
  (forall e,
     fault w (calls w) (DescribeSnapshots []) = None ->
     fault w (DescribeSnapshots [] :: calls w) (DescribeDBSnapshots None)
     = Some e ->
     list_available_backups "all" w
     = (set_calls (cons (DescribeDBSnapshots None))
          (set_calls (cons (DescribeSnapshots [])) w),
        Ret (ListFailure e))).
Proof.
  split; [|split; [|split; [|split]]].
  - intros H1 H2 H3. unfold list_available_backups. rewrite H1, H2, H3.
    reflexivity.
  - intros H. unfold list_available_backups, run, try_except.
    cbn [wants String.eqb Ascii.eqb Bool.eqb orb].
    rewrite !bind_run. cbn [ret mret M_ret]. rewrite !bind_run.
    cbn [ret mret M_ret]. rewrite !bind_run. unfold ask at 1.
    destruct H as [-> | ->]; reflexivity.
  - intros b e Hb Hne He. unfold list_available_backups, run, try_except.
    cbn [wants String.eqb Ascii.eqb Bool.eqb orb].
    rewrite !bind_run. cbn [ret mret M_ret]. rewrite !bind_run.
    cbn [ret mret M_ret]. rewrite !bind_run. unfold ask at 1. rewrite Hb.
    apply String.eqb_neq in Hne. rewrite Hne.
    rewrite bind_run, call_run. unfold s3_list_common_prefixes.
    rewrite (provider_refused _ _ _ _ He). reflexivity.
  - intros e Hw He. unfold list_available_backups, run, try_except.
    rewrite Hw, !bind_run, call_run. unfold ec2_describe_snapshots.
    rewrite (provider_refused _ _ _ _ He). reflexivity.
  - intros e H1 H2. unfold list_available_backups, run, try_except.
    rewrite !wants_all, !bind_run, call_run. unfold ec2_describe_snapshots.
    rewrite (provider_accepted _ _ _ H1). cbn [fst snd].
    unfold update at 1. rewrite !bind_run, call_run.
    unfold rds_describe_db_snapshots.
    rewrite (provider_refused _ _ _ e) by exact H2. reflexivity.
Qed.

End ListingEdges.

(* ===================================================================== *)
(** * [backup_rds_databases]: the snapshot identifier                    *)
(* ===================================================================== *)

Section RdsIdentifiers.

Variable self : BackupManager.

Lemma backup_rds_database_at db w l :
  backup_rds_database db w l
  = match rds_create_db_snapshot
            (rds_snapshot_id (DBInstanceIdentifier db) (now w))
            (DBInstanceIdentifier db)
            (rds_backup_tags (DBInstanceIdentifier db) (now w)) w with
    | (w', Ret _) =>
        (w', on_rds_results
               (append_success
                  (rds_success_entry (DBInstanceIdentifier db)
                     (rds_snapshot_id (DBInstanceIdentifier db) (now w)))) l,
         Ret tt)
    | (w', Raise e) =>
        (w', on_rds_results
               (append_failed (rds_failure_entry (DBInstanceIdentifier db) e))
               l,
         Ret tt)
    end.
Proof.
  unfold backup_rds_database, try_except, rds_snapshot_id.
  rewrite bind_run. unfold ask at 1. rewrite bind_run, call_run.
  now destruct (rds_create_db_snapshot _ _ _ w) as [w' [[]|e]].
Qed.

Lemma reliable_frame w w' : frame w w' -> reliable w -> reliable w'.
Proof.
  intros (_ & _ & _ & _ & _ & _ & _ & F) H h c. rewrite F. apply H.
Qed.

Lemma frame_now w w' : frame w w' -> now w' = now w.
Proof. now intros [H _]. Qed.

Lemma frame_db_instances w w' : frame w w' -> db_instances w' = db_instances w.
Proof. now intros (_ & _ & _ & _ & H & _). Qed.

(** A run of the loop against a provider that refuses nothing: afterwards
    the provider holds a snapshot under the identifier of each database. *)
Lemma rds_loop_leaves_identifiers (ds : list DBInstance) : forall w l,
  reliable w -> (forall db, In db ds -> In db (db_instances w)) ->
  exists w' l',
    for_each ds backup_rds_database w l = (w', l', Ret tt) /\
    frame w w' /\
    (forall sid, has_db_snapshot sid w = true -> has_db_snapshot sid w' = true)
    /\
    (forall db, In db ds ->
       has_db_snapshot (rds_snapshot_id (DBInstanceIdentifier db) (now w)) w'
       = true).
Proof.
  induction ds as [|db ds IH]; intros w l Hrel Hin.
  - exists w, l. split; [reflexivity|]. split; [apply frame_refl|].
    split; [auto|]. intros db [].
  - rewrite for_each_cons, backup_rds_database_at.
    unfold rds_create_db_snapshot.
    rewrite provider_reliable by exact Hrel.
    set (sid := rds_snapshot_id (DBInstanceIdentifier db) (now w)).
    set (w0 := set_calls _ w).
    assert (F0 : frame w w0) by (unfold frame; cbn; tauto).
    change (existsb (db_snapshot_has_id sid) (db_snapshots w0))
      with (has_db_snapshot sid w).
    change (db_instances w0) with (db_instances w).
    destruct (has_db_snapshot sid w) eqn:Hs.
    + destruct (IH w0 (on_rds_results
                         (append_failed
                            (rds_failure_entry (DBInstanceIdentifier db)
                               "DBSnapshotAlreadyExists")) l))
        as (w' & l' & Hrun & F & Hkeep & Hall).
      * now apply (reliable_frame w).
      * intros d Hd. apply Hin. now right.
      * exists w', l'. split; [exact Hrun|].
        split; [exact (frame_trans _ _ _ F0 F)|].
        split; [intros s H; now apply Hkeep|].
        intros d [<- | Hd]; [apply Hkeep; exact Hs | exact (Hall d Hd)].
    + destruct (List.find (db_has_id (DBInstanceIdentifier db))
                  (db_instances w)) as [db'|] eqn:Hf.
      * set (w1 := set_db_snapshots _ w0).
        assert (F1 : frame w w1) by (unfold frame; cbn; tauto).
        destruct (IH w1 (on_rds_results
                           (append_success
                              (rds_success_entry (DBInstanceIdentifier db) sid))
                           l))
          as (w' & l' & Hrun & F & Hkeep & Hall).
        -- now apply (reliable_frame w).
        -- intros d Hd. apply Hin. now right.
        -- exists w', l'. split; [exact Hrun|].
           split; [exact (frame_trans _ _ _ F1 F)|].
           assert (Hgrow : forall s, has_db_snapshot s w = true ->
                                     has_db_snapshot s w1 = true).
           { intros s H. unfold has_db_snapshot, w1. cbn.
             rewrite existsb_app. unfold has_db_snapshot in H. now rewrite H. }
           split; [intros s H; now apply Hkeep, Hgrow|].
           intros d [<- | Hd]; [|exact (Hall d Hd)].
           apply Hkeep. unfold has_db_snapshot, w1. cbn.
           rewrite existsb_app. cbn [existsb]. unfold db_snapshot_has_id at 2.
           cbn [DBSnapshotIdentifier]. rewrite String.eqb_refl.
           now rewrite !orb_true_r.
      * exfalso.
        assert (Hn : db_has_id (DBInstanceIdentifier db) db = false)
          by (apply (find_none _ _ Hf db), Hin; now left).
        unfold db_has_id in Hn. now rewrite String.eqb_refl in Hn.
Qed.

(** A run of the loop when every identifier is taken: every database
    fails, and no snapshot is made. *)
Lemma rds_loop_collides (ds : list DBInstance) : forall w l,
  reliable w ->
  (forall db, In db ds ->
     has_db_snapshot (rds_snapshot_id (DBInstanceIdentifier db) (now w)) w
     = true) ->
  exists w',
    for_each ds backup_rds_database w l
    = (w', on_rds_results
             (fun r =>
                mkResults (success r)
                  (failed r
                   ++ map (fun db =>
                             rds_failure_entry (DBInstanceIdentifier db)
                               "DBSnapshotAlreadyExists") ds)) l,
       Ret tt) /\
    untouched w w'.
Proof.
  induction ds as [|db ds IH]; intros w l Hrel Hall.
  - exists w. split; [|apply untouched_refl]. cbn.
    unfold on_rds_results. rewrite app_nil_r. now destruct l as [[] ?].
  - rewrite for_each_cons, backup_rds_database_at.
    unfold rds_create_db_snapshot.
    rewrite provider_reliable by exact Hrel.
    set (w0 := set_calls _ w).
    change (existsb (db_snapshot_has_id ?s) (db_snapshots w0))
      with (has_db_snapshot s w).
    rewrite (Hall db) by now left.
    destruct (IH w0 (on_rds_results
                       (append_failed
                          (rds_failure_entry (DBInstanceIdentifier db)
                             "DBSnapshotAlreadyExists")) l))
      as (w' & Hrun & U).
    + intros h c. apply Hrel.
    + intros d Hd. apply (Hall d). now right.
    + exists w'. split.
      * rewrite Hrun. f_equal. f_equal. unfold on_rds_results, append_failed.
        cbn. now rewrite <- app_assoc.
      * eapply untouched_trans; [apply untouched_log | exact U].
Qed.

Lemma backup_rds_databases_all_reliable w :
  reliable w ->
  exists w1 l1 w2,
    for_each (db_instances w) backup_rds_database
      (set_calls (cons (DescribeDBInstances None)) w)
      (mkRdsLocals empty_results (db_instances w)) = (w1, l1, Ret tt) /\
    untouched w1 w2 /\
    backup_rds_databases self [] w = (w2, Ret (rds_results l1)).
Proof.
  intros Hrel. unfold backup_rds_databases, run, try_except.
  cbn [nonempty]. rewrite !bind_run, call_run, rds_describe_all_run, Hrel.
  repeat first [ rewrite bind_run
               | progress cbn [fst snd locals update ret mret M_ret
                               databases rds_results] ].
  destruct (backup_rds_loop_run (db_instances w)
              (set_calls (cons (DescribeDBInstances None)) w)
              (mkRdsLocals empty_results (db_instances w)))
    as (w1 & ss & fs & Hloop & _).
  rewrite Hloop.
  repeat first [ rewrite bind_run
               | progress cbn [fst snd locals update ret mret M_ret
                               databases rds_results] ].
  match goal with
  | |- context [_send_notification self ?m ?w ?l] =>
      destruct (send_notification_untouched self m w l) as (w2 & -> & U)
  end.
  eexists _, _, w2. split; [reflexivity|]. split; [exact U|]. reflexivity.
Qed.

(** X11.  The identifier [backup_rds_databases] asks for has the
    resolution of a second.  Against a provider that refuses nothing but
    reused identifiers, a second backup of all databases while the clock
    shows the same second fails for every database with
    [DBSnapshotAlreadyExists] and makes no snapshot. *)
Theorem rds_backups_within_a_second_collide w w1 r1 t2 :
  reliable w ->
  backup_rds_databases self [] w = (w1, Ret r1) ->
  strftime_compact t2 = strftime_compact (now w) ->
  exists w2,
    backup_rds_databases self [] (set_now t2 w1)
    = (w2, Ret (mkResults []
                  (map (fun db =>
                          rds_failure_entry (DBInstanceIdentifier db)
                            "DBSnapshotAlreadyExists") (db_instances w)))) /\
    db_snapshots w2 = db_snapshots w1.
Proof.
  intros Hrel Hrun Ht.
  destruct (backup_rds_databases_all_reliable w Hrel)
    as (wa & la & wb & Hloop & U & Hrun').
  rewrite Hrun in Hrun'. injection Hrun' as -> _.
  destruct (rds_loop_leaves_identifiers (db_instances w)
              (set_calls (cons (DescribeDBInstances None)) w)
              (mkRdsLocals empty_results (db_instances w))
              (fun h c => Hrel h c) (fun db H => H))
    as (wa' & la' & Hloop' & F & _ & Hids).
  rewrite Hloop in Hloop'. injection Hloop' as <- <-.
  cbn [now set_calls] in Hids.
  destruct U as (FU & _ & Hdb & _).
  assert (Fw : frame w wb).
  { eapply frame_trans; [|exact FU].
    eapply frame_trans; [|exact F]. unfold frame. cbn. tauto. }
  assert (Hrel2 : reliable (set_now t2 wb)).
  { intros h c. cbn. now apply (reliable_frame w wb Fw). }
  destruct (backup_rds_databases_all_reliable (set_now t2 wb) Hrel2)
    as (wc & lc & wd & Hloop2 & U2 & Hrun2).
  cbn [db_instances set_now] in Hloop2.
  rewrite (frame_db_instances _ _ Fw) in Hloop2.
  destruct (rds_loop_collides (db_instances w)
              (set_calls (cons (DescribeDBInstances None)) (set_now t2 wb))
              (mkRdsLocals empty_results (db_instances w)))
    as (wc' & Hloop3 & U3).
  - intros h c. apply Hrel2.
  - intros db Hdbin. cbn [now set_calls set_now].
    unfold rds_snapshot_id. rewrite Ht.
    unfold has_db_snapshot. cbn [db_snapshots set_calls set_now].
    rewrite Hdb. now apply Hids.
  - rewrite Hloop2 in Hloop3. injection Hloop3 as <- ->.
    exists wd. split; [exact Hrun2|].
    destruct U2 as (_ & _ & -> & _). now destruct U3 as (_ & _ & -> & _).
Qed.

End RdsIdentifiers.

(* ===================================================================== *)
(** * Copies: from a bucket to its backup and back                       *)
(* ===================================================================== *)

Section Pages.

Lemma chunk_concat {A : Type} (k : nat) (l : list A) : forall acc room,
  concat (chunk k l acc room) = rev acc ++ l.
Proof.
  induction l as [|x l IH]; intros acc room; cbn.
  - now rewrite !app_nil_r.
  - destruct room; cbn; rewrite IH; cbn; now rewrite <- ?app_assoc.
Qed.

Lemma prefix_empty (s : string) : String.prefix "" s = true.
Proof. now destruct s. Qed.

Lemma filter_all {A : Type} (p : A -> bool) (l : list A) :
  (forall x, p x = true) -> List.filter p l = l.
Proof.
  intros H. induction l as [|x l IH]; [reflexivity|]. cbn.
  now rewrite H, IH.
Qed.

Lemma paginate_concat b p w :
  concat (paginate b p w) = List.filter (String.prefix p) (object_keys b w).
Proof. unfold paginate. now rewrite chunk_concat. Qed.

Lemma paginate_all b w : concat (paginate b "" w) = object_keys b w.
Proof.
  rewrite paginate_concat. apply filter_all, prefix_empty.
Qed.

Lemma prefix_app (p s : string) : String.prefix p (p +:+ s) = true.
Proof.
  induction p as [|a p IH]; [apply prefix_empty|].
  change (String a p +:+ s) with (String a (p +:+ s)). cbn.
  destruct (ascii_dec a a); [exact IH | congruence].
Qed.

Lemma str_drop_app (p s : string) : str_drop (String.length p) (p +:+ s) = s.
Proof.
  induction p as [|a p IH]; [reflexivity|].
  change (String a p +:+ s) with (String a (p +:+ s)). exact IH.
Qed.

Lemma enumerate_in {A : Type} (l : list A) (x : nat * A) :
  In x (enumerate l) -> In (snd x) l.
Proof.
  intros H. rewrite <- (enumerate_snd l). now apply in_map.
Qed.

End Pages.

Section Copies.

Lemma reliable_writes dst w w' :
  writes_only_into dst w w' -> reliable w -> reliable w'.
Proof. intros [F _]. now apply reliable_frame. Qed.

(** One accepted copy: the destination holds the key afterwards. *)
Lemma s3_copy_object_accepted src sk dst dk tagging w :
  reliable w -> bucket_exists src w = true -> bucket_exists dst w = true ->
  In sk (object_keys src w) ->
  exists w',
    s3_copy_object src sk dst dk tagging w = (w', Ret tt) /\
    writes_only_into dst w w' /\
    In dk (object_keys dst w').
Proof.
  intros Hrel Hs Hd Hk.
  pose proof (s3_copy_object_writes src sk dst dk tagging w) as W.
  rewrite s3_copy_object_run in *. cbn zeta in *.
  rewrite (Hrel _ _), Hs, Hd in *. cbn [andb negb] in *.
  assert (E : existsb (String.eqb sk) (object_keys src w) = true).
  { apply existsb_exists. exists sk. split; [exact Hk | apply String.eqb_refl]. }
  rewrite E in *. cbn [negb] in *.
  eexists. split; [reflexivity|]. split; [exact W|].
  unfold object_keys.
  rewrite bucket_objects_put_same by exact Hd.
  apply put_object_keys. now left.
Qed.

End Copies.

Section BackupCopies.

Variable self : BackupManager.
Variable b : string.
Hypothesis b_is_not_the_backup_bucket : b <> backup_bucket self.

Lemma object_keys_writes w w' :
  writes_only_into (backup_bucket self) w w' ->
  object_keys b w' = object_keys b w.
Proof.
  intros (_ & _ & _ & _ & _ & H & _). unfold object_keys.
  now rewrite H.
Qed.

Lemma backup_s3_objects_copy p (ks : list string) : forall w l,
  reliable w -> bucket_exists b w = true ->
  bucket_exists (backup_bucket self) w = true ->
  (forall k, In k ks -> In k (object_keys b w)) ->
  exists w',
    for_each ks (backup_s3_object self b p) w l
    = (w', mkS3Locals (s3_results l)
             (object_count l + Z.of_nat (length ks)), Ret tt) /\
    writes_only_into (backup_bucket self) w w' /\
    forall k, In k ks -> In (p +:+ k) (object_keys (backup_bucket self) w').
Proof.
  induction ks as [|k ks IH]; intros w l Hrel Hb Hbb Hks.
  - exists w. split; [|split; [apply writes_only_into_refl | intros k []]].
    cbn. rewrite Z.add_0_r. now destruct l.
  - rewrite for_each_cons. unfold backup_s3_object at 1.
    rewrite bind_run. unfold ask at 1. rewrite bind_run, call_run.
    destruct (s3_copy_object_accepted b k (backup_bucket self) (p +:+ k)
                ("BackupDate=" +:+ isoformat (now w) +:+ "&SourceBucket="
                 +:+ b) w Hrel Hb Hbb (Hks k (or_introl eq_refl)))
      as (w1 & -> & W1 & Hk).
    cbn [fst snd]. unfold update at 1. cbn [s3_results object_count].
    destruct (IH w1 (mkS3Locals (s3_results l) (object_count l + 1)))
      as (w' & Hrun & W & Hall).
    + exact (reliable_writes _ _ _ W1 Hrel).
    + now apply W1.
    + now apply W1.
    + intros k' Hk'. rewrite (object_keys_writes _ _ W1). apply Hks.
      now right.
    + exists w'. split; [|split].
      * rewrite Hrun. cbn [s3_results object_count length].
        rewrite Nat2Z.inj_succ, <- Z.add_1_l, Z.add_assoc. reflexivity.
      * exact (writes_only_into_trans _ _ _ _ W1 W).
      * intros k' [<- | Hk']; [|now apply Hall].
        destruct W as (_ & _ & _ & _ & _ & _ & K). now apply K.
Qed.

Lemma s3_fetch_page_accepted p i page w :
  reliable w -> bucket_exists b w = true ->
  s3_fetch_page b p i page w
  = (set_calls (cons (ListObjectsV2 b p None i)) w, Ret page).
Proof.
  intros Hrel Hb. unfold s3_fetch_page.
  rewrite provider_reliable by exact Hrel.
  now rewrite bucket_exists_log, Hb.
Qed.

Lemma backup_s3_pages_copy p (pages : list (nat * list string)) : forall w l,
  reliable w -> bucket_exists b w = true ->
  bucket_exists (backup_bucket self) w = true ->
  (forall k, In k (concat (map snd pages)) -> In k (object_keys b w)) ->
  exists w',
    for_each pages (backup_s3_page self b p) w l
    = (w', mkS3Locals (s3_results l)
             (object_count l
              + Z.of_nat (length (concat (map snd pages)))), Ret tt) /\
    writes_only_into (backup_bucket self) w w' /\
    forall k, In k (concat (map snd pages)) ->
              In (p +:+ k) (object_keys (backup_bucket self) w').
Proof.
  induction pages as [|[i page] pages IH]; intros w l Hrel Hb Hbb Hks.
  - exists w. split; [|split; [apply writes_only_into_refl | intros k []]].
    cbn. rewrite Z.add_0_r. now destruct l.
  - rewrite for_each_cons. unfold backup_s3_page at 1. cbn [fst snd].
    rewrite bind_run, call_run, (s3_fetch_page_accepted "" i page w Hrel Hb).
    cbn [fst snd]. set (w0 := set_calls _ w).
    assert (W0 : writes_only_into (backup_bucket self) w w0)
      by apply untouched_writes_only_into, untouched_log.
    cbn [map concat] in Hks.
    destruct (backup_s3_objects_copy p page w0 l) as (w1 & -> & W1 & H1).
    + intros h c. apply Hrel.
    + exact Hb.
    + exact Hbb.
    + intros k Hk. apply Hks, in_or_app. now left.
    + destruct (IH w1 (mkS3Locals (s3_results l)
                         (object_count l + Z.of_nat (length page))))
        as (w' & Hrun & W & Hall).
      * exact (reliable_writes _ _ _ W1 (fun h c => Hrel h c)).
      * now apply W1.
      * now apply W1.
      * intros k Hk. rewrite (object_keys_writes _ _ W1).
        apply Hks, in_or_app. now right.
      * exists w'. split; [|split].
        -- rewrite Hrun. cbn [s3_results object_count map concat].
           now rewrite length_app, Nat2Z.inj_add, Z.add_assoc.
        -- exact (writes_only_into_trans _ _ _ _ W0
                    (writes_only_into_trans _ _ _ _ W1 W)).
        -- cbn [map concat]. intros k Hk.
           apply in_app_or in Hk as [Hk | Hk]; [|now apply Hall].
           destruct W as (_ & _ & _ & _ & _ & _ & K). now apply K, H1.
Qed.

(** The backup of one bucket against a provider that refuses nothing. *)
Lemma backup_s3_bucket_copies w l :
  reliable w -> bucket_exists b w = true ->
  bucket_exists (backup_bucket self) w = true ->
  exists w',
    backup_s3_bucket self b w l
    = (w', mkS3Locals
             (append_success (s3_complete_entry self w b) (s3_results l))
             (Z.of_nat (length (object_keys b w))), Ret tt) /\
    writes_only_into (backup_bucket self) w w' /\
    forall k, In k (object_keys b w) ->
              In (s3_backup_prefix b (now w) +:+ k)
                (object_keys (backup_bucket self) w').
Proof.
  intros Hrel Hb Hbb. unfold backup_s3_bucket, try_except.
  rewrite bind_run. unfold ask at 1. rewrite bind_run. unfold ask at 1.
  rewrite bind_run. unfold update at 1.
  fold (s3_backup_prefix b (now w)). rewrite bind_run.
  destruct (backup_s3_pages_copy (s3_backup_prefix b (now w))
              (enumerate (paginate b "" w)) w
              (mkS3Locals (s3_results l) 0) Hrel Hb Hbb)
    as (w' & -> & W & Hall).
  { rewrite enumerate_snd, paginate_all. auto. }
  rewrite enumerate_snd, paginate_all in *.
  exists w'. split; [|split; [exact W | exact Hall]].
  rewrite bind_run. unfold locals at 1. reflexivity.
Qed.

End BackupCopies.

Section BackupComplete.

Variable self : BackupManager.

Lemma backup_s3_loop_copies (bs : list string) : forall w l,
  reliable w -> bucket_exists (backup_bucket self) w = true ->
  Forall (fun b => b <> backup_bucket self /\ bucket_exists b w = true) bs ->
  exists w' n,
    for_each bs (backup_s3_bucket self) w l
    = (w', mkS3Locals
             (mkResults
                (success (s3_results l) ++ map (s3_complete_entry self w) bs)
                (failed (s3_results l))) n, Ret tt) /\
    writes_only_into (backup_bucket self) w w' /\
    forall b k, In b bs -> In k (object_keys b w) ->
                In (s3_backup_prefix b (now w) +:+ k)
                  (object_keys (backup_bucket self) w').
Proof.
  induction bs as [|b bs IH]; intros w l Hrel Hbb Hbs.
  - exists w, (object_count l).
    split; [|split; [apply writes_only_into_refl | intros b k []]].
    cbn. rewrite app_nil_r. now destruct l as [[] ?].
  - apply Forall_cons in Hbs as [[Hne Hb] Hbs]. rewrite for_each_cons.
    destruct (backup_s3_bucket_copies self b Hne w l Hrel Hb Hbb)
      as (w1 & -> & W1 & H1).
    destruct (IH w1 (mkS3Locals
                       (append_success (s3_complete_entry self w b)
                          (s3_results l))
                       (Z.of_nat (length (object_keys b w)))))
      as (w' & n & Hrun & W & Hall).
    + exact (reliable_writes _ _ _ W1 Hrel).
    + now apply W1.
    + eapply List.Forall_impl; [|exact Hbs]. intros x [Hx Hex].
      split; [exact Hx | now apply W1].
    + assert (Hentry : forall x, In x bs ->
                s3_complete_entry self w1 x = s3_complete_entry self w x).
      { intros x Hx. rewrite List.Forall_forall in Hbs.
        destruct (Hbs x Hx) as [Hxne _]. unfold s3_complete_entry.
        rewrite (object_keys_writes self x Hxne _ _ W1).
        destruct W1 as [F1 _]. now rewrite (frame_now _ _ F1). }
      exists w', n. split; [|split].
      * rewrite Hrun. cbn [s3_results success failed append_success map].
        rewrite <- app_assoc. cbn [app].
        now rewrite (map_ext_in _ _ _ Hentry).
      * exact (writes_only_into_trans _ _ _ _ W1 W).
      * intros x k [<- | Hx] Hk.
        -- destruct W as (_ & _ & _ & _ & _ & _ & K). now apply K, H1.
        -- rewrite List.Forall_forall in Hbs.
           destruct (Hbs x Hx) as [Hxne _].
           destruct W1 as [F1 W1].
           rewrite <- (frame_now _ _ F1). apply Hall; [exact Hx|].
           unfold object_keys.
           destruct W1 as (_ & _ & _ & _ & O & _). now rewrite O.
Qed.

Lemma bucket_exists_in b w :
  In b (map BucketName (buckets w)) -> bucket_exists b w = true.
Proof.
  intros H. apply in_map_iff in H as (bk & <- & Hbk).
  apply existsb_exists. exists bk. split; [exact Hbk|].
  apply String.eqb_refl.
Qed.

(** The targets against a provider that refuses nothing. *)
Lemma s3_targets_reliable names w l :
  reliable w ->
  exists w1,
    s3_targets self names w l
    = (w1, l, Ret (if nonempty names then names
                   else s3_default_targets self w)) /\
    writes_only_into (backup_bucket self) w w1 /\
    bucket_exists (backup_bucket self) w1 = true /\
    Forall (fun b => bucket_exists b w1 = true) (s3_default_targets self w).
Proof.
  intros Hrel. unfold s3_targets. rewrite bind_run.
  pose proof (ensure_backup_bucket_writes self w l) as W.
  destruct (ensure_backup_bucket_reliable self w l Hrel) as (w1 & Hrun & Hb).
  pose proof (ensure_backup_bucket_post self w l w1 l Hrun) as Hbb.
  rewrite Hrun in *. cbn [fst] in W.
  assert (Hrel1 : reliable w1) by exact (reliable_writes _ _ _ W Hrel).
  assert (Hd : s3_default_targets self w1 = s3_default_targets self w).
  { unfold s3_default_targets. destruct Hb as [-> | ->]; [reflexivity|].
    rewrite map_app, List.filter_app. cbn. rewrite String.eqb_refl. cbn.
    apply app_nil_r. }
  assert (Hall : forall c, Forall (fun b => bucket_exists b
                                      (set_calls (cons c) w1) = true)
                             (s3_default_targets self w)).
  { intros c. rewrite <- Hd. apply List.Forall_forall. intros b Hin.
    apply filter_In in Hin as [Hin _]. rewrite bucket_exists_log.
    now apply bucket_exists_in. }
  destruct (nonempty names).
  - exists w1. split; [reflexivity|]. split; [exact W|]. split; [exact Hbb|].
    rewrite <- (app_nil_l (s3_default_targets self w)).
    eapply List.Forall_impl; [|apply (Hall ListBuckets)]. auto.
  - rewrite bind_run, call_run. unfold s3_list_buckets.
    rewrite provider_reliable by exact Hrel1. cbn [fst snd].
    eexists. split; [unfold ret; cbn; now rewrite <- Hd|].
    split; [|split; [exact Hbb | apply Hall]].
    eapply writes_only_into_trans; [exact W|].
    apply untouched_writes_only_into, untouched_log.
Qed.

Lemma backup_s3_buckets_reliable names w :
  reliable w ->
  Forall (fun b => b <> backup_bucket self /\ bucket_exists b w = true)
    names ->
  exists w' targets,
    targets = (if nonempty names then names
               else s3_default_targets self w) /\
    backup_s3_buckets self names w
    = (w', Ret (mkResults (map (s3_complete_entry self w) targets) [])) /\
    bucket_exists (backup_bucket self) w' = true /\
    forall b k, In b targets -> In k (object_keys b w) ->
                In (s3_backup_prefix b (now w) +:+ k)
                  (object_keys (backup_bucket self) w').
Proof.
  intros Hrel Hnames.
  destruct (s3_targets_reliable names w (mkS3Locals empty_results 0) Hrel)
    as (w1 & Ht & W1 & Hbb & Hdef).
  set (targets := if nonempty names then names
                  else s3_default_targets self w) in *.
  assert (Htargets : Forall (fun b => b <> backup_bucket self
                                      /\ bucket_exists b w1 = true) targets).
  { unfold targets. destruct (nonempty names).
    - eapply List.Forall_impl; [|exact Hnames]. intros b [Hb He].
      split; [exact Hb | now apply W1].
    - apply List.Forall_forall. intros b Hb. split.
      + apply filter_In in Hb as [_ Hb]. apply negb_true_iff in Hb.
        now apply String.eqb_neq.
      + rewrite List.Forall_forall in Hdef. now apply Hdef. }
  destruct (backup_s3_loop_copies targets w1 (mkS3Locals empty_results 0)
              (reliable_writes _ _ _ W1 Hrel) Hbb Htargets)
    as (w2 & n & Hloop & W2 & Hall).
  assert (Hentry : forall x, In x targets ->
              s3_complete_entry self w1 x = s3_complete_entry self w x).
  { intros x Hx. rewrite List.Forall_forall in Htargets.
    destruct (Htargets x Hx) as [Hxne _]. unfold s3_complete_entry.
    rewrite (object_keys_writes self x Hxne _ _ W1).
    destruct W1 as [F1 _]. now rewrite (frame_now _ _ F1). }
  unfold backup_s3_buckets, run, try_except.
  rewrite !bind_run, Ht. cbv beta iota. rewrite ?bind_run, Hloop.
  repeat first [ rewrite bind_run
               | progress cbn [fst snd locals update ret mret M_ret
                               s3_results success failed empty_results
                               app] ].
  match goal with
  | |- context [_send_notification self ?m ?w ?l] =>
      destruct (send_notification_untouched self m w l) as (w3 & -> & U)
  end.
  exists w3, targets. split; [reflexivity|]. split; [|split].
  - cbn. now rewrite (map_ext_in _ _ _ Hentry).
  - rewrite (untouched_bucket_exists _ _ _ U). now apply W2.
  - intros b k Hb Hk. rewrite List.Forall_forall in Htargets.
    destruct (Htargets b Hb) as [Hbne _].
    rewrite (untouched_object_keys _ _ _ U).
    destruct W1 as [F1 W1']. rewrite <- (frame_now _ _ F1).
    apply Hall; [exact Hb|].
    unfold object_keys. destruct W1' as (_ & _ & _ & _ & O & _).
    now rewrite O.
Qed.

(** X12.  Against a provider that refuses nothing, [backup_s3_buckets]
    copies every object of every bucket it backs up: each bucket gets a
    success record that counts its objects and names its backup location,
    nothing fails, and afterwards the backup bucket holds, for every key
    of such a bucket, the key
    [s3-backups/<bucket>/<year>/<month>/<day>/<key>].  The buckets are
    the names given (existing buckets other than the backup bucket) or,
    with no name, every bucket but the backup bucket. *)
Theorem backup_s3_buckets_copies_every_object names w :
  reliable w ->
  Forall (fun b => b <> backup_bucket self /\ bucket_exists b w = true)
    names ->
  exists w' targets,
    targets = (if nonempty names then names
               else s3_default_targets self w) /\
    backup_s3_buckets self names w
    = (w', Ret (mkResults (map (s3_complete_entry self w) targets) [])) /\
    forall b k, In b targets -> In k (object_keys b w) ->
                In (s3_backup_prefix b (now w) +:+ k)
                  (object_keys (backup_bucket self) w').
Proof.
  intros Hrel Hnames.
  destruct (backup_s3_buckets_reliable names w Hrel Hnames)
    as (w' & targets & Ht & Hrun & _ & Hkeys).
  exists w', targets. auto.
Qed.

End BackupComplete.

Section RestoreCopies.

Variables backup_bucket backup_prefix target_bucket target_prefix : string.

Lemma keys_persist dst b k w w' :
  writes_only_into dst w w' ->
  In k (object_keys b w) -> In k (object_keys b w').
Proof.
  intros (_ & _ & _ & _ & _ & O & K) Hk.
  destruct (string_dec b dst) as [-> | Hne]; [now apply K|].
  unfold object_keys. now rewrite (O b Hne).
Qed.

Lemma target_key_app (relative_key : string) :
  (if String.eqb target_prefix "" then relative_key
   else target_prefix +:+ relative_key)
  = target_prefix +:+ relative_key.
Proof.
  destruct (String.eqb_spec target_prefix "") as [-> | _]; reflexivity.
Qed.

Lemma restore_s3_objects_copy (ks : list string) : forall w l,
  reliable w -> bucket_exists backup_bucket w = true ->
  bucket_exists target_bucket w = true ->
  (forall k, In k ks -> In k (object_keys backup_bucket w)) ->
  exists w',
    for_each ks
      (restore_s3_object backup_bucket backup_prefix target_bucket
         target_prefix) w l
    = (w', mkRestoreLocals (restored_objects l + Z.of_nat (length ks))
             (failed_objects l), Ret tt) /\
    writes_only_into target_bucket w w' /\
    forall k, In k ks ->
      In (target_prefix +:+ str_drop (String.length backup_prefix) k)
        (object_keys target_bucket w').
Proof.
  induction ks as [|k ks IH]; intros w l Hrel Hb Ht Hks.
  - exists w. split; [|split; [apply writes_only_into_refl | intros k []]].
    cbn. rewrite Z.add_0_r. now destruct l.
  - rewrite for_each_cons. unfold restore_s3_object at 1, try_except.
    rewrite bind_run. unfold ask at 1. rewrite bind_run, call_run.
    rewrite target_key_app.
    destruct (s3_copy_object_accepted backup_bucket k target_bucket
                (target_prefix +:+ str_drop (String.length backup_prefix) k)
                ("RestoredFrom=" +:+ backup_bucket +:+ "&RestoreDate="
                 +:+ isoformat (now w)) w Hrel Hb Ht
                (Hks k (or_introl eq_refl)))
      as (w1 & -> & W1 & Hk).
    cbn [fst snd]. unfold update at 1.
    destruct (IH w1 (mkRestoreLocals (restored_objects l + 1)
                       (failed_objects l)))
      as (w' & Hrun & W & Hall).
    + exact (reliable_writes _ _ _ W1 Hrel).
    + now apply W1.
    + now apply W1.
    + intros k' Hk'. apply (keys_persist _ _ _ _ _ W1), Hks. now right.
    + exists w'. split; [|split].
      * rewrite Hrun. cbn [restored_objects failed_objects length].
        rewrite Nat2Z.inj_succ, <- Z.add_1_l, Z.add_assoc. reflexivity.
      * exact (writes_only_into_trans _ _ _ _ W1 W).
      * intros k' [<- | Hk']; [|now apply Hall].
        exact (keys_persist _ _ _ _ _ W Hk).
Qed.

Lemma restore_s3_pages_copy (pages : list (nat * list string)) : forall w l,
  reliable w -> bucket_exists backup_bucket w = true ->
  bucket_exists target_bucket w = true ->
  (forall k, In k (concat (map snd pages)) ->
             In k (object_keys backup_bucket w)) ->
  exists w',
    for_each pages
      (restore_s3_page backup_bucket backup_prefix target_bucket
         target_prefix) w l
    = (w', mkRestoreLocals
             (restored_objects l
              + Z.of_nat (length (concat (map snd pages))))
             (failed_objects l), Ret tt) /\
    writes_only_into target_bucket w w' /\
    forall k, In k (concat (map snd pages)) ->
      In (target_prefix +:+ str_drop (String.length backup_prefix) k)
        (object_keys target_bucket w').
Proof.
  induction pages as [|[i page] pages IH]; intros w l Hrel Hb Ht Hks.
  - exists w. split; [|split; [apply writes_only_into_refl | intros k []]].
    cbn. rewrite Z.add_0_r. now destruct l.
  - rewrite for_each_cons. unfold restore_s3_page at 1. cbn [fst snd].
    rewrite bind_run, call_run.
    rewrite (s3_fetch_page_accepted backup_bucket backup_prefix i page w
               Hrel Hb).
    cbn [fst snd]. set (w0 := set_calls _ w).
    assert (W0 : writes_only_into target_bucket w w0)
      by apply untouched_writes_only_into, untouched_log.
    cbn [map concat] in Hks.
    destruct (restore_s3_objects_copy page w0 l) as (w1 & -> & W1 & H1).
    + intros h c. apply Hrel.
    + exact Hb.
    + exact Ht.
    + intros k Hk. apply Hks, in_or_app. now left.
    + destruct (IH w1 (mkRestoreLocals
                         (restored_objects l + Z.of_nat (length page))
                         (failed_objects l)))
        as (w' & Hrun & W & Hall).
      * exact (reliable_writes _ _ _ W1 (fun h c => Hrel h c)).
      * now apply W1.
      * now apply W1.
      * intros k Hk. apply (keys_persist _ _ _ _ _ W1).
        apply Hks, in_or_app. now right.
      * exists w'. split; [|split].
        -- rewrite Hrun. cbn [restored_objects failed_objects map concat].
           now rewrite length_app, Nat2Z.inj_add, Z.add_assoc.
        -- exact (writes_only_into_trans _ _ _ _ W0
                    (writes_only_into_trans _ _ _ _ W1 W)).
        -- cbn [map concat]. intros k Hk.
           apply in_app_or in Hk as [Hk | Hk]; [|now apply Hall].
           exact (keys_persist _ _ _ _ _ W (H1 k Hk)).
Qed.

Lemma restore_s3_objects_reliable w :
  reliable w -> bucket_exists backup_bucket w = true ->
  bucket_exists target_bucket w = true ->
  exists w',
    restore_s3_objects backup_bucket backup_prefix target_bucket
      target_prefix w
    = (w', Ret (restore_report
                  (mkRestoreLocals
                     (Z.of_nat
                        (length (List.filter (String.prefix backup_prefix)
                                   (object_keys backup_bucket w)))) 0)
                  target_bucket (now w))) /\
    writes_only_into target_bucket w w' /\
    forall k,
      In k (object_keys backup_bucket w) ->
      String.prefix backup_prefix k = true ->
      In (target_prefix +:+ str_drop (String.length backup_prefix) k)
        (object_keys target_bucket w').
Proof.
  intros Hrel Hb Ht. unfold restore_s3_objects, run, try_except.
  rewrite bind_run. unfold ask at 1. rewrite bind_run.
  destruct (restore_s3_pages_copy (enumerate (paginate backup_bucket
                                                backup_prefix w))
              w (mkRestoreLocals 0 0) Hrel Hb Ht)
    as (w' & -> & W & Hall).
  { rewrite enumerate_snd, paginate_concat. intros k Hk.
    now apply filter_In in Hk. }
  rewrite enumerate_snd, paginate_concat in *.
  rewrite bind_run. unfold locals at 1. rewrite bind_run. unfold ask at 1.
  pose proof W as [F _]. rewrite (frame_now _ _ F).
  exists w'. split; [reflexivity|]. split; [exact W|].
  intros k Hk Hp. apply Hall. apply filter_In. now split.
Qed.


End RestoreCopies.

Section RoundTrip.

Variable self : BackupManager.


End RoundTrip.

(* ===================================================================== *)
(** * [__init__] and [lambda_handler]                                    *)
(* ===================================================================== *)

Section Handler.

Variable int : string -> outcome Z.

(** X15.  The constructor looks the account up whether or not
    [BACKUP_BUCKET] is set: when the lookup fails no manager is made, and
    the bucket name is built from the account only when the variable is
    unset.  An empty region argument counts as none, and the manager made
    has the retention [int] reads from [BACKUP_RETENTION_DAYS], '30' when
    unset. *)
Theorem init_looks_the_account_up_first given p w :
  (forall e, get_caller_identity p = Raise e ->
             exists e', __init__ int given p w = Raise e') /\
  (forall self,
     __init__ int given p w = Ret self ->
     exists account,
       get_caller_identity p = Ret account /\
       backup_bucket self
       = match environ_BACKUP_BUCKET w with
         | Some b => b
         | None => "aws-backup-pipeline-" +:+ account
         end /\
       int (match environ_BACKUP_RETENTION_DAYS p with
            | Some s => s
            | None => "30"
            end) = Ret (retention_days self) /\
       sns_topic_arn self = environ_SNS_TOPIC_ARN p /\
       region self
       = match given with
         | Some (String a r) => String a r
         | _ => match environ_AWS_REGION p with
                | Some r => r
                | None => "us-east-1"
                end
         end) /\
  __init__ int (Some "") p w = __init__ int None p w.
Proof.
  unfold __init__, _get_account_id, getenv. split; [|split].
  - intros e ->. destruct (boto3_client p _); eauto.
  - intros self. destruct (boto3_client p _); [discriminate|].
    destruct (get_caller_identity p) as [account|]; [|discriminate].
    destruct (int _) as [n|]; [|discriminate].
    intros [= <-]. exists account. cbn.
    split; [reflexivity|]. split; [reflexivity|]. split; [reflexivity|].
    split; [reflexivity|]. now destruct given as [[|a r]|].
  - reflexivity.
Qed.

Lemma lambda_handler_run event p w :
  lambda_handler int event p w
  = match __init__ int None p w with
    | Raise e => (w, Ret (mkLambdaResponse 500 (ErrorPayload e)))
    | Ret self =>
        let backup_type := default (VStr "full") (event !! "backup_type") in
        let answer {A} (payload : A -> Payload) (r : World * outcome A) :=
          match r with
          | (w', Ret a) => (w', Ret (mkLambdaResponse 200 (payload a)))
          | (w', Raise e) => (w', Ret (mkLambdaResponse 500 (ErrorPayload e)))
          end in
        if is_str backup_type "ec2" then
          answer BatchPayload (backup_ec2_instances self [] w)
        else if is_str backup_type "rds" then
          answer BatchPayload (backup_rds_databases self [] w)
        else if is_str backup_type "s3" then
          answer BatchPayload (backup_s3_buckets self [] w)
        else if is_str backup_type "cleanup" then
          answer CleanupPayload (cleanup_old_backups self w)
        else answer FullPayload (run_full_backup self w)
    end.
Proof.
  unfold lambda_handler, run, try_except. rewrite bind_run.
  destruct (__init__ int None p w) as [self|e]; [|reflexivity].
  cbn zeta. rewrite bind_run.
  repeat match goal with
         | |- context [if ?b then _ else _] => destruct b
         end;
    rewrite bind_run, call_run;
    match goal with
    | |- context [snd ?x] => destruct x as [w' [r|e]]
    end; reflexivity.
Qed.

Lemma run_full_backup_outcome self w :
  match cutoff self w with
  | Some _ => exists r, snd (run_full_backup self w) = Ret r
  | None => snd (run_full_backup self w) = Raise "OverflowError"
  end.
Proof.
  rewrite run_full_backup_run.
  pose proof (backup_ec2_instances_frame self [] w) as F1.
  destruct (backup_ec2_instances_returns self [] w) as [ec2 R1].
  destruct (backup_ec2_instances self [] w) as [w1 o1].
  cbn in R1, F1. subst o1.
  pose proof (backup_rds_databases_frame self [] w1) as F2.
  destruct (backup_rds_databases_returns self [] w1) as [rds R2].
  destruct (backup_rds_databases self [] w1) as [w2 o2].
  cbn in R2, F2. subst o2.
  pose proof (backup_s3_buckets_frame self [] w2) as F3.
  destruct (backup_s3_buckets_returns self [] w2) as [s3 R3].
  destruct (backup_s3_buckets self [] w2) as [w3 o3].
  cbn in R3, F3. subst o3.
  assert (Hc : cutoff self w3 = cutoff self w).
  { unfold cutoff. destruct F1 as [N1 _], F2 as [N2 _], F3 as [N3 _].
    now rewrite N3, N2, N1. }
  destruct (cutoff self w) as [c|] eqn:E.
  - destruct (cleanup_returns self w3) as [r Hr]; [now rewrite Hc|].
    destruct (cleanup_old_backups self w3) as [w4 o4]. cbn in Hr. subst o4.
    eauto.
  - now rewrite (cleanup_old_backups_overflow self w3 Hc).
Qed.


End Handler.

(* ===================================================================== *)
(** * [restore_ec2_from_snapshot] and [restore_rds_from_snapshot]        *)
(* ===================================================================== *)

Section RestoreSnapshots.

Ltac restore_steps :=
  repeat first
    [ rewrite bind_run
    | rewrite call_run
    | progress cbn [fst snd ret mret M_ret]
    | progress cbv beta iota zeta
    | progress unfold ask at 1 ].

(** X17.  [restore_ec2_from_snapshot] never raises and changes nothing on
    the backup side.  When the snapshot lookup fails or answers nothing,
    no image is registered and no instance launched, and the result is a
    failure naming the snapshot.  When the lookup finds the snapshot and
    nothing is refused, an image is registered from the snapshot, waited
    for, and one instance launched from it; the subnet and the security
    groups are passed only when given and not empty.  The snapshot's
    state and tags are not looked at: a pending or untagged snapshot is
    restored like any other. *)
Theorem restore_ec2_from_snapshot_outcomes snapshot_id instance_type
  subnet_id security_group_ids w s :
  exists w' s' r,
    restore_ec2_from_snapshot snapshot_id instance_type subnet_id
      security_group_ids w s = (w', s', Ret r) /\
    untouched w w' /\
    r !! "snapshot_id" = Some (VStr snapshot_id) /\
    (found (snd (ec2_describe_snapshots [snapshot_id] w)) = false ->
     s' = s /\ r !! "success" = Some (VBool false)
     /\ exists e, r !! "error" = Some (VStr e)) /\
    (found (snd (ec2_describe_snapshots [snapshot_id] w)) = true ->
     launch_reliable s ->
     r !! "success" = Some (VBool true) /\
     r !! "ami_id" = Some (VStr (restore_image_id s)) /\
     images s' = images s ++ [restore_image snapshot_id (now w) s] /\
     exists instance_id,
       r !! "instance_id" = Some (VStr instance_id) /\
       launched s'
       = launched s ++ [mkLaunched instance_id (restore_image_id s)
                          instance_type
                          (restored_instance_tags snapshot_id (now w))] /\
       launch_calls s'
       = [RunInstances (restore_image_id s) instance_type
            (given_string subnet_id) (given_list security_group_ids)
            (restored_instance_tags snapshot_id (now w));
          WaitImageAvailable (restore_image_id s);
          RegisterImage
            ("restore-ami-" +:+ snapshot_id +:+ "-"
             +:+ strftime_compact (now w))
            ("AMI created from snapshot " +:+ snapshot_id +:+ " for restore")
            snapshot_id]
         ++ launch_calls s).
Proof.
  pose proof (ec2_describe_snapshots_untouched [snapshot_id] w) as U.
  unfold restore_ec2_from_snapshot, try_except. restore_steps.
  destruct (ec2_describe_snapshots [snapshot_id] w) as [w1 [[|snap rest]|e]];
    cbn [fst snd found] in *.
  1,3: eexists _, _, _; split; [reflexivity|]; split; [exact U|];
    split; [reflexivity|]; split; [|discriminate];
    intros _; split; [reflexivity|]; split; [reflexivity|];
    eexists; reflexivity.
  assert (Hnow : now w1 = now w) by (destruct U as [F _]; exact (frame_now _ _ F)).
  restore_steps. rewrite Hnow.
  unfold ec2_register_image at 1, launch.
  destruct (launch_fault s (launch_calls s) _) as [e1|] eqn:E1.
  { eexists _, _, _. split; [reflexivity|]. split; [exact U|].
    split; [reflexivity|]. split; [discriminate|].
    intros _ Hrel. now rewrite Hrel in E1. }
  restore_steps. unfold ec2_wait_image_available at 1, launch.
  match goal with
  | |- context [launch_fault ?s ?h ?c] =>
      destruct (launch_fault s h c) as [e2|] eqn:E2
  end.
  { eexists _, _, _. split; [reflexivity|]. split; [exact U|].
    split; [reflexivity|]. split; [discriminate|].
    intros _ Hrel. cbn in E2. now rewrite Hrel in E2. }
  restore_steps. rewrite Hnow.
  unfold ec2_run_instances at 1, launch.
  match goal with
  | |- context [launch_fault ?s ?h ?c] =>
      destruct (launch_fault s h c) as [e3|] eqn:E3
  end.
  { eexists _, _, _. split; [reflexivity|]. split; [exact U|].
    split; [reflexivity|]. split; [discriminate|].
    intros _ Hrel. cbn in E3. now rewrite Hrel in E3. }
  restore_steps. rewrite Hnow.
  eexists _, _, _. split; [reflexivity|]. split; [exact U|].
  split; [reflexivity|]. split; [discriminate|].
  intros _ _. split; [reflexivity|]. split; [reflexivity|].
  split; [reflexivity|]. eexists. split; [reflexivity|].
  split; reflexivity.
Qed.

(** X18.  [restore_ec2_from_snapshot] does not undo what it did: when the
    image was registered and the launch is refused (the wait having been
    accepted or refused), the result is a failure that names neither
    image nor instance, and the image stays registered. *)
Theorem refused_launch_leaves_the_image_registered snapshot_id instance_type
  subnet_id security_group_ids w s :
  found (snd (ec2_describe_snapshots [snapshot_id] w)) = true ->
  launch_fault s (launch_calls s)
    (RegisterImage
       ("restore-ami-" +:+ snapshot_id +:+ "-" +:+ strftime_compact (now w))
       ("AMI created from snapshot " +:+ snapshot_id +:+ " for restore")
       snapshot_id) = None ->
  (forall h c, is_run_instances c = true -> launch_fault s h c <> None) ->
  exists w' s' r,
    restore_ec2_from_snapshot snapshot_id instance_type subnet_id
      security_group_ids w s = (w', s', Ret r) /\
    r !! "success" = Some (VBool false) /\
    r !! "ami_id" = None /\ r !! "instance_id" = None /\
    images s' = images s ++ [restore_image snapshot_id (now w) s] /\
    launched s' = launched s.
Proof.
  intros Hfound Hreg Hrun.
  pose proof (ec2_describe_snapshots_untouched [snapshot_id] w) as U.
  unfold restore_ec2_from_snapshot, try_except. restore_steps.
  destruct (ec2_describe_snapshots [snapshot_id] w) as [w1 [[|snap rest]|e]];
    cbn [fst snd found] in *; try discriminate.
  assert (Hnow : now w1 = now w) by (destruct U as [F _]; exact (frame_now _ _ F)).
  restore_steps. rewrite Hnow.
  unfold ec2_register_image at 1, launch. rewrite Hreg.
  restore_steps. unfold ec2_wait_image_available at 1, launch.
  match goal with
  | |- context [launch_fault ?s ?h ?c] =>
      destruct (launch_fault s h c) as [e2|] eqn:E2
  end.
  { eexists _, _, _. split; [reflexivity|]. repeat split; reflexivity. }
  restore_steps. rewrite Hnow.
  unfold ec2_run_instances at 1, launch.
  match goal with
  | |- context [launch_fault ?s ?h ?c] =>
      destruct (launch_fault s h c) as [e3|] eqn:E3
  end.
  { eexists _, _, _. split; [reflexivity|]. repeat split; reflexivity. }
  exfalso. cbn in E3. now apply Hrun in E3.
Qed.

(** X19.  [restore_rds_from_snapshot] never raises and changes nothing on
    the backup side.  When the snapshot lookup fails, no restore is asked
    for.  When the lookup finds the snapshot and the restore is accepted,
    the result has status 'restoring' and the database is restored under
    the new identifier, tagged with the snapshot and with the database the
    snapshot was taken from; when it is refused the result is the failure
    and no database is made.  The snapshot's status is not looked at. *)
Theorem restore_rds_from_snapshot_outcomes snapshot_id new_db_identifier
  db_instance_class w s :
  exists w' s' r,
    restore_rds_from_snapshot snapshot_id new_db_identifier
      db_instance_class w s = (w', s', Ret r) /\
    untouched w w' /\
    r !! "snapshot_id" = Some (VStr snapshot_id) /\
    (found (snd (rds_describe_db_snapshots (Some snapshot_id) w)) = false ->
     s' = s /\ r !! "success" = Some (VBool false)) /\
    (forall snapshot rest,
       snd (rds_describe_db_snapshots (Some snapshot_id) w)
       = Ret (snapshot :: rest) ->
       let request :=
         RestoreDBInstanceFromDBSnapshot new_db_identifier snapshot_id
           db_instance_class
           (restored_db_tags snapshot_id (now w)
              (SourceDBInstanceIdentifier snapshot)) in
       launch_calls s' = request :: launch_calls s /\
       (launch_fault s (launch_calls s) request = None ->
        r !! "success" = Some (VBool true) /\
        r !! "status" = Some (VStr "restoring") /\
        r !! "db_identifier" = Some (VStr new_db_identifier) /\
        restored s'
        = restored s ++ [mkRestoredDB new_db_identifier snapshot_id
                           db_instance_class
                           (restored_db_tags snapshot_id (now w)
                              (SourceDBInstanceIdentifier snapshot))]) /\
       (forall e,
          launch_fault s (launch_calls s) request = Some e ->
          r = restore_snapshot_failure e snapshot_id /\
          restored s' = restored s)).
Proof.
  pose proof (rds_describe_db_snapshots_untouched (Some snapshot_id) w) as U.
  unfold restore_rds_from_snapshot, try_except. restore_steps.
  destruct (rds_describe_db_snapshots (Some snapshot_id) w)
    as [w1 [[|snap rest]|e]]; cbn [fst snd found] in *.
  1,3: eexists _, _, _; split; [reflexivity|]; split; [exact U|];
    split; [reflexivity|]; split; [|intros ? ? [=]];
    intros _; split; reflexivity.
  assert (Hnow : now w1 = now w) by (destruct U as [F _]; exact (frame_now _ _ F)).
  restore_steps. rewrite Hnow.
  unfold rds_restore_db_instance_from_db_snapshot at 1, launch.
  fold (restored_db_tags snapshot_id (now w) (SourceDBInstanceIdentifier snap)).
  destruct (launch_fault s (launch_calls s) _) as [e1|] eqn:E1.
  - eexists _, _, _. split; [reflexivity|]. split; [exact U|].
    split; [reflexivity|]. split; [discriminate|].
    intros snapshot rest' [= <- <-]. cbn zeta. rewrite E1.
    split; [reflexivity|]. split; [discriminate|].
    intros e [= <-]. split; reflexivity.
  - restore_steps. rewrite Hnow.
    eexists _, _, _. split; [reflexivity|]. split; [exact U|].
    split; [reflexivity|]. split; [discriminate|].
    intros snapshot rest' [= <- <-]. cbn zeta. rewrite E1.
    split; [reflexivity|]. split; [|discriminate].
    intros _. repeat split; reflexivity.
Qed.

End RestoreSnapshots.

(* ===================================================================== *)
(** * Backups and restores at the sample providers                       *)
(* ===================================================================== *)

Section MoreWitnesses.

(** X8, at the sample provider: four instance snapshots and one database
    snapshot are older than the cutoff and tagged. *)
Lemma cleanup_counts_what_it_deleted_witness :
  exists w' r,
    cleanup_old_backups manager with_snapshots = (w', Ret r) /\
    r !! "ec2_snapshots_deleted" = Some 4 /\
    r !! "rds_snapshots_deleted" = Some 1 /\
    length (snapshots w') = 2%nat /\
    length (db_snapshots w') = 2%nat.
Proof.
  destruct (cleanup_counts_what_it_deleted manager with_snapshots
              (mkDT 2024 3 1 12 0 0 0 None))
    as (w' & r & e & d & Hrun & He & Hd & Ee & Ed & Hs & Hdb).
  - reflexivity.
  - apply no_fault_reliable. reflexivity.
  - apply distinct_NoDup. vm_compute. reflexivity.
  - apply distinct_NoDup. vm_compute. reflexivity.
  - exists w', r. split; [exact Hrun|].
    vm_compute in Ee, Ed. subst e d.
    split; [exact He|]. split; [exact Hd|].
    change (length (snapshots with_snapshots)) with 6%nat in Hs.
    change (length (db_snapshots with_snapshots)) with 3%nat in Hdb.
    split; lia.
Defined.

(** X9, at the sample provider: a retention of a million days. *)
Lemma cutoff_out_of_range_is_not_caught_witness :
  cleanup_old_backups keeps_for_ever one_bucket
  = (one_bucket, Raise "OverflowError") /\
  exists w', run_full_backup keeps_for_ever one_bucket
             = (w', Raise "OverflowError") /\
             object_keys "backup-bucket" w'
             = ["s3-backups/data/2024/03/31/report.txt"].
Proof.
  destruct (cutoff_out_of_range_is_not_caught keeps_for_ever one_bucket)
    as (Hcleanup & w1 & w2 & w3 & ec2 & rds & s3 & H1 & H2 & H3 & Hrun).
  - right. left. vm_compute. discriminate.
  - split; [exact Hcleanup|]. exists w3. split; [exact Hrun|].
    vm_compute in H1. injection H1 as <- _.
    vm_compute in H2. injection H2 as <- _.
    vm_compute in H3. injection H3 as <- _.
    reflexivity.
Defined.

(** X11, at the sample provider: two databases, backed up twice within
    the second. *)
Lemma rds_backups_within_a_second_collide_witness :
  exists w1 r1 w2,
    backup_rds_databases manager [] two_databases = (w1, Ret r1) /\
    length (db_snapshots w1) = 2%nat /\
    backup_rds_databases manager [] (set_now noon_and_a_half w1)
    = (w2, Ret (mkResults []
                  [rds_failure_entry "db-1" "DBSnapshotAlreadyExists";
                   rds_failure_entry "db-2" "DBSnapshotAlreadyExists"])) /\
    db_snapshots w2 = db_snapshots w1.
Proof.
  destruct (backup_rds_databases manager [] two_databases)
    as [w1 [r1|e]] eqn:E; [|vm_compute in E; discriminate E].
  destruct (rds_backups_within_a_second_collide manager two_databases w1 r1
              noon_and_a_half) as (w2 & Hrun & Hsame).
  - apply no_fault_reliable. reflexivity.
  - exact E.
  - reflexivity.
  - exists w1, r1, w2. split; [reflexivity|].
    split; [vm_compute in E; injection E as <- _; reflexivity|].
    split; [exact Hrun | exact Hsame].
Defined.

(** X12, at the sample provider: the one object of [data]. *)
Lemma backup_s3_buckets_copies_every_object_witness :
  exists w',
    backup_s3_buckets manager ["data"] one_bucket
    = (w', Ret (mkResults [s3_complete_entry manager one_bucket "data"] []))
    /\ In "s3-backups/data/2024/03/31/report.txt"
         (object_keys "backup-bucket" w').
Proof.
  destruct (backup_s3_buckets_copies_every_object manager ["data"] one_bucket)
    as (w' & targets & -> & Hrun & Hkeys).
  - apply no_fault_reliable. reflexivity.
  - repeat constructor. discriminate.
  - exists w'. split; [exact Hrun|].
    apply (Hkeys "data" "report.txt"); cbn; tauto.
Defined.



(** X18, at the sample provider: no capacity for the instance. *)
Lemma refused_launch_leaves_the_image_registered_witness :
  exists w' s' r,
    restore_ec2_from_snapshot "snap-a" "t3.micro" None None with_snapshots
      no_capacity = (w', s', Ret r) /\
    r !! "success" = Some (VBool false) /\
    r !! "ami_id" = None /\
    images s'
    = [mkImage "ami-0" "restore-ami-snap-a-20240331120000" "snap-a"] /\
    launched s' = [].
Proof.
  destruct (refused_launch_leaves_the_image_registered "snap-a" "t3.micro"
              None None with_snapshots no_capacity)
    as (w' & s' & r & Hrun & Hr & Hami & _ & Himages & Hlaunched).
  - reflexivity.
  - reflexivity.
  - intros h c Hc. cbn. rewrite Hc. discriminate.
  - exists w', s', r. split; [exact Hrun|]. split; [exact Hr|].
    split; [exact Hami|]. split; [exact Himages | exact Hlaunched].
Defined.

End MoreWitnesses.
